(** * Clique-percolation community pipeline: graph construction,
      community detection, labelling and the client-side filters.

    Shallow embedding of the Python scripts [run_cpm_visualize.py],
    [run_plotly_network.py], [export_plotly_dashboard.py] and
    [export_vis_draggable.py], and of the JavaScript handlers embedded in
    the two HTML templates.

    Python floats are IEEE-754 binary64 numbers: they are modelled by Rocq's
    primitive floats, so that [+=] and [>=] are the machine operations
    (including NaN, which pandas uses for an empty numeric field). *)

From Stdlib Require Import PrimFloat FloatOps FloatAxioms SpecFloat Ascii String.
From stdpp Require Import gmap strings list fin_maps pretty sorting.

Open Scope nat_scope.

(* stdpp's solvers clear hypotheses that an earlier step may have consumed. *)
Set Warnings "-clear-no-such-hyp".

(** ** Exceptions *)

Inductive exn :=
  | KeyError (key : string)
  | ValueError (msg : string).

Inductive result (A : Type) :=
  | Ok (a : A)
  | Raise (e : exn).
Arguments Ok {A} a.
Arguments Raise {A} e.

#[global] Instance result_ret : MRet result := fun _ a => Ok a.
#[global] Instance result_bind : MBind result := fun _ _ f m =>
  match m with
  | Ok a => f a
  | Raise e => Raise e
  end.

Fixpoint mapM_result {A B} (f : A -> result B) (l : list A) : result (list B) :=
  match l with
  | [] => Ok []
  | x :: l' => y ← f x; ys ← mapM_result f l'; Ok (y :: ys)
  end.

(** ** Tabular input (what [pd.read_csv] hands to the scripts)

    A cell is described by what the builtins applied to it return, [str(x)]
    and [float(x)] ([None] when [float] raises [ValueError]), and by the
    dtype of the column it belongs to. *)

(** The dtypes [pd.read_csv] infers.  For a cell of an int64 column,
    [as_float64] is [str] of its value converted to float64 (["1.0"] for
    [1]): what the cell prints as in a row Series of dtype float64. *)
Inductive dtype :=
  | int64 (as_float64 : string)
  | float64
  | bool_
  | object.

Record cell := Cell {
  py_str : string;
  py_float : option float;
  py_dtype : dtype
}.

(** A textual field that is not a number. *)
Definition text (s : string) : cell := Cell s None object.
(** A field of a float64 column; [s] is its printed form. *)
Definition num (s : string) (f : float) : cell := Cell s (Some f) float64.
(** A field of an int64 column; [s] is its printed form and [s64] the
    printed form of the same number as a float64. *)
Definition int_cell (s s64 : string) (f : float) : cell := Cell s (Some f) (int64 s64).
(** An empty field: pandas stores NaN. *)
Definition empty_cell : cell := Cell "nan" (Some nan) float64.

(** [rows] are the Series yielded by [df.iterrows()], indexed by column
    name.  [iterrows] slices [df.values], one array of a single dtype for the
    whole frame: see [values] below. *)
Record DataFrame := {
  columns : list string;
  rows : list (gmap string cell)
}.

(** Every row carries exactly the columns of the frame. *)
Definition df_wf (df : DataFrame) : Prop :=
  Forall (fun r : gmap string cell => dom r = list_to_set (columns df)) (rows df).

Definition numeric (c : cell) : bool :=
  match py_dtype c with
  | int64 _ | float64 => true
  | bool_ | object => false
  end.

Definition is_float64 (c : cell) : bool :=
  match py_dtype c with
  | float64 => true
  | _ => false
  end.

Definition is_int64 (c : cell) : bool :=
  match py_dtype c with
  | int64 _ => true
  | _ => false
  end.

(** [x.astype(float64)] on a numeric cell. *)
Definition astype_float64 (c : cell) : cell :=
  match py_dtype c with
  | int64 s64 => {| py_str := s64; py_float := py_float c; py_dtype := float64 |}
  | _ => c
  end.

(** Every cell of every row satisfies [p]; some cell of some row does. *)
Definition all_cells (p : cell -> bool) (rs : list (gmap string cell)) : bool :=
  bool_decide (Forall (map_Forall (fun (_ : string) c => p c = true)) rs).

Definition some_cell (p : cell -> bool) (rs : list (gmap string cell)) : bool :=
  bool_decide (Exists (map_Exists (fun (_ : string) c => p c = true)) rs).

(** [df.values], of which [iterrows] yields the rows: the columns are brought
    to their common dtype.  When every column is int64 or float64 and one is
    float64, the common dtype is float64 and the integers become floats;
    all-int64 frames stay int64, and with any other column the common dtype
    is object and every value is kept as it is. *)
Definition values (rs : list (gmap string cell)) : list (gmap string cell) :=
  if all_cells numeric rs && some_cell is_float64 rs
  then (fun r : gmap string cell => astype_float64 <$> r) <$> rs
  else rs.

(** [df[c] = v]: a new column (or an overwritten one) holding [v] in every
    row; the rows yielded afterwards are those of the new [df.values]. *)
Definition set_column (c : string) (v : cell) (df : DataFrame) : DataFrame :=
  {| columns := if bool_decide (c ∈ columns df) then columns df else columns df ++ [c];
     rows := values ((fun r => <[c := v]> r) <$> rows df) |}.

(** [row[c]] *)
Definition getitem (r : gmap string cell) (c : string) : result cell :=
  match r !! c with
  | Some x => Ok x
  | None => Raise (KeyError c)
  end.

(** [row.get(c, d)] *)
Definition get (r : gmap string cell) (c : string) (d : cell) : cell :=
  default d (r !! c).

(** [float(x)] *)
Definition float_of (x : cell) : result float :=
  match py_float x with
  | Some f => Ok f
  | None => Raise (ValueError ("could not convert string to float: " +:+ py_str x))
  end.

(** run_cpm_visualize.py, [read_data] (after [pd.read_csv]); the missing
    weight column is filled with the integer [1]. *)
Definition read_data (df : DataFrame) : result DataFrame :=
  if bool_decide ("source" ∈ columns df ∧ "target" ∈ columns df) then
    if bool_decide ("weight" ∈ columns df) then Ok df
    else Ok (set_column "weight" (int_cell "1" "1.0" 1) df)
  else Raise (ValueError "must contain columns: source,target[,weight]").

(** run_plotly_network.py, export_plotly_dashboard.py, export_vis_draggable.py:
    [read_inputs] (the edge frame; no column check); the missing weight
    column is filled with the float [1.0], which makes an all-integer frame
    yield its integers as floats. *)
Definition read_inputs (df : DataFrame) : DataFrame :=
  if bool_decide ("weight" ∈ columns df) then df
  else set_column "weight" (num "1.0" 1) df.

(** ** The graph ([networkx.Graph])

    The adjacency structure [G._adj]: node -> neighbour -> edge weight.  The
    node dictionary has the same keys.  In networkx the attribute dictionary
    of an edge is one object shared by [adj[u][v]] and [adj[v][u]]; the pure
    model writes both entries on every update. *)

Abbreviation Graph := (gmap string (gmap string float)).

Definition nodes (G : Graph) : gset string := dom G.

Definition neighbors (G : Graph) (u : string) : gmap string float :=
  default ∅ (G !! u).

(** [G.has_edge(u, v)] *)
Definition has_edge (G : Graph) (u v : string) : bool :=
  match G !! u with
  | Some nbrs => bool_decide (is_Some (nbrs !! v))
  | None => false
  end.

(** [G[u][v]["weight"]], when the edge exists. *)
Definition edge_weight (G : Graph) (u v : string) : option float :=
  nbrs ← G !! u; nbrs !! v.

Definition add_node (G : Graph) (u : string) : Graph :=
  match G !! u with
  | Some _ => G
  | None => <[u := ∅]> G
  end.

(** Both directions of the shared attribute dictionary. *)
Definition set_weight (G : Graph) (u v : string) (w : float) : Graph :=
  let G1 := <[u := <[v := w]> (neighbors G u)]> G in
  <[v := <[u := w]> (neighbors G1 v)]> G1.

(** [G.add_edge(u, v, weight=w)] *)
Definition add_edge (G : Graph) (u v : string) (w : float) : Graph :=
  set_weight (add_node (add_node G u) v) u v w.

(** [G[u][v]["weight"] += w] *)
Definition incr_weight (G : Graph) (u v : string) (w : float) : Graph :=
  match edge_weight G u v with
  | Some x => set_weight G u v (x + w)
  | None => G
  end.

(** [G.degree(u)]: a self-loop counts twice. *)
Definition degree (G : Graph) (u : string) : nat :=
  size (neighbors G u) + (if has_edge G u u then 1 else 0).

Definition number_of_nodes (G : Graph) : nat := size G.

Definition number_of_edges (G : Graph) : nat :=
  foldr (fun u n => degree G u + n) 0 (elements (nodes G)) `div` 2.

(** ** GraphBuilder *)

Record EdgeRecord := {
  e_source : string;
  e_target : string;
  e_weight : float
}.

(** [w >= threshold] on floats. *)
Definition geb (w t : float) : bool := PrimFloat.leb t w.

(** The three reads at the head of the loop body, in program order. *)
Definition row_record (r : gmap string cell) : result EdgeRecord :=
  cu ← getitem r "source";
  cv ← getitem r "target";
  w ← float_of (get r "weight" (num "1" 1));
  Ok {| e_source := py_str cu; e_target := py_str cv; e_weight := w |}.

(** The rest of the loop body. *)
Definition add_record (t : float) (G : Graph) (e : EdgeRecord) : Graph :=
  if geb (e_weight e) t then
    if has_edge G (e_source e) (e_target e)
    then incr_weight G (e_source e) (e_target e) (e_weight e)
    else add_edge G (e_source e) (e_target e) (e_weight e)
  else G.

Fixpoint build_loop (t : float) (rs : list (gmap string cell)) (G : Graph) : result Graph :=
  match rs with
  | [] => Ok G
  | r :: rs' => e ← row_record r; build_loop t rs' (add_record t G e)
  end.

(** [build_threshold_graph] / [build_graph] (the four copies are identical). *)
Definition build_graph (df : DataFrame) (t : float) : result Graph :=
  build_loop t (rows df) ∅.

(** The ordered sequence of raw edge records of a frame. *)
Definition records (df : DataFrame) : result (list EdgeRecord) :=
  mapM_result row_record (rows df).

(** The two entry points, up to the built graph. *)
Definition run_cpm_visualize (df : DataFrame) (t : float) : result Graph :=
  df' ← read_data df; build_graph df' t.

Definition run_export (df : DataFrame) (t : float) : result Graph :=
  build_graph (read_inputs df) t.

(** *** Specification side: what a pair's weight should be *)

(** The record joins the unordered pair {u, v}. *)
Definition connects (u v : string) (e : EdgeRecord) : bool :=
  bool_decide ((e_source e = u ∧ e_target e = v) ∨ (e_source e = v ∧ e_target e = u)).

(** A record survives the threshold test. *)
Definition survives (t : float) (e : EdgeRecord) : bool := geb (e_weight e) t.

(** Weights, in input order, of the surviving records joining {u, v}. *)
Definition qualifying (t : float) (u v : string) (es : list EdgeRecord) : list float :=
  e_weight <$> List.filter (fun e => survives t e && connects u v e) es.

Definition accumulate (acc : option float) (w : float) : option float :=
  Some (match acc with Some x => (x + w)%float | None => w end).

(** Left-to-right floating-point sum; [None] for no summand. *)
Definition weight_sum (ws : list float) : option float :=
  fold_left accumulate ws None.

(** *** Sample tables *)

Definition edge_row (s t : string) (w : cell) : gmap string cell :=
  {[ "source" := text s; "target" := text t; "weight" := w ]}.

Definition edge_frame (rs : list (gmap string cell)) : DataFrame :=
  {| columns := ["source"; "target"; "weight"]; rows := rs |}.

(** A table whose rows read back as the given records. *)
Definition frame_of_records (es : list EdgeRecord) : DataFrame :=
  edge_frame ((fun e => edge_row (e_source e) (e_target e)
                                 (Cell "" (Some (e_weight e)) float64)) <$> es).

(** A-B below the threshold 4. *)
Definition single_low_df : DataFrame :=
  edge_frame [edge_row "A" "B" (num "2" 2)].

(** The pair {A, B} three times (once reversed, once too light), a triangle
    side and a self-loop on C. *)
Definition repeated_df : DataFrame :=
  edge_frame [edge_row "A" "B" (num "5" 5); edge_row "B" "A" (num "6.5" 6.5);
              edge_row "A" "B" (num "2" 2); edge_row "B" "C" (num "4" 4);
              edge_row "C" "C" (num "7" 7); edge_row "C" "C" (num "4.5" 4.5)].

Definition repeated_records : list EdgeRecord :=
  [Build_EdgeRecord "A" "B" 5; Build_EdgeRecord "B" "A" 6.5;
   Build_EdgeRecord "A" "B" 2; Build_EdgeRecord "B" "C" 4;
   Build_EdgeRecord "C" "C" 7; Build_EdgeRecord "C" "C" 4.5].

(** The triangle A-B-C, every side of weight 5. *)
Definition triangle_df : DataFrame :=
  edge_frame [edge_row "A" "B" (num "5" 5); edge_row "B" "C" (num "5" 5);
              edge_row "A" "C" (num "5" 5)].

(** A header without the required columns and no data row. *)
Definition header_only_df : DataFrame :=
  {| columns := ["from"; "to"; "weight"]; rows := [] |}.

(** One data row under a header without [target]. *)
Definition no_target_df : DataFrame :=
  {| columns := ["source"; "weight"];
     rows := [ {[ "source" := text "A"; "weight" := num "5" 5 ]} ] |}.

(** The weight column is present and the only record leaves it empty. *)
Definition empty_weight_df : DataFrame :=
  edge_frame [edge_row "A" "B" empty_cell].

(** No weight column at all. *)
Definition unweighted_df : DataFrame :=
  {| columns := ["source"; "target"];
     rows := [ {[ "source" := text "A"; "target" := text "B" ]};
               {[ "source" := text "B"; "target" := text "A" ]} ] |}.

(** Integer ids and no weight column: every column is int64. *)
Definition integer_ids_df : DataFrame :=
  {| columns := ["source"; "target"];
     rows := [ {[ "source" := int_cell "1" "1.0" 1; "target" := int_cell "2" "2.0" 2 ]} ] |}.

(** The record read from a row whose weight cell holds 1. *)
Definition unit_record (r : gmap string cell) : EdgeRecord :=
  {| e_source := py_str (get r "source" (text ""));
     e_target := py_str (get r "target" (text ""));
     e_weight := 1 |}.

(** A row with its two end points and a weight cell holding 1. *)
Definition unit_row (r : gmap string cell) : Prop :=
  is_Some (r !! "source") ∧ is_Some (r !! "target") ∧
  ∃ c, r !! "weight" = Some c ∧ py_float c = Some 1%float.

(** ** CommunityDetector: the clique-percolation method

    [detect_communities] in the scripts is
    [[set(c) for c in list(k_clique_communities(G, k))]]; the routine itself
    belongs to networkx and is not part of the scripts. *)

(** Modelled from the spec: adjacency as the clique enumeration of networkx
    sees it, two distinct nodes joined by an edge (self-loops play no role). *)
Definition adjacent (G : Graph) (u v : string) : bool :=
  bool_decide (u ≠ v) && has_edge G u v.

(** Modelled from the spec: a list of nodes is a clique (pairwise adjacency,
    each pair tested once). *)
Fixpoint clique_list (G : Graph) (s : list string) : bool :=
  match s with
  | [] => true
  | x :: s' => forallb (adjacent G x) s' && clique_list G s'
  end.

(** Modelled from the spec: every clique among the sublists of [l], the empty
    one included; the maximal ones are selected below. *)
Fixpoint cliques_within (G : Graph) (l : list string) : list (list string) :=
  match l with
  | [] => [[]]
  | x :: l' =>
      let cs := cliques_within G l' in
      (cons x <$> List.filter (forallb (adjacent G x)) cs) ++ cs
  end.

(** Modelled from the spec: a clique is maximal when no node outside [c] is
    adjacent to all of [c]. *)
Definition maximal_in (G : Graph) (c : list string) : bool :=
  match c with
  | [] => false
  | _ => forallb (fun x => bool_decide (x ∈ c) || negb (forallb (adjacent G x) c))
                 (elements (nodes G))
  end.

(** Modelled from the spec: the maximal-clique enumeration of networkx
    ([find_cliques]), which the scripts reach through
    [k_clique_communities]: "enumerate all maximal cliques of the graph". *)
Definition find_cliques (G : Graph) : list (gset string) :=
  list_to_set <$> List.filter (maximal_in G) (cliques_within G (elements (nodes G))).

(** Modelled from the spec: the connected components (networkx's
    [connected_components]) of the graph on [l] whose edges are given by
    [adj]; each new element absorbs the components it touches. *)
Fixpoint components {A} (adj : A -> A -> bool) (l : list A) : list (list A) :=
  match l with
  | [] => []
  | x :: l' =>
      let cs := components adj l' in
      (x :: concat (List.filter (existsb (adj x)) cs))
        :: List.filter (fun c => negb (existsb (adj x) c)) cs
  end.

(** Modelled from the spec: the edges of the clique graph of networkx, "two
    retained cliques are connected if they share at least k-1 common nodes". *)
Definition percolates (k : nat) (c1 c2 : gset string) : bool :=
  bool_decide (k - 1 ≤ size (c1 ∩ c2))%nat.

(** Modelled from the spec: networkx's [k_clique_communities], absent from
    the scripts: "enumerate all maximal cliques of the graph; retain those of
    size >= k; build a derived clique graph where two retained cliques are
    connected if they share at least k-1 common nodes; each connected
    component of this clique graph, when flattened to the union of its member
    cliques' nodes, is one output community."  The spec takes k >= 2. *)
Definition k_clique_communities (G : Graph) (k : nat) : list (gset string) :=
  let cliques := List.filter (fun c => bool_decide (k ≤ size c)%nat) (find_cliques G) in
  (fun comp : list (gset string) => ⋃ comp) <$> components (percolates k) cliques.

(** [detect_communities(G, k)] *)
Definition detect_communities (G : Graph) (k : nat) : list (gset string) :=
  k_clique_communities G k.

(** In how many of the returned communities the node lies. *)
Definition membership_count (G : Graph) (k : nat) (n : string) : nat :=
  length (List.filter (fun c : gset string => bool_decide (n ∈ c))
                      (detect_communities G k)).

(** *** Specification side *)

Definition clique (G : Graph) (c : gset string) : Prop :=
  c ⊆ nodes G ∧ ∀ u v, u ∈ c → v ∈ c → u ≠ v → adjacent G u v = true.

Definition maximal_clique (G : Graph) (c : gset string) : Prop :=
  c ≠ ∅ ∧ clique G c ∧ ∀ c', clique G c' → c ⊆ c' → c' = c.

(** Two maximal cliques of size >= k that share at least k-1 nodes: an edge
    of the clique graph. *)
Definition linked (G : Graph) (k : nat) (q q' : gset string) : Prop :=
  (maximal_clique G q ∧ k ≤ size q) ∧ (maximal_clique G q' ∧ k ≤ size q') ∧
  k - 1 ≤ size (q ∩ q').

(** The graphs networkx builds are undirected. *)
Definition undirected (G : Graph) : Prop :=
  ∀ u v, edge_weight G u v = edge_weight G v u.

(** Steps of the graph on [l] whose edges are given by [adj]. *)
Definition step_in {A} (adj : A -> A -> bool) (l : list A) (a b : A) : Prop :=
  a ∈ l ∧ b ∈ l ∧ adj a b = true.

(** *** Sample graphs *)

Definition graph_of_edges (l : list (string * string)) : Graph :=
  fold_left (fun G e => add_edge G e.1 e.2 1) l ∅.

(** A strip of nine triangles on the nodes a..k, closed by the triangle
    a-f-k whose corners lie five steps apart on the strip. *)
Definition strip_graph : Graph :=
  graph_of_edges
    [("a","b"); ("b","c"); ("c","d"); ("d","e"); ("e","f");
     ("f","g"); ("g","h"); ("h","i"); ("i","j"); ("j","k");
     ("a","c"); ("b","d"); ("c","e"); ("d","f"); ("e","g");
     ("f","h"); ("g","i"); ("h","j"); ("i","k");
     ("a","f"); ("f","k"); ("a","k")].

(** Two triangles sharing the node c, and a pendant node p. *)
Definition bowtie_graph : Graph :=
  graph_of_edges
    [("a","b"); ("b","c"); ("a","c"); ("c","d"); ("d","e"); ("c","e"); ("e","p")].

(** ** Enricher: community labels *)

(** A row of the attribute table, after [str(r['name'])] and
    [str(r.get('faction','') or '')]. *)
Record Character := {
  c_name : string;
  c_faction : string
}.

(** The [faction_map] dictionary; [None] is [chars_df is None]. *)
Definition faction_map (chars : option (list Character)) : gmap string string :=
  match chars with
  | None => ∅
  | Some rs => fold_left (fun m r => <[c_name r := c_faction r]> m) rs ∅
  end.

(** [bool(x)]: zero and the empty string are false; NaN is true. *)
Definition truthy (c : cell) : bool :=
  match py_dtype c with
  | object => negb (bool_decide (py_str c = ""))
  | _ =>
      match py_float c with
      | Some f => negb (PrimFloat.eqb f 0)
      | None => true
      end
  end.

(** [str(r.get('faction', '') or '')] *)
Definition faction_of (r : gmap string cell) : string :=
  let x := get r "faction" (text "") in
  if truthy x then py_str x else "".

(** The reads of the body of [for _, r in chars_df.iterrows()]; only
    [r['name']] can raise. *)
Definition char_row (r : gmap string cell) : result Character :=
  name ← getitem r "name";
  Ok {| c_name := py_str name; c_faction := faction_of r |}.

(** The rows of the attribute table as the loop reads them. *)
Definition read_characters (chars_df : option DataFrame)
  : result (option (list Character)) :=
  match chars_df with
  | None => Ok None
  | Some df => rs ← mapM_result char_row (rows df); Ok (Some rs)
  end.

(** [collections.Counter]: counts in order of first insertion. *)
Fixpoint counter_incr (x : string) (c : list (string * nat)) : list (string * nat) :=
  match c with
  | [] => [(x, 1)]
  | (y, n) :: c' =>
      if decide (x = y) then (y, S n) :: c' else (y, n) :: counter_incr x c'
  end.

Definition Counter (l : list string) : list (string * nat) :=
  fold_left (fun c x => counter_incr x c) l [].

(** [max(it, key=itemgetter(1))]: the first item with the largest count. *)
Fixpoint max_first (best : string * nat) (l : list (string * nat)) : string * nat :=
  match l with
  | [] => best
  | x :: l' => max_first (if best.2 <? x.2 then x else best) l'
  end.

(** [c.most_common(1)] *)
Definition most_common1 (c : list (string * nat)) : list (string * nat) :=
  match c with
  | [] => []
  | x :: c' => [max_first x c']
  end.

Inductive Label :=
  | Majority (faction : string) (size : nat)
  | Fallback (cid : nat) (size : nat).

(** The two f-strings. *)
Definition render (l : Label) : string :=
  match l with
  | Majority f n => f +:+ " (size=" +:+ pretty n +:+ ")"
  | Fallback cid n => "c" +:+ pretty cid +:+ " (size=" +:+ pretty n +:+ ")"
  end.

(** [factions = [faction_map.get(n, "") for n in comm if n in faction_map]];
    [comm] lists the members in the iteration order of the set. *)
Definition member_factions (fm : gmap string string) (comm : list string) : list string :=
  (fun n => default "" (fm !! n)) <$>
    List.filter (fun n => bool_decide (is_Some (fm !! n))) comm.

(** The body of the labelling loop. *)
Definition community_label (fm : gmap string string) (cid : nat) (comm : list string) : Label :=
  let factions := member_factions fm comm in
  match factions with
  | [] => Fallback cid (length comm)
  | _ :: _ =>
      match most_common1 (Counter factions) with
      | most :: _ => Majority most.1 (length comm)
      | [] => Fallback cid (length comm)
      end
  end.

(** The labelling loop of [get_community_label_map] and [community_labels],
    once the rows of the attribute table are read. *)
Definition community_labels (communities : list (list string))
    (chars : option (list Character)) : list (nat * string) :=
  imap (fun cid comm => (cid, render (community_label (faction_map chars) cid comm)))
       communities.

(** [get_community_label_map(communities, characters_df)] of
    run_cpm_visualize.py and [community_labels(communities, chars_df)] of
    export_plotly_dashboard.py (the same code). *)
Definition get_community_label_map (communities : list (list string))
    (characters_df : option DataFrame) : result (list (nat * string)) :=
  chars ← read_characters characters_df;
  Ok (community_labels communities chars).

(** *** Specification side of the labels *)

(** How many times [f] occurs in [l]. *)
Definition occurrences (f : string) (l : list string) : nat :=
  length (List.filter (fun y => bool_decide (y = f)) l).

(** The distinct elements of [l] in the order of their first occurrence. *)
Fixpoint first_seen (l : list string) : list string :=
  match l with
  | [] => []
  | x :: l' => x :: List.filter (fun y => negb (bool_decide (y = x))) (first_seen l')
  end.

(** [c[x]] for a Counter. *)
Fixpoint counter_get (x : string) (c : list (string * nat)) : nat :=
  match c with
  | [] => 0
  | (y, n) :: c' => if decide (x = y) then n else counter_get x c'
  end.

(** How many members of the community carry the category [g]. *)
Definition members_with (fm : gmap string string) (comm : list string) (g : string) : nat :=
  length (List.filter (fun n => bool_decide (fm !! n = Some g)) comm).

(** The cell pandas stores for an empty field: NaN. *)
Definition is_missing (c : cell) : Prop :=
  py_str c = "nan" ∧ py_float c = Some nan.

(** The row of the attribute table carries a category. *)
Definition carries_category (r : gmap string cell) : Prop :=
  ∃ c, r !! "faction" = Some c ∧ ¬ is_missing c.

(** An attribute table without a faction column. *)
Definition name_only_df : DataFrame :=
  {| columns := ["name"];
     rows := [ {[ "name" := text "a" ]}; {[ "name" := text "b" ]};
               {[ "name" := text "c" ]} ] |}.

(** An attribute table whose faction column is empty. *)
Definition blank_faction_df : DataFrame :=
  {| columns := ["name"; "faction"];
     rows := [ {[ "name" := text "a"; "faction" := empty_cell ]};
               {[ "name" := text "b"; "faction" := empty_cell ]} ] |}.

Definition sample_characters : list Character :=
  [ {| c_name := "a"; c_faction := "Chola" |};
    {| c_name := "b"; c_faction := "Pandya" |};
    {| c_name := "c"; c_faction := "Pandya" |};
    {| c_name := "d"; c_faction := "Chola" |} ].

(** ** InteractiveClient: the handlers of the two HTML templates *)

Record Node := {
  n_id : string;
  n_label : string;
  n_faction : string;
  n_communities : list nat
}.

Record Edge := {
  ed_source : string;
  ed_target : string
}.

Definition nonempty {A} (l : list A) : bool :=
  match l with [] => false | _ => true end.

(** The callback of [nodes.filter] in the Plotly dashboard's [applyFilters]. *)
Definition allowed (activeFactions : list string) (activeComms : list nat) (n : Node) : bool :=
  if nonempty activeFactions && negb (bool_decide (n_faction n ∈ activeFactions)) then false
  else if nonempty activeComms then
    if negb (nonempty (n_communities n)) then false
    else nonempty (List.filter (fun x => bool_decide (x ∈ activeComms)) (n_communities n))
  else true.

(** [applyFilters], up to the list [allowed] of node ids. *)
Definition applyFilters (nodes : list Node) (activeFactions : list string)
    (activeComms : list nat) : list string :=
  n_id <$> List.filter (allowed activeFactions activeComms) nodes.

(** [makeNodeTrace(filteredIds)]: the nodes that are drawn. *)
Definition makeNodeTrace (nodes : list Node) (filteredIds : option (list string)) : list Node :=
  List.filter (fun n => match filteredIds with
                        | Some ids => bool_decide (n_id n ∈ ids)
                        | None => true
                        end) nodes.

(** The vis-network page: the community check boxes carry the ids as strings
    and the node's ids are compared through [String(x)]. *)
Definition vis_allowed (activeFactions activeComms : list string) (n : Node) : bool :=
  if nonempty activeFactions && negb (bool_decide (n_faction n ∈ activeFactions)) then false
  else if nonempty activeComms then
    if negb (nonempty (n_communities n)) then false
    else existsb (fun x => bool_decide (pretty x ∈ activeComms)) (n_communities n)
  else true.

Definition vis_applyFilters (nodes : list Node) (activeFactions activeComms : list string)
  : list string :=
  n_id <$> List.filter (vis_allowed activeFactions activeComms) nodes.

(** The nodes left with [hidden: false]. *)
Definition vis_shown (nodes : list Node) (visible : list string) : list Node :=
  List.filter (fun n => bool_decide (n_id n ∈ visible)) nodes.

(** *** JavaScript string operations (on ASCII text)

    A string of the model is a sequence of 8-bit characters.  [trim],
    [toLowerCase] and [includes] below are the JavaScript methods on strings
    of ASCII characters ([is_ascii]); outside ASCII the methods also fold
    letters such as E-acute and strip white space such as U+00A0, which the
    model does not.  The statements about the search handlers are therefore
    made for ASCII labels and queries. *)

(** Every character of the string is below 128. *)
Fixpoint is_ascii (s : string) : bool :=
  match s with
  | String c s' => (nat_of_ascii c <? 128) && is_ascii s'
  | EmptyString => true
  end.

(** The ASCII white space removed by [String.prototype.trim]: TAB, LF, VT,
    FF, CR, SP. *)
Definition js_space (c : ascii) : bool :=
  let n := nat_of_ascii c in
  ((9 <=? n) && (n <=? 13)) || (n =? 32).

Fixpoint trim_start (s : string) : string :=
  match s with
  | String c s' => if js_space c then trim_start s' else s
  | EmptyString => EmptyString
  end.

Definition trim (s : string) : string :=
  String.rev (trim_start (String.rev (trim_start s))).

(** [String.prototype.toLowerCase] on ASCII text: A-Z become a-z. *)
Definition lower_char (c : ascii) : ascii :=
  let n := nat_of_ascii c in
  if (65 <=? n) && (n <=? 90) then ascii_of_nat (n + 32) else c.

Fixpoint toLowerCase (s : string) : string :=
  match s with
  | String c s' => String (lower_char c) (toLowerCase s')
  | EmptyString => EmptyString
  end.

Fixpoint starts_with (q s : string) : bool :=
  match q, s with
  | EmptyString, _ => true
  | String a q', String b s' => bool_decide (a = b) && starts_with q' s'
  | String _ _, EmptyString => false
  end.

(** [s.indexOf(q) >= 0] and [s.includes(q)] *)
Fixpoint includes (s q : string) : bool :=
  starts_with q s ||
  match s with
  | String _ s' => includes s' q
  | EmptyString => false
  end.

(** *** Search *)

Inductive SearchOutcome :=
  | Refilter                       (* empty query: [applyFilters()] *)
  | Show (ids : list string)       (* [makeNodeTrace(Array.from(neighborIds))] *)
  | Alert (msg : string).          (* [alert(...)], the plot is left as it was *)

(** [neighborIds]: the matched ids, then for every edge the end point opposite
    to a matched one.  Only membership in the set is ever observed. *)
Definition neighborIds (ids : list string) (edges : list Edge) : list string :=
  fold_left (fun acc ed =>
               let acc1 := if bool_decide (ed_source ed ∈ ids)
                           then acc ++ [ed_target ed] else acc in
               if bool_decide (ed_target ed ∈ ids)
               then acc1 ++ [ed_source ed] else acc1)
            edges ids.

(** The [keydown] handler of the Plotly dashboard, on Enter; [value] is the
    content of the search box. *)
Definition search (nodes : list Node) (edges : list Edge) (value : string) : SearchOutcome :=
  let q := toLowerCase (trim value) in
  if bool_decide (q = "") then Refilter
  else
    let found := List.filter (fun n => includes (toLowerCase (n_label n)) q) nodes in
    let ids := n_id <$> found in
    if nonempty ids then Show (neighborIds ids edges)
    else Alert ("No node found for: " +:+ q).

(** The nodes drawn once the handler has run; [drawn] are those drawn before. *)
Definition search_view (nodes : list Node) (edges : list Edge)
    (activeFactions : list string) (activeComms : list nat)
    (drawn : list Node) (value : string) : list Node :=
  match search nodes edges value with
  | Refilter => makeNodeTrace nodes (Some (applyFilters nodes activeFactions activeComms))
  | Show ids => makeNodeTrace nodes (Some ids)
  | Alert _ => drawn
  end.

Inductive VisSearchOutcome :=
  | VisNothing
  | VisAlert (msg : string)
  | VisFocus (id : string).        (* [network.focus(id)] and a temporary colour *)

(** The [keydown] handler of the vis-network page: it moves the camera to the
    first match and never changes which nodes are hidden. *)
Definition vis_search (nodes : list Node) (value : string) : VisSearchOutcome :=
  let q := toLowerCase (trim value) in
  if bool_decide (q = "") then VisNothing
  else
    match List.filter (fun n => includes (toLowerCase (n_label n)) q) nodes with
    | [] => VisAlert "No node"
    | n :: _ => VisFocus (n_id n)
    end.

(** The vis-network handler only calls [network.focus] and
    [nodes.update({id, color})]: the [hidden] flags stay as they were. *)
Definition vis_search_view (nodes shown : list Node) (value : string) : list Node :=
  match vis_search nodes value with
  | VisNothing | VisAlert _ | VisFocus _ => shown
  end.

(** *** Specification side *)

(** [q] occurs in [s] up to letter case. *)
Definition ci_substring (q s : string) : Prop :=
  ∃ pre mid post, s = pre +:+ mid +:+ post ∧ toLowerCase mid = toLowerCase q.

(** An edge joins the nodes with ids [a] and [b]. *)
Definition one_hop (edges : list Edge) (a b : string) : Prop :=
  ∃ ed, ed ∈ edges ∧
    ((ed_source ed = a ∧ ed_target ed = b) ∨ (ed_source ed = b ∧ ed_target ed = a)).

(** The node matches the query or is one hop away from a node that does. *)
Definition match_or_neighbor (nodes : list Node) (edges : list Edge) (q : string)
    (n : Node) : Prop :=
  ci_substring q (n_label n) ∨
  ∃ m, m ∈ nodes ∧ ci_substring q (n_label m) ∧ one_hop edges (n_id m) (n_id n).

(** The facet rule of the contract. *)
Definition facet_rule (activeFactions : list string) (activeComms : list nat)
    (n : Node) : Prop :=
  (activeFactions = [] ∨ n_faction n ∈ activeFactions) ∧
  (activeComms = [] ∨ ∃ c, c ∈ n_communities n ∧ c ∈ activeComms).

(** What the two search handlers do with the content [value] of the box. *)
Definition search_behaviour (nodes : list Node) (edges : list Edge) (value : string) : Prop :=
  match search nodes edges value with
  | Refilter => trim value = ""
  | Alert msg =>
      trim value ≠ "" ∧
      msg = "No node found for: " +:+ toLowerCase (trim value) ∧
      ∀ n, n ∈ nodes → ¬ ci_substring (trim value) (n_label n)
  | Show ids =>
      trim value ≠ "" ∧
      (∃ n, n ∈ nodes ∧ ci_substring (trim value) (n_label n)) ∧
      ∀ n, n ∈ nodes →
           (n ∈ makeNodeTrace nodes (Some ids) ↔
            match_or_neighbor nodes edges (trim value) n)
  end ∧
  match vis_search nodes value with
  | VisNothing => trim value = ""
  | VisAlert _ =>
      trim value ≠ "" ∧ ∀ n, n ∈ nodes → ¬ ci_substring (trim value) (n_label n)
  | VisFocus id =>
      trim value ≠ "" ∧
      ∃ pre n post, nodes = pre ++ n :: post ∧ n_id n = id ∧
                    ci_substring (trim value) (n_label n) ∧
                    ∀ m, m ∈ pre → ¬ ci_substring (trim value) (n_label m)
  end ∧
  ∀ shown, vis_search_view nodes shown value = shown.

(** *** Sample nodes *)

(** Two unrelated nodes; only the second belongs to a community. *)
Definition sample_nodes : list Node :=
  [ {| n_id := "A"; n_label := "ab"; n_faction := "Red"; n_communities := [] |};
    {| n_id := "B"; n_label := "cd"; n_faction := "Red"; n_communities := [0] |} ].

(** The node X of the contract's example, with a neighbour and a stranger. *)
Definition contract_nodes : list Node :=
  [ {| n_id := "X"; n_label := "Vandiya Devan"; n_faction := "Red";
       n_communities := [0] |};
    {| n_id := "Y"; n_label := "Kundavai"; n_faction := "Blue";
       n_communities := [0; 1] |};
    {| n_id := "Z"; n_label := "Nandini"; n_faction := "Blue";
       n_communities := [] |} ].

Definition contract_edges : list Edge :=
  [ {| ed_source := "X"; ed_target := "Y" |} ].

(** ** ViewModelExporter: memberships, palettes and exported nodes *)

(** [node_comm.setdefault(n, []).append(cid)] *)
Definition setdefault_append (m : gmap string (list nat)) (n : string) (cid : nat)
  : gmap string (list nat) :=
  <[n := default [] (m !! n) ++ [cid]]> m.

(** The inner loop [for n in comm]. *)
Definition add_community (m : gmap string (list nat)) (cid : nat) (comm : list string)
  : gmap string (list nat) :=
  fold_left (fun m n => setdefault_append m n cid) comm m.

(** [for cid, comm in enumerate(communities)], counting from [cid]. *)
Fixpoint node_comm_from (cid : nat) (communities : list (list string))
    (m : gmap string (list nat)) : gmap string (list nat) :=
  match communities with
  | [] => m
  | comm :: rest => node_comm_from (S cid) rest (add_community m cid comm)
  end.

(** The node -> community ids dictionary built by [save_communities],
    [make_plotly_html], [build_node_edge_json] and [prepare_json]; each
    community is given by the iteration order of its set. *)
Definition node_comm_map (communities : list (list string)) : gmap string (list nat) :=
  node_comm_from 0 communities ∅.

(** The ids of the communities of [cs], numbered from [start], that hold [n]. *)
Fixpoint cids_from (start : nat) (cs : list (list string)) (n : string) : list nat :=
  match cs with
  | [] => []
  | c :: cs' =>
      (if bool_decide (n ∈ c) then [start] else []) ++ cids_from (S start) cs' n
  end.

(** run_plotly_network.py, [color_palette]; [base] stands for
    [px.colors.qualitative.Plotly].  [None] where Python raises. *)
Definition color_palette (base : list string) (n : nat) : option (list string) :=
  if n <=? length base then Some (take n base)
  else mapM (fun i => base !! (i mod length base)) (seq 0 n).

(** run_plotly_network.py, the colour of a node in [make_plotly_html]:
    the colour of its first community, else the colour of its faction, else
    grey.  [None] where Python raises. *)
Definition plotly_node_color (base : list string) (communities : list (list string))
    (faction_cols : gmap string string) (faction : string) (n : string) : option string :=
  comm_colors ← color_palette base (max 1 (length communities));
  match default [] (node_comm_map communities !! n) with
  | primary :: _ =>
      if bool_decide (length comm_colors = 0) then None
      else comm_colors !! (primary mod length comm_colors)
  | [] => Some (default "#B0B0B0" (faction_cols !! faction))
  end.

(** [n.replace("_", " ")] *)
Fixpoint replace_underscore (s : string) : string :=
  match s with
  | String c s' =>
      String (if bool_decide (c = "_"%char) then " "%char else c) (replace_underscore s')
  | EmptyString => EmptyString
  end.

(** One entry of [nodes] in [build_node_edge_json] and [prepare_json],
    restricted to the fields the filter and search handlers read. *)
Definition export_node (fm : gmap string string) (nc : gmap string (list nat))
    (n : string) : Node :=
  {| n_id := n;
     n_label := replace_underscore n;
     n_faction := default "Unknown" (fm !! n);
     n_communities := default [] (nc !! n) |}.

(** The exported node list; [ns] is the sequence [G.nodes()]. *)
Definition export_nodes (ns : list string) (chars : option (list Character))
    (communities : list (list string)) : list Node :=
  export_node (faction_map chars) (node_comm_map communities) <$> ns.

(** [sorted(list({...}))] on strings: the distinct values in increasing
    order (Python compares strings by code point, which is the byte order of
    their UTF-8 encoding). *)
Definition sorted_set (l : list string) : list string :=
  merge_sort String.le (remove_dups l).

(** [factions = sorted(list({n['faction'] for n in nodes}))] *)
Definition export_factions (nodes : list Node) : list string :=
  sorted_set (n_faction <$> nodes).

(** The palettes of the Plotly dashboard (HTML_TEMPLATE). *)
Definition colorPalette : list string :=
  ["#636EFA"; "#EF553B"; "#00CC96"; "#AB63FA"; "#FFA15A";
   "#19D3F3"; "#FF6692"; "#B6E880"; "#FF97FF"; "#FECB52"].

Definition factionColors : list string :=
  ["#4C9F70"; "#2F8AC8"; "#C85A7A"; "#8C6EFF"; "#E99E3A"; "#6FB7E6"].

(** [arr.indexOf(x)]; [None] is -1. *)
Fixpoint indexOf (l : list string) (x : string) : option nat :=
  match l with
  | [] => None
  | y :: l' => if bool_decide (y = x) then Some 0 else S <$> indexOf l' x
  end.

(** The colour chosen by [makeNodeTrace] in the Plotly dashboard. *)
Definition trace_color (factions_list : list string) (n : Node) : string :=
  match n_communities n with
  | c :: _ => colorPalette !!! (c mod length colorPalette)
  | [] =>
      match indexOf factions_list (n_faction n) with
      | Some fidx => factionColors !!! (fidx mod length factionColors)
      | None => "#B0B0B0"
      end
  end.

(** export_vis_draggable.py *)
Definition FACTION_COLORS : list string :=
  ["#1f77b4"; "#ff7f0e"; "#2ca02c"; "#d62728"; "#9467bd";
   "#8c564b"; "#e377c2"; "#7f7f7f"; "#bcbd22"; "#17becf"].

(** [for i, f in enumerate(all_factions): faction_to_color[f] = ...] *)
Fixpoint faction_to_color_from (i : nat) (fs : list string) (m : gmap string string)
  : gmap string string :=
  match fs with
  | [] => m
  | f :: fs' =>
      faction_to_color_from (S i) fs'
        (<[f := FACTION_COLORS !!! (i mod length FACTION_COLORS)]> m)
  end.

(** [all_factions] of [prepare_json]; [ns] is the sequence [G.nodes()]. *)
Definition all_factions (fm : gmap string string) (ns : list string) : list string :=
  sorted_set ((fun n => default "Unknown" (fm !! n)) <$> ns).

(** The background colour given to node [n] by [prepare_json]. *)
Definition vis_background (fm : gmap string string) (ns : list string) (n : string) : string :=
  default "#B0B0B0"
    (faction_to_color_from 0 (all_factions fm ns) ∅ !! default "Unknown" (fm !! n)).

(** The character [c] occurs in [s]. *)
Fixpoint has_char (c : ascii) (s : string) : bool :=
  match s with
  | String a s' => bool_decide (a = c) || has_char c s'
  | EmptyString => false
  end.

(** *** [parseInt] *)

(** The value of a character as a digit, in any radix up to 36. *)
Definition digit_of (c : ascii) : option N :=
  let n := N_of_ascii c in
  if ((48 <=? n) && (n <=? 57))%N then Some (n - 48)%N
  else if ((97 <=? n) && (n <=? 122))%N then Some (n - 87)%N
  else if ((65 <=? n) && (n <=? 90))%N then Some (n - 55)%N
  else None.

(** The longest prefix of digits of the radix; [None] when it is empty. *)
Fixpoint parse_digits (radix : N) (acc : option N) (s : string) : option N :=
  match s with
  | String c s' =>
      match digit_of c with
      | Some d =>
          if (d <? radix)%N
          then parse_digits radix (Some (radix * default 0%N acc + d)%N) s'
          else acc
      | None => acc
      end
  | EmptyString => acc
  end.

(** [parseInt(s)] without a radix: leading white space, a sign, an optional
    [0x] prefix, then digits; [None] is NaN.  The result is the integer
    denoted; JavaScript returns it exactly when it is below 2^53. *)
Definition parseInt (s : string) : option Z :=
  let s1 := trim_start s in
  let signed :=
    match s1 with
    | String c r =>
        if bool_decide (c = "-"%char) then (true, r)
        else if bool_decide (c = "+"%char) then (false, r)
        else (false, s1)
    | EmptyString => (false, s1)
    end in
  let prefixed :=
    match signed.2 with
    | String c0 (String c1 r) =>
        if bool_decide (c0 = "0"%char) &&
           (bool_decide (c1 = "x"%char) || bool_decide (c1 = "X"%char))
        then (16%N, r) else (10%N, signed.2)
    | _ => (10%N, signed.2)
    end in
  match parse_digits prefixed.1 None prefixed.2 with
  | Some n => Some (if signed.1 then (- Z.of_N n)%Z else Z.of_N n)
  | None => None
  end.


(** ** Reporter: the saved tables and the hulls *)

(** The rows [{"community_id": cid, "member": node}] of [save_communities],
    for the communities numbered from [cid]. *)
Fixpoint community_rows_from (cid : nat) (communities : list (list string))
  : list (nat * string) :=
  match communities with
  | [] => []
  | comm :: rest =>
      ((fun node => (cid, node)) <$> comm) ++ community_rows_from (S cid) rest
  end.

(** run_cpm_visualize.py, [save_communities]: the rows of the community
    table and the rows of the node table (node, its list of community ids;
    the file holds the [str] of that list). *)
Definition save_communities (communities : list (list string))
  : list (nat * string) * list (string * list nat) :=
  let node_map := node_comm_map communities in
  (community_rows_from 0 communities,
   (fun n => (n, default [] (node_map !! n)))
     <$> sorted_set (fst <$> map_to_list node_map)).

(** run_cpm_visualize.py, [_convex_hull]. *)
Definition point : Type := float * float.

Definition cross (o a b : point) : float :=
  ((a.1 - o.1) * (b.2 - o.2) - (a.2 - o.2) * (b.1 - o.1))%float.

(** [while len(lower) >= 2 and cross(lower[-2], lower[-1], p) <= 0:
    lower.pop()]; the Python list is kept with its last element first. *)
Fixpoint pop_while (stack : list point) (p : point) : list point :=
  match stack with
  | a :: (o :: _) as rest =>
      if PrimFloat.leb (cross o a p) 0 then pop_while rest p else stack
  | _ => stack
  end.

(** One of the two loops [for p in pts: ...; lower.append(p)]; the result
    has the last element of the Python list first. *)
Definition chain (pts : list point) : list point :=
  fold_left (fun stack p => p :: pop_while stack p) pts [].

(** The body of [_convex_hull] after [pts = sorted(set(pts))]: [pts] is the
    sorted list of the distinct points. *)
Definition convex_hull (pts : list point) : list point :=
  if length pts <=? 2 then pts
  else reverse (tail (chain pts)) ++ reverse (tail (chain (reverse pts))).
(** * Proofs *)
(** ** Graph primitives *)

Lemma has_edge_weight (G : Graph) u v :
  has_edge G u v = true ↔ is_Some (edge_weight G u v).
Proof.
  unfold has_edge, edge_weight. destruct (G !! u) as [nbrs|]; simpl.
  - by rewrite bool_decide_eq_true.
  - split; [done | by intros [? ?]].
Qed.

Lemma has_edge_false (G : Graph) u v :
  has_edge G u v = false ↔ edge_weight G u v = None.
Proof.
  rewrite <- not_true_iff_false, has_edge_weight, eq_None_not_Some. done.
Qed.

Lemma edge_weight_neighbors (G : Graph) u v :
  edge_weight G u v = neighbors G u !! v.
Proof. unfold edge_weight, neighbors. by destruct (G !! u). Qed.

Lemma edge_weight_set_weight (G : Graph) a b w u v :
  edge_weight (set_weight G a b w) u v =
  if bool_decide ((a = u ∧ b = v) ∨ (a = v ∧ b = u)) then Some w
  else edge_weight G u v.
Proof.
  rewrite !edge_weight_neighbors. unfold set_weight, neighbors.
  destruct (decide (u = b)) as [->|Hub].
  - rewrite lookup_insert_eq. simpl.
    destruct (decide (v = a)) as [->|Hva].
    + rewrite lookup_insert_eq. rewrite bool_decide_eq_true_2; [done | by right].
    + rewrite lookup_insert_ne by done.
      destruct (decide (a = b)) as [->|Hab].
      * rewrite lookup_insert_eq. simpl. rewrite lookup_insert_ne by done.
        rewrite bool_decide_eq_false_2; [done | naive_solver].
      * rewrite lookup_insert_ne by done.
        rewrite bool_decide_eq_false_2; [done | naive_solver].
  - rewrite (lookup_insert_ne _ b u) by done.
    destruct (decide (u = a)) as [->|Hua].
    + rewrite lookup_insert_eq. simpl.
      destruct (decide (v = b)) as [->|Hvb].
      * rewrite lookup_insert_eq. rewrite bool_decide_eq_true_2; [done | by left].
      * rewrite lookup_insert_ne by done.
        rewrite bool_decide_eq_false_2; [done | naive_solver].
    + rewrite lookup_insert_ne by done.
      rewrite bool_decide_eq_false_2; [done | naive_solver].
Qed.

Lemma nodes_set_weight (G : Graph) a b w :
  nodes (set_weight G a b w) = {[a; b]} ∪ nodes G.
Proof. unfold nodes, set_weight. rewrite !dom_insert_L. set_solver. Qed.

Lemma edge_weight_add_node (G : Graph) x u v :
  edge_weight (add_node G x) u v = edge_weight G u v.
Proof.
  unfold add_node. destruct (G !! x) eqn:Hx; [done|].
  unfold edge_weight. destruct (decide (u = x)) as [->|Hne].
  - rewrite lookup_insert_eq, Hx. done.
  - by rewrite lookup_insert_ne.
Qed.

Lemma nodes_add_node (G : Graph) x : nodes (add_node G x) = {[x]} ∪ nodes G.
Proof.
  unfold nodes, add_node. destruct (G !! x) eqn:Hx.
  - apply elem_of_dom_2 in Hx. set_solver.
  - by rewrite dom_insert_L.
Qed.

Lemma edge_weight_add_edge (G : Graph) a b w u v :
  edge_weight (add_edge G a b w) u v =
  if bool_decide ((a = u ∧ b = v) ∨ (a = v ∧ b = u)) then Some w
  else edge_weight G u v.
Proof.
  unfold add_edge. by rewrite edge_weight_set_weight, !edge_weight_add_node.
Qed.

Lemma nodes_add_edge (G : Graph) a b w :
  nodes (add_edge G a b w) = {[a; b]} ∪ nodes G.
Proof.
  unfold add_edge. rewrite nodes_set_weight, !nodes_add_node. set_solver.
Qed.

Lemma edge_weight_is_node (G : Graph) u v :
  is_Some (edge_weight G u v) → u ∈ nodes G.
Proof.
  unfold edge_weight, nodes. intros [w Hw]. apply elem_of_dom.
  destruct (G !! u); [eauto | done].
Qed.

(** ** One iteration of the builder's loop *)

Lemma connects_sym u v e : connects u v e = connects v u e.
Proof. unfold connects. apply bool_decide_ext. naive_solver. Qed.

Lemma edge_weight_add_record t (G : Graph) e u v :
  undirected G →
  edge_weight (add_record t G e) u v =
  if survives t e && connects u v e
  then accumulate (edge_weight G u v) (e_weight e)
  else edge_weight G u v.
Proof.
  intros Hsym. unfold add_record, survives.
  destruct (geb (e_weight e) t); simpl; [|done].
  assert (Hpair : connects u v e = true →
                  edge_weight G u v = edge_weight G (e_source e) (e_target e)).
  { unfold connects. rewrite bool_decide_eq_true.
    intros [[-> ->]|[-> ->]]; [done | apply Hsym]. }
  destruct (has_edge G (e_source e) (e_target e)) eqn:He.
  - apply has_edge_weight in He as [x Hx]. unfold incr_weight. rewrite Hx.
    rewrite edge_weight_set_weight. fold (connects u v e).
    destruct (connects u v e); [|done].
    rewrite Hpair, Hx by done. done.
  - apply has_edge_false in He. rewrite edge_weight_add_edge.
    fold (connects u v e). destruct (connects u v e); [|done].
    rewrite Hpair, He by done. done.
Qed.

Lemma undirected_empty : undirected ∅.
Proof. intros u v. unfold edge_weight. by rewrite !lookup_empty. Qed.

Lemma undirected_add_record t (G : Graph) e :
  undirected G → undirected (add_record t G e).
Proof.
  intros Hsym u v. rewrite !edge_weight_add_record by done.
  rewrite (connects_sym v u), (Hsym v u). done.
Qed.

Lemma nodes_add_record t (G : Graph) e :
  nodes (add_record t G e) =
  (if survives t e then {[e_source e; e_target e]} else ∅) ∪ nodes G.
Proof.
  unfold add_record, survives. destruct (geb (e_weight e) t); [|set_solver].
  destruct (has_edge G (e_source e) (e_target e)) eqn:He.
  - apply has_edge_weight in He as [x Hx]. unfold incr_weight. rewrite Hx.
    apply nodes_set_weight.
  - apply nodes_add_edge.
Qed.

(** ** The whole loop *)

Lemma undirected_fold t es (G : Graph) :
  undirected G → undirected (fold_left (add_record t) es G).
Proof.
  revert G. induction es as [|e es IH]; intros G HG; simpl; [done|].
  apply IH. by apply undirected_add_record.
Qed.

Lemma edge_weight_fold t es (G : Graph) u v :
  undirected G →
  edge_weight (fold_left (add_record t) es G) u v =
  fold_left accumulate (qualifying t u v es) (edge_weight G u v).
Proof.
  revert G. induction es as [|e es IH]; intros G HG; simpl; [done|].
  rewrite IH by (by apply undirected_add_record).
  rewrite edge_weight_add_record by done.
  unfold qualifying. simpl.
  destruct (survives t e && connects u v e); done.
Qed.

Lemma nodes_fold t es (G : Graph) n :
  n ∈ nodes (fold_left (add_record t) es G) ↔
  n ∈ nodes G ∨
  ∃ e, e ∈ es ∧ survives t e = true ∧ (n = e_source e ∨ n = e_target e).
Proof.
  revert G. induction es as [|e es IH]; intros G; simpl.
  - split; [auto | intros [?|(e & He & _)]; [done | by apply elem_of_nil in He]].
  - rewrite IH, nodes_add_record. split.
    + intros [Hn|(e' & He' & Hs & Hn)].
      * apply elem_of_union in Hn as [Hn|Hn]; [|by left].
        destruct (survives t e) eqn:Hs; [|set_solver].
        right. exists e. split; [apply elem_of_cons; by left|]. set_solver.
      * right. exists e'. split; [apply elem_of_cons; by right | done].
    + intros [Hn|(e' & He' & Hs & Hn)].
      * left. set_solver.
      * apply elem_of_cons in He' as [->|He'].
        -- left. rewrite Hs. set_solver.
        -- right. eauto.
Qed.


Lemma build_loop_records t rs (G : Graph) :
  build_loop t rs G =
  es ← mapM_result row_record rs; Ok (fold_left (add_record t) es G).
Proof.
  revert G. induction rs as [|r rs IH]; intros G; simpl; [done|].
  destruct (row_record r) as [e|x]; simpl; [|done].
  rewrite IH. destruct (mapM_result row_record rs); done.
Qed.

Lemma build_graph_records df t es :
  records df = Ok es →
  build_graph df t = Ok (fold_left (add_record t) es ∅).
Proof.
  unfold records, build_graph. intros Hes. by rewrite build_loop_records, Hes.
Qed.

(** Every graph the builder returns is undirected. *)
Lemma build_graph_undirected df t (G : Graph) :
  build_graph df t = Ok G → undirected G.
Proof.
  unfold build_graph. rewrite build_loop_records.
  destruct (mapM_result row_record (rows df)) as [es|]; simpl; [|done].
  intros [= <-]. apply undirected_fold, undirected_empty.
Qed.

(** Every sequence of records is the content of some table. *)
Lemma records_frame_of_records es : records (frame_of_records es) = Ok es.
Proof.
  unfold records, frame_of_records. simpl.
  induction es as [|[s t w] es IH]; [done|].
  rewrite fmap_cons. cbn [mapM_result]. rewrite IH. done.
Qed.

(** ** Floating-point comparison with NaN *)

Lemma geb_nan t : geb nan t = false.
Proof.
  unfold geb. rewrite leb_spec.
  replace (Prim2SF nan) with S754_nan by (vm_compute; reflexivity).
  unfold SFleb, SFcompare. destruct (Prim2SF t) as [| | |[] m e]; reflexivity.
Qed.

Lemma accumulate_is_Some ws acc :
  (is_Some acc ∨ ws ≠ []) → is_Some (fold_left accumulate ws acc).
Proof.
  revert acc. induction ws as [|w ws IH]; intros acc H; simpl.
  - destruct H; done.
  - apply IH. left. unfold accumulate. eauto.
Qed.

(** ** GraphBuilder: the claims *)

(** C1. The weight stored for an unordered pair is the left-to-right sum of
    the weights of exactly those records joining the pair whose own weight is
    at least the threshold; when there is none the pair has no edge. *)
Theorem aggregated_weight_is_sum df t es :
  records df = Ok es →
  ∃ G, build_graph df t = Ok G ∧
       ∀ u v, edge_weight G u v = weight_sum (qualifying t u v es).
Proof.
  intros Hes. eexists. split; [by apply build_graph_records|].
  intros u v. rewrite edge_weight_fold by apply undirected_empty.
  unfold weight_sum, edge_weight. by rewrite lookup_empty.
Qed.

Lemma aggregated_weight_is_sum_witness :
  ∃ G, build_graph repeated_df 4 = Ok G ∧
       ∀ u v, edge_weight G u v = weight_sum (qualifying 4 u v repeated_records).
Proof.
  apply (aggregated_weight_is_sum repeated_df 4 repeated_records).
  vm_compute. reflexivity.
Defined.

Example repeated_df_weights :
  ∃ G, build_graph repeated_df 4 = Ok G ∧
       edge_weight G "A" "B" = Some 11.5%float ∧
       edge_weight G "B" "A" = Some 11.5%float ∧
       edge_weight G "B" "C" = Some 4%float ∧
       edge_weight G "C" "C" = Some 11.5%float ∧
       edge_weight G "A" "C" = None ∧
       number_of_nodes G = 3 ∧ number_of_edges G = 3.
Proof. eexists. split; [vm_compute; reflexivity|]. vm_compute. done. Qed.



Example single_low_df_empty :
  build_graph single_low_df 4 = Ok ∅ ∧
  ∀ k, detect_communities ∅ k = [].
Proof. split; [vm_compute; reflexivity | done]. Qed.

(** C10. A record whose two ends coincide and whose weight passes the
    threshold is kept: its node is in the graph and carries a self-loop whose
    weight is the aggregate of the qualifying self-loop records. *)
Theorem self_loop_retained df t es e :
  records df = Ok es →
  e ∈ es →
  e_source e = e_target e →
  survives t e = true →
  ∃ G w, build_graph df t = Ok G ∧
         e_source e ∈ nodes G ∧
         has_edge G (e_source e) (e_source e) = true ∧
         edge_weight G (e_source e) (e_source e) = Some w ∧
         weight_sum (qualifying t (e_source e) (e_source e) es) = Some w.
Proof.
  intros Hes He Hloop Hs.
  assert (Hsum : is_Some (weight_sum (qualifying t (e_source e) (e_source e) es))).
  { apply accumulate_is_Some. right. unfold qualifying.
    intros Hnil. apply fmap_nil_inv in Hnil.
    assert (Hin : In e (List.filter
              (λ e0, survives t e0 && connects (e_source e) (e_source e) e0) es)).
    { apply filter_In. split; [by apply list_elem_of_In|].
      rewrite Hs. simpl. unfold connects. apply bool_decide_eq_true. left. done. }
    rewrite Hnil in Hin. done. }
  destruct Hsum as [w Hw].
  assert (HG : edge_weight (fold_left (add_record t) es ∅) (e_source e) (e_source e)
               = Some w).
  { rewrite edge_weight_fold by apply undirected_empty.
    unfold weight_sum in Hw. unfold edge_weight at 1. by rewrite lookup_empty. }
  exists (fold_left (add_record t) es ∅), w.
  split; [by apply build_graph_records|].
  split; [apply (edge_weight_is_node _ _ (e_source e)); rewrite HG; eauto|].
  split; [apply has_edge_weight; rewrite HG; eauto|]. done.
Qed.

Lemma self_loop_retained_witness :
  ∃ G w, build_graph repeated_df 4 = Ok G ∧
         "C" ∈ nodes G ∧
         has_edge G "C" "C" = true ∧
         edge_weight G "C" "C" = Some w ∧
         weight_sum (qualifying 4 "C" "C" repeated_records) = Some w.
Proof.
  apply (self_loop_retained repeated_df 4 repeated_records (Build_EdgeRecord "C" "C" 7)).
  - vm_compute. reflexivity.
  - unfold repeated_records. set_solver.
  - reflexivity.
  - vm_compute. reflexivity.
Defined.

(** ** Reading the edge table *)

Lemma wf_row_lookup df r c :
  df_wf df → r ∈ rows df → (is_Some (r !! c) ↔ c ∈ columns df).
Proof.
  intros Hwf Hr. unfold df_wf in Hwf. rewrite Forall_forall in Hwf.
  specialize (Hwf r Hr). rewrite <- elem_of_dom, Hwf. apply elem_of_list_to_set.
Qed.

Lemma py_float_astype_float64 c : py_float (astype_float64 c) = py_float c.
Proof. unfold astype_float64. by destruct (py_dtype c). Qed.

Lemma values_cases rs :
  values rs = rs ∨
  values rs = (fun r : gmap string cell => astype_float64 <$> r) <$> rs.
Proof.
  unfold values. destruct (all_cells numeric rs && some_cell is_float64 rs); auto.
Qed.

Lemma length_values rs : length (values rs) = length rs.
Proof. destruct (values_cases rs) as [->| ->]; [done | by rewrite length_fmap]. Qed.

(** The rows of [df.values] have the keys of the rows of [df], and every cell
    converts to the same float. *)
Lemma values_Forall (P : gmap string cell → Prop) rs :
  (∀ r, P r → P (astype_float64 <$> r)) →
  Forall P rs → Forall P (values rs).
Proof.
  intros HP Hrs. destruct (values_cases rs) as [->| ->]; [done|].
  apply Forall_fmap. eapply Forall_impl; [exact Hrs|]. intros r Hr. by apply HP.
Qed.

Lemma elem_of_values r rs c :
  r ∈ values rs →
  ∃ r0 x, r0 ∈ rs ∧ (r !! c = x <$> r0 !! c) ∧ (∀ y, py_float (x y) = py_float y).
Proof.
  destruct (values_cases rs) as [->| ->].
  - intros Hr. exists r, id. split; [done|]. split; [|done].
    by destruct (r !! c).
  - intros Hr. apply list_elem_of_fmap in Hr as (r0 & -> & Hr0).
    exists r0, astype_float64. split; [done|]. split.
    + by rewrite lookup_fmap.
    + apply py_float_astype_float64.
Qed.

Lemma unit_row_astype r : unit_row r → unit_row (astype_float64 <$> r).
Proof.
  intros ([cu Hu] & [cv Hv] & c & Hc & Hf). unfold unit_row.
  rewrite !lookup_fmap, Hu, Hv, Hc. simpl.
  split; [eauto|]. split; [eauto|]. eexists. split; [done|].
  by rewrite py_float_astype_float64.
Qed.

Lemma row_record_unit r : unit_row r → row_record r = Ok (unit_record r).
Proof.
  intros ([cu Hu] & [cv Hv] & c & Hc & Hf).
  unfold row_record, unit_record, getitem, get.
  rewrite Hu, Hv, Hc. simpl. unfold float_of. by rewrite Hf.
Qed.

Lemma mapM_row_record_unit rs :
  Forall unit_row rs → mapM_result row_record rs = Ok (unit_record <$> rs).
Proof.
  induction 1 as [|r rs Hr _ IH]; [done|].
  rewrite fmap_cons. cbn [mapM_result]. by rewrite row_record_unit, IH.
Qed.

Lemma records_set_weight_column df c :
  df_wf df → "source" ∈ columns df → "target" ∈ columns df →
  py_float c = Some 1%float →
  records (set_column "weight" c df)
  = Ok (unit_record <$> rows (set_column "weight" c df)) ∧
  length (rows (set_column "weight" c df)) = length (rows df).
Proof.
  intros Hwf Hs Ht Hc. unfold records, set_column. cbn [rows].
  split; [|by rewrite length_values, length_fmap].
  apply mapM_row_record_unit, values_Forall; [apply unit_row_astype|].
  apply Forall_fmap, Forall_forall. intros r Hr. unfold unit_row. simpl.
  rewrite (lookup_insert_ne _ "weight" "source"), (lookup_insert_ne _ "weight" "target")
    by done.
  rewrite lookup_insert_eq.
  split; [by apply (wf_row_lookup df)|]. split; [by apply (wf_row_lookup df)|].
  eauto.
Qed.

Lemma row_record_empty_weight r :
  is_Some (r !! "source") → is_Some (r !! "target") →
  r !! "weight" = Some empty_cell →
  ∃ e, row_record r = Ok e ∧ e_weight e = nan.
Proof.
  intros [cu Hu] [cv Hv] Hw. unfold row_record, getitem, get.
  rewrite Hu, Hv, Hw. simpl. eauto.
Qed.

Lemma add_record_nan t (G : Graph) e : e_weight e = nan → add_record t G e = G.
Proof. intros Hw. unfold add_record. by rewrite Hw, geb_nan. Qed.

Lemma build_loop_skip_empty_weight t rs1 r rs2 (G : Graph) :
  is_Some (r !! "source") → is_Some (r !! "target") →
  r !! "weight" = Some empty_cell →
  build_loop t (rs1 ++ r :: rs2) G = build_loop t (rs1 ++ rs2) G.
Proof.
  intros Hs Ht Hw. revert G. induction rs1 as [|r1 rs1 IH]; intros G; simpl.
  - destruct (row_record_empty_weight r) as (e & -> & He); [done..|]. simpl.
    by rewrite add_record_nan.
  - destruct (row_record r1); simpl; [apply IH | done].
Qed.

(** C8 (as the code has it). Without a weight column every record is read
    with weight 1.0 and nothing is raised, by either reader: the records are
    those of the rows of the frame once the column is added, one per row.
    With the column present, a record whose weight is empty raises nothing
    either: the builder returns what it returns for the table without that
    record. *)
Theorem weight_absent_or_empty :
  (∀ df t,
     df_wf df → "source" ∈ columns df → "target" ∈ columns df →
     "weight" ∉ columns df →
     (records (read_inputs df) = Ok (unit_record <$> rows (read_inputs df)) ∧
      length (rows (read_inputs df)) = length (rows df) ∧
      run_export df t
        = Ok (fold_left (add_record t) (unit_record <$> rows (read_inputs df)) ∅)) ∧
     (∃ df', read_data df = Ok df' ∧
             records df' = Ok (unit_record <$> rows df') ∧
             length (rows df') = length (rows df) ∧
             run_cpm_visualize df t
               = Ok (fold_left (add_record t) (unit_record <$> rows df') ∅))) ∧
  (∀ r, e_weight (unit_record r) = 1%float) ∧
  (∀ cols rs1 r rs2 t,
     is_Some (r !! "source") → is_Some (r !! "target") →
     r !! "weight" = Some empty_cell →
     build_graph {| columns := cols; rows := rs1 ++ r :: rs2 |} t
       = build_graph {| columns := cols; rows := rs1 ++ rs2 |} t).
Proof.
  split; [|split; [done|]].
  - intros df t Hwf Hs Ht Hw. split.
    + unfold run_export, read_inputs. rewrite bool_decide_eq_false_2 by done.
      destruct (records_set_weight_column df (num "1.0" 1) Hwf Hs Ht eq_refl)
        as [Hrec Hlen].
      split; [done|]. split; [done|]. by apply build_graph_records.
    + exists (set_column "weight" (int_cell "1" "1.0" 1) df).
      destruct (records_set_weight_column df (int_cell "1" "1.0" 1) Hwf Hs Ht eq_refl)
        as [Hrec Hlen].
      assert (Hread : read_data df = Ok (set_column "weight" (int_cell "1" "1.0" 1) df)).
      { unfold read_data. rewrite bool_decide_eq_true_2 by done.
        by rewrite bool_decide_eq_false_2 by done. }
      split; [done|]. split; [done|]. split; [done|].
      unfold run_cpm_visualize. rewrite Hread. simpl.
      by apply build_graph_records.
  - intros cols rs1 r rs2 t Hs Ht Hw. unfold build_graph. simpl.
    by apply build_loop_skip_empty_weight.
Qed.

Lemma weight_absent_or_empty_witness :
  ((records (read_inputs unweighted_df)
    = Ok (unit_record <$> rows (read_inputs unweighted_df)) ∧
    length (rows (read_inputs unweighted_df)) = length (rows unweighted_df) ∧
    run_export unweighted_df 1%float
    = Ok (fold_left (add_record 1%float)
            (unit_record <$> rows (read_inputs unweighted_df)) ∅)) ∧
   (∃ df', read_data unweighted_df = Ok df' ∧
           records df' = Ok (unit_record <$> rows df') ∧
           length (rows df') = length (rows unweighted_df) ∧
           run_cpm_visualize unweighted_df 1%float
           = Ok (fold_left (add_record 1%float) (unit_record <$> rows df') ∅))) ∧
  build_graph (edge_frame ([] ++ edge_row "A" "B" empty_cell :: [])) 4%float
    = build_graph (edge_frame ([] ++ [])) 4%float.
Proof.
  split.
  - apply (proj1 weight_absent_or_empty unweighted_df 1%float).
    + repeat constructor; vm_compute; reflexivity.
    + set_solver.
    + set_solver.
    + apply not_elem_of_cons; split; [done|].
      apply not_elem_of_cons; split; [done|]. apply not_elem_of_nil.
  - apply (proj2 (proj2 weight_absent_or_empty)); [by eexists | by eexists | reflexivity].
Defined.

Example unweighted_df_weight :
  ∃ G, run_export unweighted_df 1%float = Ok G ∧ edge_weight G "A" "B" = Some 2%float.
Proof. eexists. split; vm_compute; reflexivity. Qed.

(** C8, as stated, fails: the only record has an empty weight under a present
    weight column, and both entry points finish without an error, the record
    having left no trace. *)
Lemma empty_weight_raises_nothing :
  run_export empty_weight_df 4%float = Ok ∅ ∧
  run_cpm_visualize empty_weight_df 4%float = Ok ∅.
Proof. split; vm_compute; reflexivity. Qed.

(** ** Missing required columns *)

(** [read_data] rejects the table before any graph exists. *)
Lemma read_data_missing_column df t :
  "source" ∉ columns df ∨ "target" ∉ columns df →
  run_cpm_visualize df t
    = Raise (ValueError "must contain columns: source,target[,weight]").
Proof.
  intros H. unfold run_cpm_visualize, read_data.
  rewrite bool_decide_eq_false_2; [done | tauto].
Qed.

Lemma read_inputs_rows_lookup df r c :
  c ≠ "weight" → r ∈ rows (read_inputs df) →
  ∃ r0, r0 ∈ rows df ∧ (is_Some (r !! c) ↔ is_Some (r0 !! c)).
Proof.
  intros Hc. unfold read_inputs. case_bool_decide; [eauto|]. cbn [set_column rows].
  intros Hr. destruct (elem_of_values r _ c Hr) as (r1 & x & Hr1 & Hlook & _).
  apply list_elem_of_fmap in Hr1 as (r0 & -> & Hr0).
  exists r0. split; [done|]. rewrite Hlook, lookup_insert_ne by done.
  by rewrite fmap_is_Some.
Qed.

(** Without the check, the first data row raises [KeyError] before the graph
    is touched. *)
Lemma run_export_missing_column df t :
  df_wf df → rows df ≠ [] →
  "source" ∉ columns df ∨ "target" ∉ columns df →
  ∃ c, run_export df t = Raise (KeyError c).
Proof.
  intros Hwf Hrows Hmiss. unfold run_export, build_graph.
  destruct (rows (read_inputs df)) as [|r rs] eqn:Hrs.
  { exfalso. apply Hrows. apply (f_equal length) in Hrs. revert Hrs.
    unfold read_inputs. case_bool_decide; [by destruct (rows df)|].
    cbn [set_column rows]. rewrite length_values, length_fmap.
    by destruct (rows df). }
  assert (Hr : r ∈ rows (read_inputs df)) by (rewrite Hrs; apply elem_of_cons; by left).
  simpl. unfold row_record, getitem.
  destruct (read_inputs_rows_lookup df r "source") as (r0 & Hr0 & Hs0); [done..|].
  destruct (read_inputs_rows_lookup df r "target") as (r1 & Hr1 & Ht1); [done..|].
  destruct (r !! "source") as [cu|] eqn:Hs; simpl; [|eauto].
  destruct (r !! "target") as [cv|] eqn:Ht; simpl; [|eauto].
  exfalso. destruct Hmiss as [Hm|Hm]; apply Hm.
  - apply (wf_row_lookup df r0); [done..|]. apply Hs0. eauto.
  - apply (wf_row_lookup df r1); [done..|]. apply Ht1. eauto.
Qed.

Example no_target_df_raises :
  run_export no_target_df 4%float = Raise (KeyError "target").
Proof. vm_compute. reflexivity. Qed.

(** C7, the failing input. The header lacks [source] and [target] and there
    is no data row: [read_inputs] and [build_graph] go through, the run ends
    normally with an empty graph, whereas [read_data] rejects the same table. *)
Theorem header_only_is_accepted :
  ("source" ∉ columns header_only_df) ∧ ("target" ∉ columns header_only_df) ∧
  (∀ t, run_export header_only_df t = Ok ∅) ∧
  (∀ t, run_cpm_visualize header_only_df t
        = Raise (ValueError "must contain columns: source,target[,weight]")).
Proof.
  assert (Hs : "source" ∉ columns header_only_df).
  { unfold header_only_df. simpl. rewrite !not_elem_of_cons.
    repeat split; try done. apply not_elem_of_nil. }
  assert (Ht : "target" ∉ columns header_only_df).
  { unfold header_only_df. simpl. rewrite !not_elem_of_cons.
    repeat split; try done. apply not_elem_of_nil. }
  split; [done|]. split; [done|]. split; [done|].
  intros t. apply read_data_missing_column. by left.
Qed.

(** ** Connected components *)

Lemma elem_of_concat {A} (x : A) (ls : list (list A)) :
  x ∈ concat ls ↔ ∃ l, x ∈ l ∧ l ∈ ls.
Proof.
  rewrite list_elem_of_In, in_concat. split.
  - intros (l & Hl & Hx). exists l. by rewrite !list_elem_of_In.
  - intros (l & Hx & Hl). exists l. by rewrite <- !list_elem_of_In.
Qed.

Lemma elem_of_filter_bool {A} (p : A -> bool) (x : A) (l : list A) :
  x ∈ List.filter p l ↔ x ∈ l ∧ p x = true.
Proof. by rewrite !list_elem_of_In, filter_In. Qed.

Section components.
Context {A : Type} (adj : A -> A -> bool).

Lemma concat_filter_split (p : list A -> bool) (cs : list (list A)) :
  (concat (List.filter p cs) ++ concat (List.filter (fun c => negb (p c)) cs))
    ≡ₚ concat cs.
Proof.
  induction cs as [|c cs IH]; simpl; [done|].
  destruct (p c); simpl.
  - by rewrite <- app_assoc, IH.
  - rewrite Permutation_app_swap_app. by rewrite IH.
Qed.

(** The components partition the list. *)
Lemma components_partition (l : list A) : concat (components adj l) ≡ₚ l.
Proof.
  induction l as [|x l IH]; simpl; [done|].
  constructor. by rewrite concat_filter_split.
Qed.

Lemma components_nonempty (l : list A) (c : list A) :
  c ∈ components adj l → c ≠ [].
Proof.
  revert c. induction l as [|x l IH]; intros c; simpl.
  - intros H. by apply elem_of_nil in H.
  - intros H. apply elem_of_cons in H as [->|H]; [done|].
    apply list_elem_of_In, filter_In in H as [H _].
    by apply IH, list_elem_of_In.
Qed.

Lemma components_members (l : list A) (c : list A) (x : A) :
  c ∈ components adj l → x ∈ c → x ∈ l.
Proof.
  intros Hc Hx. rewrite <- (components_partition l).
  apply elem_of_concat. eauto.
Qed.

Lemma step_in_mono (l : list A) x a b : step_in adj l a b → step_in adj (x :: l) a b.
Proof.
  intros (Ha & Hb & Hab). repeat split; [apply elem_of_cons; by right..|done].
Qed.

Lemma rtsc_step_in_mono (l : list A) x a b :
  rtsc (step_in adj l) a b → rtsc (step_in adj (x :: l)) a b.
Proof.
  apply rtc_subrel. intros a' b' [H|H]; [left|right]; by apply step_in_mono.
Qed.

(** Two members of one component are joined by a path. *)
Lemma components_connected (l : list A) (c : list A) (x y : A) :
  c ∈ components adj l → x ∈ c → y ∈ c → rtsc (step_in adj l) x y.
Proof.
  revert c x y. induction l as [|a l IH]; intros c x y; simpl.
  { intros H. by apply elem_of_nil in H. }
  intros Hc Hx Hy. apply elem_of_cons in Hc as [->|Hc].
  - assert (Hto : ∀ z, z ∈ a :: concat (List.filter (existsb (adj a))
                                         (components adj l)) →
                       rtsc (step_in adj (a :: l)) a z).
    { intros z Hz. apply elem_of_cons in Hz as [->|Hz]; [done|].
      apply elem_of_concat in Hz as (c' & Hz & Hc').
      apply list_elem_of_In, filter_In in Hc' as [Hc' Hex].
      apply list_elem_of_In in Hc'.
      apply existsb_exists in Hex as (b & Hb & Hab).
      apply list_elem_of_In in Hb.
      transitivity b.
      - apply rtsc_lr. repeat split; [apply elem_of_cons; by left| |done].
        apply elem_of_cons. right. by apply (components_members l c').
      - apply rtsc_step_in_mono. by apply (IH c'). }
    transitivity a; [symmetry|]; by apply Hto.
  - apply list_elem_of_In, filter_In in Hc as [Hc _].
    apply list_elem_of_In in Hc.
    apply rtsc_step_in_mono. by apply (IH c).
Qed.

(** Adjacent elements lie in one component. *)
Lemma components_closed (l : list A) (x y : A) :
  (∀ a b, adj a b = adj b a) →
  x ∈ l → y ∈ l → adj x y = true →
  ∃ c, c ∈ components adj l ∧ x ∈ c ∧ y ∈ c.
Proof.
  intros Hsym. revert x y.
  assert (Hfind : ∀ (l : list A) z, z ∈ l → ∃ c, c ∈ components adj l ∧ z ∈ c).
  { intros l' z Hz. rewrite <- (components_partition l') in Hz.
    apply elem_of_concat in Hz as (c & ? & ?). eauto. }
  induction l as [|a l IH]; intros x y Hx Hy Hxy.
  { by apply elem_of_nil in Hx. }
  simpl.
  set (T := List.filter (existsb (adj a)) (components adj l)).
  set (O := List.filter (fun c => negb (existsb (adj a) c)) (components adj l)).
  assert (Hsplit : ∀ c, c ∈ components adj l → c ∈ T ∨ c ∈ O).
  { intros c Hc. destruct (existsb (adj a) c) eqn:Hex.
    - left. apply list_elem_of_In, filter_In. split; [by apply list_elem_of_In|done].
    - right. apply list_elem_of_In, filter_In.
      split; [by apply list_elem_of_In | by rewrite Hex]. }
  assert (Hnear : ∀ z, z ∈ l → adj a z = true → z ∈ a :: concat T).
  { intros z Hz Haz. destruct (Hfind l z Hz) as (c & Hc & Hzc).
    apply elem_of_cons. right. apply elem_of_concat. exists c. split; [done|].
    apply list_elem_of_In, filter_In. split; [by apply list_elem_of_In|].
    apply existsb_exists. exists z. split; [by apply list_elem_of_In|done]. }
  assert (Hhead : a ∈ a :: concat T) by (apply elem_of_cons; by left).
  apply elem_of_cons in Hx as [->|Hx]; apply elem_of_cons in Hy as [->|Hy].
  - exists (a :: concat T). split; [apply elem_of_cons; by left|done].
  - exists (a :: concat T). split; [apply elem_of_cons; by left|].
    split; [done | by apply Hnear].
  - exists (a :: concat T). split; [apply elem_of_cons; by left|].
    split; [apply Hnear; [done | by rewrite Hsym] | done].
  - destruct (IH x y Hx Hy Hxy) as (c & Hc & Hxc & Hyc).
    destruct (Hsplit c Hc) as [HT|HO].
    + exists (a :: concat T). split; [apply elem_of_cons; by left|].
      split; apply elem_of_cons; right; apply elem_of_concat; eauto.
    + exists c. split; [apply elem_of_cons; by right | done].
Qed.
(** A component holds every neighbour of its members. *)
Lemma components_saturated (l : list A) (c : list A) (x y : A) :
  (∀ a b, adj a b = adj b a) →
  c ∈ components adj l → x ∈ c → y ∈ l → adj x y = true → y ∈ c.
Proof.
  intros Hsym. revert c x y.
  assert (Hfind : ∀ (l : list A) z, z ∈ l → ∃ c, c ∈ components adj l ∧ z ∈ c).
  { intros l' z Hz. rewrite <- (components_partition l') in Hz.
    apply elem_of_concat in Hz as (c & ? & ?). eauto. }
  induction l as [|a l IH]; intros c x y Hc Hx Hy Hxy.
  { by apply elem_of_nil in Hy. }
  simpl in Hc.
  set (T := List.filter (existsb (adj a)) (components adj l)) in *.
  assert (Hnear : ∀ z, z ∈ l → adj a z = true → z ∈ a :: concat T).
  { intros z Hz Haz. destruct (Hfind l z Hz) as (c' & Hc' & Hzc).
    apply elem_of_cons. right. apply elem_of_concat. exists c'. split; [done|].
    apply list_elem_of_In, filter_In. split; [by apply list_elem_of_In|].
    apply existsb_exists. exists z. split; [by apply list_elem_of_In|done]. }
  apply elem_of_cons in Hc as [->|Hc].
  - apply elem_of_cons in Hy as [->|Hy]; [apply elem_of_cons; by left|].
    apply elem_of_cons in Hx as [->|Hx]; [by apply Hnear|].
    apply elem_of_concat in Hx as (c' & Hxc & Hc').
    apply elem_of_cons. right. apply elem_of_concat. exists c'. split; [|done].
    apply list_elem_of_In, filter_In in Hc' as [Hc' _]. apply list_elem_of_In in Hc'.
    by apply (IH c' x y).
  - apply list_elem_of_In, filter_In in Hc as [Hc Hex]. apply list_elem_of_In in Hc.
    apply negb_true_iff in Hex.
    apply elem_of_cons in Hy as [->|Hy]; [|by apply (IH c x y)].
    exfalso. assert (Htrue : existsb (adj a) c = true); [|congruence].
    apply existsb_exists. exists x. split; [by apply list_elem_of_In|].
    by rewrite Hsym.
Qed.
End components.

(** ** Cliques *)

Lemma undirected_has_edge (G : Graph) u v :
  undirected G → has_edge G u v = has_edge G v u.
Proof.
  intros Hsym. apply eq_true_iff_eq. by rewrite !has_edge_weight, (Hsym u v).
Qed.

Lemma adjacent_sym (G : Graph) u v :
  undirected G → adjacent G u v = adjacent G v u.
Proof.
  intros Hsym. unfold adjacent. rewrite (undirected_has_edge G u v Hsym).
  f_equal. apply bool_decide_ext. naive_solver.
Qed.

Lemma adjacent_irrefl (G : Graph) u : adjacent G u u = false.
Proof. unfold adjacent. by rewrite bool_decide_eq_false_2 by (intros H; by apply H). Qed.

Lemma forallb_elem_of {A} (p : A -> bool) (l : list A) :
  forallb p l = true ↔ ∀ x, x ∈ l → p x = true.
Proof.
  rewrite forallb_forall. split; intros H x Hx; apply H; by apply list_elem_of_In.
Qed.

(** [cliques_within] lists exactly the sublists that are cliques. *)
Lemma cliques_within_spec (G : Graph) (l s : list string) :
  s ∈ cliques_within G l ↔ s `sublist_of` l ∧ clique_list G s = true.
Proof.
  revert s. induction l as [|x l IH]; intros s; simpl.
  - rewrite list_elem_of_singleton. split.
    + intros ->. split; [constructor | done].
    + intros [Hs _]. by apply sublist_nil_r in Hs.
  - rewrite elem_of_app, list_elem_of_fmap. split.
    + intros [(s' & -> & Hs')|Hs].
      * apply elem_of_filter_bool in Hs' as [Hs' Hadj].
        apply IH in Hs' as [Hsub Hcl]. split; [by constructor|].
        simpl. by rewrite Hadj, Hcl.
      * apply IH in Hs as [Hsub Hcl]. split; [by constructor | done].
    + intros [Hsub Hcl]. apply sublist_cons_r in Hsub as [Hsub|(s' & -> & Hsub)].
      * right. apply IH. done.
      * left. exists s'. split; [done|]. simpl in Hcl.
        apply andb_true_iff in Hcl as [Hadj Hcl].
        apply elem_of_filter_bool. split; [|done]. apply IH. done.
Qed.

Lemma clique_list_pairwise (G : Graph) (s : list string) :
  undirected G → NoDup s →
  (clique_list G s = true ↔
   ∀ u v, u ∈ s → v ∈ s → u ≠ v → adjacent G u v = true).
Proof.
  intros Hsym. induction s as [|x s IH]; intros Hnd; simpl.
  - split; [|done]. intros _ u v Hu. by apply elem_of_nil in Hu.
  - apply NoDup_cons in Hnd as [Hx Hnd].
    rewrite andb_true_iff, forallb_elem_of, (IH Hnd). split.
    + intros [Hhead Htail] u v Hu Hv Hne.
      apply elem_of_cons in Hu as [->|Hu]; apply elem_of_cons in Hv as [->|Hv].
      * done.
      * by apply Hhead.
      * rewrite adjacent_sym by done. by apply Hhead.
      * by apply Htail.
    + intros Hall. split.
      * intros y Hy. apply Hall; [apply elem_of_cons; by left
                                 | apply elem_of_cons; by right|].
        intros ->. done.
      * intros u v Hu Hv Hne. apply Hall; [apply elem_of_cons; by right..|done].
Qed.

Lemma clique_of_list (G : Graph) (s : list string) :
  undirected G →
  s `sublist_of` elements (nodes G) → clique_list G s = true →
  clique G (list_to_set s).
Proof.
  intros Hsym Hsub Hcl.
  assert (Hnd : NoDup s) by (apply (sublist_NoDup s (elements (nodes G))); [apply NoDup_elements | done]).
  split.
  - intros x Hx. apply elem_of_list_to_set in Hx.
    apply elem_of_elements. by eapply elem_of_sublist.
  - intros u v Hu Hv Hne. apply elem_of_list_to_set in Hu, Hv.
    by apply (clique_list_pairwise G s Hsym Hnd).
Qed.

Lemma maximal_in_spec (G : Graph) (s : list string) :
  maximal_in G s = true ↔
  s ≠ [] ∧ ∀ x, x ∈ nodes G → x ∉ s → ∃ y, y ∈ s ∧ adjacent G x y = false.
Proof.
  unfold maximal_in. destruct s as [|a s]; [naive_solver|].
  rewrite forallb_elem_of. split.
  - intros Hall. split; [done|]. intros x Hx Hnot.
    specialize (Hall x). rewrite elem_of_elements in Hall.
    apply Hall, orb_true_iff in Hx as [Hx|Hx].
    + by apply bool_decide_eq_true in Hx.
    + apply negb_true_iff in Hx.
      destruct (existsb (fun y => negb (adjacent G x y)) (a :: s)) eqn:He.
      * apply existsb_exists in He as (y & Hy & Hxy).
        exists y. split; [by apply list_elem_of_In|]. by apply negb_true_iff.
      * exfalso. rewrite <- not_true_iff_false in Hx. apply Hx.
        apply forallb_forall. intros y Hy.
        destruct (adjacent G x y) eqn:Hxy; [done|].
        rewrite <- not_true_iff_false in He. exfalso. apply He.
        apply existsb_exists. exists y. by rewrite Hxy.
  - intros [_ Hmax] x Hx. apply elem_of_elements in Hx.
    destruct (decide (x ∈ a :: s)) as [Hin|Hnot].
    + by rewrite bool_decide_eq_true_2.
    + destruct (Hmax x Hx Hnot) as (y & Hy & Hxy).
      apply orb_true_iff. right. apply negb_true_iff.
      rewrite <- not_true_iff_false. intros Hall.
      rewrite forallb_elem_of in Hall. rewrite (Hall y Hy) in Hxy. done.
Qed.

(** Soundness of the enumeration. *)
Lemma find_cliques_sound (G : Graph) (c : gset string) :
  undirected G → c ∈ find_cliques G → maximal_clique G c.
Proof.
  intros Hsym Hc. unfold find_cliques in Hc.
  apply list_elem_of_fmap in Hc as (s & -> & Hs).
  apply elem_of_filter_bool in Hs as [Hs Hmax].
  apply cliques_within_spec in Hs as [Hsub Hcl].
  apply maximal_in_spec in Hmax as [Hne Hmax].
  split; [|split].
  - destruct s as [|a s]; [done|]. intros Hempty.
    assert (a ∈ (list_to_set (a :: s) : gset string)) by
      (apply elem_of_list_to_set, elem_of_cons; by left).
    set_solver.
  - by apply clique_of_list.
  - intros c' [Hnodes Hadj] Hincl. apply set_eq. intros x. split; [|apply Hincl].
    intros Hx. apply elem_of_list_to_set.
    destruct (decide (x ∈ s)) as [|Hnot]; [done|].
    destruct (Hmax x (Hnodes x Hx) Hnot) as (y & Hy & Hxy).
    rewrite Hadj in Hxy; [done | done | |].
    + apply Hincl. by apply elem_of_list_to_set.
    + intros ->. done.
Qed.

(** Completeness of the enumeration. *)
Lemma find_cliques_complete (G : Graph) (c : gset string) :
  undirected G → maximal_clique G c → c ∈ find_cliques G.
Proof.
  intros Hsym (Hne & [Hnodes Hadj] & Hmax).
  set (s := filter (fun x => x ∈ c) (elements (nodes G))).
  assert (Hs : ∀ x, x ∈ s ↔ x ∈ c).
  { intros x. unfold s. rewrite list_elem_of_filter, elem_of_elements.
    split; [tauto | auto]. }
  assert (Hset : list_to_set s = c).
  { apply set_eq. intros x. by rewrite elem_of_list_to_set. }
  assert (Hsub : s `sublist_of` elements (nodes G)) by apply sublist_filter.
  assert (Hnd : NoDup s) by (apply (sublist_NoDup s (elements (nodes G))); [apply NoDup_elements | done]).
  unfold find_cliques. apply list_elem_of_fmap. exists s. split; [done|].
  apply elem_of_filter_bool. split.
  - apply cliques_within_spec. split; [done|].
    apply clique_list_pairwise; [done..|].
    intros u v Hu Hv. apply Hadj; by apply Hs.
  - apply maximal_in_spec. split.
    + intros Hnil. apply Hne. rewrite <- Hset, Hnil. done.
    + intros x Hx Hnot.
      destruct (existsb (fun y => negb (adjacent G x y)) s) eqn:He.
      * apply existsb_exists in He as (y & Hy & Hxy).
        exists y. split; [by apply list_elem_of_In | by apply negb_true_iff].
      * exfalso. apply Hnot, Hs.
        assert (Hall : ∀ y, y ∈ c → adjacent G x y = true).
        { intros y Hy. destruct (adjacent G x y) eqn:Hxy; [done|].
          rewrite <- not_true_iff_false in He. exfalso. apply He.
          apply existsb_exists. exists y.
          split; [by apply list_elem_of_In, Hs | by rewrite Hxy]. }
        assert (Hbig : clique G ({[x]} ∪ c)).
        { split; [set_solver|]. intros u v Hu Hv Huv.
          apply elem_of_union in Hu as [Hu|Hu]; apply elem_of_union in Hv as [Hv|Hv].
          - apply elem_of_singleton in Hu, Hv. congruence.
          - apply elem_of_singleton in Hu as ->. by apply Hall.
          - apply elem_of_singleton in Hv as ->.
            rewrite adjacent_sym by done. by apply Hall.
          - by apply Hadj. }
        rewrite <- (Hmax _ Hbig); set_solver.
Qed.

Lemma find_cliques_spec (G : Graph) (c : gset string) :
  undirected G → (c ∈ find_cliques G ↔ maximal_clique G c).
Proof.
  intros Hsym. split; [by apply find_cliques_sound | by apply find_cliques_complete].
Qed.

(** ** Sample graphs are undirected *)

Lemma undirected_add_edge (G : Graph) a b w :
  undirected G → undirected (add_edge G a b w).
Proof.
  intros Hsym u v. rewrite !edge_weight_add_edge, (Hsym u v).
  rewrite (bool_decide_ext (a = u ∧ b = v ∨ a = v ∧ b = u)
                           (a = v ∧ b = u ∨ a = u ∧ b = v)); [done | tauto].
Qed.

Lemma undirected_graph_of_edges l : undirected (graph_of_edges l).
Proof.
  unfold graph_of_edges. generalize undirected_empty.
  generalize (∅ : Graph). induction l as [|e l IH]; intros G HG; simpl; [done|].
  apply IH. by apply undirected_add_edge.
Qed.

(** ** CommunityDetector: the claims *)

Lemma percolates_sym k (c1 c2 : gset string) : percolates k c1 c2 = percolates k c2 c1.
Proof.
  unfold percolates. replace (c2 ∩ c1) with (c1 ∩ c2) by set_solver. done.
Qed.

(** A returned community is the union of one component of the clique graph,
    all of whose members are maximal cliques with at least k nodes. *)
Lemma community_components (G : Graph) k (c : gset string) :
  undirected G →
  c ∈ k_clique_communities G k →
  ∃ qs : list (gset string),
    qs ≠ [] ∧ c = ⋃ qs ∧
    (∀ q, q ∈ qs → maximal_clique G q ∧ k ≤ size q) ∧
    (∀ q q', q ∈ qs → q' ∈ qs →
       rtsc (step_in (percolates k)
               (List.filter (fun c => bool_decide (k ≤ size c)) (find_cliques G)))
            q q').
Proof.
  intros Hsym Hc. unfold k_clique_communities in Hc.
  apply list_elem_of_fmap in Hc as (qs & -> & Hqs).
  exists qs. split; [by eapply components_nonempty|]. split; [done|]. split.
  - intros q Hq.
    apply (components_members _ _ _ _ Hqs), elem_of_filter_bool in Hq as [Hq Hk].
    apply bool_decide_eq_true in Hk. split; [by apply find_cliques_sound | done].
  - intros q q' Hq Hq'. by eapply components_connected.
Qed.

Lemma retained_clique (G : Graph) k (q : gset string) :
  undirected G →
  q ∈ List.filter (fun c : gset string => bool_decide (k ≤ size c)) (find_cliques G) ↔
  maximal_clique G q ∧ k ≤ size q.
Proof.
  intros Hsym. rewrite elem_of_filter_bool, bool_decide_eq_true.
  by rewrite find_cliques_spec.
Qed.

(** C2 (as the code has it). For k >= 2 every returned community has at least
    k nodes and is the union of one connected component of the clique graph:
    a non-empty family of maximal cliques with at least k nodes each, any two
    of which are joined by a chain of links, and which holds every maximal
    clique of size >= k linked to one of its members.  Every maximal clique
    of size >= k lies in a returned community.  A node may lie in no, one or
    several communities. *)
Theorem communities_are_clique_unions :
  (∀ (G : Graph) k (c : gset string),
     undirected G → 2 ≤ k →
     c ∈ detect_communities G k →
     k ≤ size c ∧
     ∃ qs : list (gset string),
       qs ≠ [] ∧ c = ⋃ qs ∧
       (∀ q, q ∈ qs → maximal_clique G q ∧ k ≤ size q) ∧
       (∀ q q', q ∈ qs → q' ∈ qs → rtsc (linked G k) q q') ∧
       (∀ q q', q ∈ qs → linked G k q q' → q' ∈ qs)) ∧
  (∀ (G : Graph) k (q : gset string),
     undirected G → 2 ≤ k → maximal_clique G q → k ≤ size q →
     ∃ c, c ∈ detect_communities G k ∧ q ⊆ c) ∧
  (membership_count bowtie_graph 3 "p" = 0 ∧
   membership_count bowtie_graph 3 "a" = 1 ∧
   membership_count bowtie_graph 3 "c" = 2).
Proof.
  split; [|split].
  - intros G k c Hsym Hk Hc. unfold detect_communities, k_clique_communities in Hc.
    apply list_elem_of_fmap in Hc as (qs & -> & Hqs).
    set (cliques := List.filter (fun c : gset string => bool_decide (k ≤ size c))
                                (find_cliques G)) in *.
    assert (Hne : qs ≠ []) by (by eapply components_nonempty).
    assert (Hret : ∀ q, q ∈ qs → maximal_clique G q ∧ k ≤ size q).
    { intros q Hq. apply (retained_clique G k q Hsym).
      by apply (components_members _ _ _ _ Hqs). }
    split.
    { destruct qs as [|q qs]; [done|].
      destruct (Hret q) as [_ Hq]; [apply elem_of_cons; by left|].
      etrans; [exact Hq|]. apply subseteq_size. rewrite union_list_cons. set_solver. }
    exists qs. split; [done|]. split; [done|]. split; [done|]. split.
    + intros q q' Hq Hq'.
      pose proof (components_connected _ _ _ _ _ Hqs Hq Hq') as Hpath.
      eapply rtc_subrel; [|exact Hpath].
      assert (Hstep : ∀ a b, step_in (percolates k) cliques a b → linked G k a b).
      { intros a b (Ha & Hb & Hab). apply bool_decide_eq_true in Hab.
        split; [by apply (retained_clique G k a Hsym)|].
        split; [by apply (retained_clique G k b Hsym) | done]. }
      intros a b [H|H]; [left|right]; by apply Hstep.
    + intros q q' Hq (_ & Hq' & Hshare).
      apply (components_saturated (percolates k) cliques qs q q');
        [apply percolates_sym | done | done | |].
      * by apply (retained_clique G k q' Hsym).
      * by apply bool_decide_eq_true.
  - intros G k q Hsym Hk Hmax Hsize.
    assert (Hq : q ∈ List.filter (fun c : gset string => bool_decide (k ≤ size c))
                                 (find_cliques G))
      by (by apply (retained_clique G k q Hsym)).
    rewrite <- (components_partition (percolates k)) in Hq.
    apply elem_of_concat in Hq as (qs & Hq & Hqs).
    exists (⋃ qs). split.
    + unfold detect_communities, k_clique_communities.
      apply list_elem_of_fmap. by exists qs.
    + intros x Hx. apply elem_of_union_list. eauto.
  - vm_compute. done.
Qed.

Lemma communities_are_clique_unions_witness :
  3 ≤ size ({[ "a"; "f"; "k" ]} : gset string) ∧
  ∃ qs : list (gset string),
    qs ≠ [] ∧ ({[ "a"; "f"; "k" ]} : gset string) = ⋃ qs ∧
    (∀ q, q ∈ qs → maximal_clique strip_graph q ∧ 3 ≤ size q) ∧
    (∀ q q', q ∈ qs → q' ∈ qs → rtsc (linked strip_graph 3) q q') ∧
    (∀ q q', q ∈ qs → linked strip_graph 3 q q' → q' ∈ qs).
Proof.
  apply (proj1 communities_are_clique_unions strip_graph 3).
  - apply undirected_graph_of_edges.
  - lia.
  - apply list_elem_of_In. vm_compute. right. left. reflexivity.
Defined.

(** C2, as stated, fails: on the strip of triangles closed by the triangle
    a-f-k, the community {a, f, k} is returned together with the community of
    all eleven nodes, of which it is a strict subset. *)
Lemma community_strictly_inside_another :
  undirected strip_graph ∧
  ∃ c1 c2 : gset string,
    c1 ∈ detect_communities strip_graph 3 ∧
    c2 ∈ detect_communities strip_graph 3 ∧
    c1 ⊂ c2.
Proof.
  split; [apply undirected_graph_of_edges|].
  exists {[ "a"; "f"; "k" ]},
         {[ "a"; "b"; "c"; "d"; "e"; "f"; "g"; "h"; "i"; "j"; "k" ]}.
  split; [apply list_elem_of_In; vm_compute; right; left; reflexivity|].
  split; [apply list_elem_of_In; vm_compute; left; reflexivity|].
  split; [set_solver|].
  intros Hsub. assert (Hb : "b" ∈ ({[ "a"; "f"; "k" ]} : gset string)).
  { apply Hsub. set_solver. }
  set_solver.
Qed.

Example strip_graph_cliques :
  elements <$> find_cliques strip_graph
  = [["g"; "e"; "f"]; ["g"; "i"; "h"]; ["g"; "f"; "h"]; ["k"; "i"; "j"];
     ["k"; "a"; "f"]; ["c"; "e"; "d"]; ["c"; "a"; "b"]; ["c"; "b"; "d"];
     ["e"; "f"; "d"]; ["i"; "j"; "h"]].
Proof. vm_compute. reflexivity. Qed.

(** Two retained cliques that share k-1 nodes end up in one community. *)
Lemma percolating_cliques_merge (G : Graph) k (q q' : gset string) :
  q ∈ find_cliques G → q' ∈ find_cliques G →
  k ≤ size q → k ≤ size q' → percolates k q q' = true →
  ∃ c, c ∈ k_clique_communities G k ∧ q ⊆ c ∧ q' ⊆ c.
Proof.
  intros Hq Hq' Hk Hk' Hperc.
  set (cliques := List.filter (fun c : gset string => bool_decide (k ≤ size c))
                              (find_cliques G)).
  assert (Hin : q ∈ cliques ∧ q' ∈ cliques).
  { split; apply elem_of_filter_bool; (split; [done | by apply bool_decide_eq_true]). }
  destruct Hin as [Hin Hin'].
  destruct (components_closed (percolates k) cliques q q')
    as (comp & Hcomp & Hqc & Hqc'); [apply percolates_sym | done..|].
  exists (⋃ comp). split.
  - unfold k_clique_communities. apply list_elem_of_fmap. by exists comp.
  - split; intros x Hx; apply elem_of_union_list; eauto.
Qed.

(** The end-to-end example: a triangle of weight 5 under threshold 4 gives a
    graph of three nodes and three edges and, for k = 3, the single community
    {A, B, C}. *)
Example triangle_example :
  ∃ G, build_graph triangle_df 4 = Ok G ∧
       number_of_nodes G = 3 ∧ number_of_edges G = 3 ∧
       detect_communities G 3 = [ {[ "A"; "B"; "C" ]} ] ∧
       detect_communities G 4 = [].
Proof. eexists. split; [vm_compute; reflexivity|]. vm_compute. done. Qed.

(** ** Counter and most_common *)

Lemma counter_incr_keys_old x c :
  x ∈ c.*1 → (counter_incr x c).*1 = c.*1.
Proof.
  induction c as [|[y n] c IH]; intros Hin.
  - by apply elem_of_nil in Hin.
  - rewrite fmap_cons in Hin. cbn [counter_incr].
    destruct (decide (x = y)) as [->|Hne]; [done|].
    rewrite !fmap_cons. f_equal. apply IH.
    apply elem_of_cons in Hin as [?|?]; done.
Qed.

Lemma counter_incr_keys_new x c :
  x ∉ c.*1 → (counter_incr x c).*1 = c.*1 ++ [x].
Proof.
  induction c as [|[y n] c IH]; intros Hnot; [done|].
  rewrite fmap_cons in Hnot. apply not_elem_of_cons in Hnot as [Hne Hnot].
  cbn [counter_incr]. rewrite decide_False by done.
  rewrite !fmap_cons. simpl. f_equal. by apply IH.
Qed.

Lemma counter_get_incr x y c :
  counter_get y (counter_incr x c)
  = if decide (y = x) then S (counter_get x c) else counter_get y c.
Proof.
  induction c as [|[z n] c IH]; simpl.
  - destruct (decide (y = x)); done.
  - destruct (decide (x = z)) as [->|Hxz]; simpl.
    + destruct (decide (y = z)); done.
    + rewrite IH. destruct (decide (y = z)) as [->|Hyz]; [|done].
      rewrite decide_False; [done | congruence].
Qed.

Lemma counter_get_elem x n c :
  NoDup c.*1 → (x, n) ∈ c → counter_get x c = n.
Proof.
  induction c as [|[y m] c IH]; simpl; intros Hnd Hin.
  - by apply elem_of_nil in Hin.
  - apply NoDup_cons in Hnd as [Hy Hnd].
    apply elem_of_cons in Hin as [[= <- <-]|Hin].
    + by rewrite decide_True.
    + rewrite decide_False; [by apply IH|].
      intros ->. apply Hy. apply list_elem_of_fmap. by exists (y, n).
Qed.

Lemma Counter_snoc l x : Counter (l ++ [x]) = counter_incr x (Counter l).
Proof. unfold Counter. by rewrite fold_left_app. Qed.

Lemma occurrences_snoc f l x :
  occurrences f (l ++ [x]) = occurrences f l + (if decide (f = x) then 1 else 0).
Proof.
  unfold occurrences. rewrite List.filter_app, length_app. simpl.
  destruct (decide (f = x)) as [->|Hne].
  - by rewrite bool_decide_eq_true_2.
  - rewrite bool_decide_eq_false_2; [done | congruence].
Qed.

Lemma occurrences_pos f l : f ∈ l ↔ 0 < occurrences f l.
Proof.
  unfold occurrences. induction l as [|x l IH]; simpl.
  - split; [intros H; by apply elem_of_nil in H | lia].
  - rewrite elem_of_cons, IH. case_bool_decide; simpl; [split; [lia | auto]|].
    split; [intros [->|?]; done | auto].
Qed.

Lemma elem_of_first_seen x l : x ∈ first_seen l ↔ x ∈ l.
Proof.
  induction l as [|y l IH]; simpl; [done|].
  rewrite !elem_of_cons, elem_of_filter_bool, IH, negb_true_iff, bool_decide_eq_false.
  destruct (decide (x = y)); naive_solver.
Qed.

Lemma NoDup_filter_bool {A} (p : A -> bool) (l : list A) :
  NoDup l → NoDup (List.filter p l).
Proof.
  induction 1 as [|x l Hx Hnd IH]; simpl; [constructor|].
  destruct (p x); [|done]. constructor; [|done].
  rewrite elem_of_filter_bool. tauto.
Qed.

Lemma NoDup_first_seen l : NoDup (first_seen l).
Proof.
  induction l as [|x l IH]; simpl; constructor.
  - rewrite elem_of_filter_bool, negb_true_iff, bool_decide_eq_false. tauto.
  - by apply NoDup_filter_bool.
Qed.

Lemma filter_bool_app_singleton {A} (p : A -> bool) (l : list A) x :
  List.filter p (l ++ [x]) = List.filter p l ++ (if p x then [x] else []).
Proof. rewrite List.filter_app. simpl. by destruct (p x). Qed.

Lemma filter_bool_id {A} (p : A -> bool) (l : list A) :
  (∀ x, x ∈ l → p x = true) → List.filter p l = l.
Proof.
  induction l as [|x l IH]; intros H; simpl; [done|].
  rewrite H by (apply elem_of_cons; by left).
  f_equal. apply IH. intros y Hy. apply H, elem_of_cons. by right.
Qed.

Lemma filter_filter_bool {A} (p q : A -> bool) (l : list A) :
  List.filter p (List.filter q l) = List.filter (fun x => q x && p x) l.
Proof.
  induction l as [|x l IH]; simpl; [done|].
  destruct (q x); simpl; [destruct (p x)|]; by rewrite IH.
Qed.

Lemma first_seen_app l1 l2 :
  first_seen (l1 ++ l2)
  = first_seen l1 ++
    List.filter (fun y => negb (bool_decide (y ∈ l1))) (first_seen l2).
Proof.
  induction l1 as [|a l1 IH].
  - cbn [app first_seen]. symmetry. apply filter_bool_id. intros y _.
    rewrite bool_decide_eq_false_2; [done | apply not_elem_of_nil].
  - cbn [app first_seen]. rewrite IH, List.filter_app, filter_filter_bool.
    cbn [app]. do 2 f_equal.
    apply List.filter_ext. intros y.
    destruct (decide (y = a)) as [->|Hne].
    + rewrite (bool_decide_eq_true_2 (a = a)) by done.
      rewrite (bool_decide_eq_true_2 (a ∈ a :: l1)) by (apply elem_of_cons; by left).
      by rewrite andb_false_r.
    + rewrite (bool_decide_eq_false_2 (y = a)) by done. rewrite andb_true_r.
      f_equal. apply bool_decide_ext. rewrite elem_of_cons. naive_solver.
Qed.

Lemma first_seen_snoc_old l x : x ∈ l → first_seen (l ++ [x]) = first_seen l.
Proof.
  intros Hin. rewrite first_seen_app. cbn [first_seen List.filter].
  rewrite bool_decide_eq_true_2 by done. simpl. by rewrite app_nil_r.
Qed.

Lemma first_seen_snoc_new l x : x ∉ l → first_seen (l ++ [x]) = first_seen l ++ [x].
Proof.
  intros Hnot. rewrite first_seen_app. cbn [first_seen List.filter].
  by rewrite bool_decide_eq_false_2 by done.
Qed.

(** The counter lists the factions in order of first occurrence, each with
    its number of occurrences. *)
Lemma Counter_keys l : (Counter l).*1 = first_seen l.
Proof.
  induction l as [|x l IH] using rev_ind; [done|].
  rewrite Counter_snoc.
  destruct (decide (x ∈ l)) as [Hin|Hnot].
  - rewrite first_seen_snoc_old, counter_incr_keys_old; [done| |done].
    by rewrite IH, elem_of_first_seen.
  - rewrite first_seen_snoc_new, counter_incr_keys_new; [by rewrite IH| |done].
    by rewrite IH, elem_of_first_seen.
Qed.

Lemma Counter_get f l : counter_get f (Counter l) = occurrences f l.
Proof.
  induction l as [|x l IH] using rev_ind; [done|].
  rewrite Counter_snoc, counter_get_incr, occurrences_snoc.
  destruct (decide (f = x)) as [->|Hne]; [rewrite IH; lia | rewrite IH; lia].
Qed.

Lemma Counter_elem f n l : (f, n) ∈ Counter l → f ∈ l ∧ n = occurrences f l.
Proof.
  intros Hin. split.
  - apply elem_of_first_seen. rewrite <- Counter_keys.
    apply list_elem_of_fmap. by exists (f, n).
  - rewrite <- Counter_get. symmetry. apply counter_get_elem; [|done].
    rewrite Counter_keys. apply NoDup_first_seen.
Qed.

Lemma first_seen_split pre f post :
  f ∉ pre →
  ∃ more, first_seen (pre ++ f :: post) = first_seen pre ++ f :: more.
Proof.
  intros Hf. rewrite first_seen_app. cbn [first_seen List.filter].
  rewrite bool_decide_eq_false_2 by done. simpl. eauto.
Qed.

Lemma NoDup_split_unique {A} (l1 l2 l1' l2' : list A) x :
  NoDup (l1 ++ x :: l2) → l1 ++ x :: l2 = l1' ++ x :: l2' → l1 = l1'.
Proof.
  revert l1'. induction l1 as [|a l1 IH]; intros l1' Hnd Heq.
  - destruct l1' as [|b l1']; [done|]. simpl in *. injection Heq as <- ->.
    apply NoDup_cons in Hnd as [Hx _]. exfalso. apply Hx.
    apply elem_of_app. right. apply elem_of_cons. by left.
  - destruct l1' as [|b l1']; simpl in *.
    + injection Heq as -> <-. apply NoDup_cons in Hnd as [Hx _].
      exfalso. apply Hx. apply elem_of_app. right. apply elem_of_cons. by left.
    + injection Heq as <- Heq. apply NoDup_cons in Hnd as [_ Hnd].
      f_equal. by apply IH.
Qed.

(** [max_first] returns the first entry carrying the largest count. *)
Lemma max_first_spec b l :
  ∃ l1 l2, b :: l = l1 ++ max_first b l :: l2 ∧
           (∀ y, y ∈ l1 → y.2 < (max_first b l).2) ∧
           (∀ y, y ∈ l2 → y.2 ≤ (max_first b l).2).
Proof.
  revert b. induction l as [|x l IH]; intros b; simpl.
  - exists [], []. split; [done|]. split; intros y Hy; by apply elem_of_nil in Hy.
  - destruct (IH (if b.2 <? x.2 then x else b)) as (l1 & l2 & Heq & Hlt & Hle).
    set (r := max_first (if b.2 <? x.2 then x else b) l) in *.
    assert (Hhead : (if b.2 <? x.2 then x else b).2 ≤ r.2).
    { destruct l1 as [|a l1]; simpl in Heq; injection Heq as Ha Hl.
      - by rewrite Ha.
      - rewrite Ha. apply Nat.lt_le_incl, Hlt, elem_of_cons. by left. }
    destruct (b.2 <? x.2) eqn:Hbx.
    + apply Nat.ltb_lt in Hbx. exists (b :: l1), l2. split; [simpl; by rewrite Heq|].
      split; [|done]. intros y Hy. apply elem_of_cons in Hy as [->|Hy]; [lia|auto].
    + apply Nat.ltb_ge in Hbx. destruct l1 as [|a l1]; simpl in Heq.
      * injection Heq as Hr Hl. exists [], (x :: l2). split; [simpl; by rewrite <- Hr, Hl|].
        split; [intros y Hy; by apply elem_of_nil in Hy|].
        intros y Hy. apply elem_of_cons in Hy as [->|Hy]; [by rewrite <- Hr | auto].
      * injection Heq as Ha Hl. subst a. exists (b :: x :: l1), l2.
        split; [simpl; by rewrite Hl|]. split; [|done].
        assert (Hb : b.2 < r.2) by (apply Hlt, elem_of_cons; by left).
        intros y Hy. apply elem_of_cons in Hy as [->|Hy]; [done|].
        apply elem_of_cons in Hy as [->|Hy]; [lia|].
        apply Hlt, elem_of_cons. by right.
Qed.

(** On a non-empty list, [most_common(1)] is the faction with the most
    occurrences, the one met first among those that tie. *)
Lemma most_common1_spec (l : list string) :
  l ≠ [] →
  ∃ f pre post,
    most_common1 (Counter l) = [(f, occurrences f l)] ∧
    l = pre ++ f :: post ∧ (f ∉ pre) ∧
    (∀ g, occurrences g l ≤ occurrences f l) ∧
    (∀ g, g ∈ pre → occurrences g l < occurrences f l).
Proof.
  intros Hne. destruct (Counter l) as [|b c] eqn:Hc.
  { exfalso. apply Hne. apply (f_equal (fmap fst)) in Hc.
    rewrite Counter_keys in Hc. destruct l; [done | discriminate]. }
  simpl. destruct (max_first_spec b c) as (l1 & l2 & Heq & Hlt & Hle).
  destruct (max_first b c) as [f n] eqn:Hmax. simpl in *.
  assert (Hin : (f, n) ∈ Counter l).
  { rewrite Hc, Heq. apply elem_of_app. right. apply elem_of_cons. by left. }
  destruct (Counter_elem f n l Hin) as [Hfl ->].
  apply list_elem_of_split_l in Hfl as (pre & post & Hl & Hpre).
  exists f, pre, post. split; [done|]. split; [done|]. split; [done|].
  assert (Hcount : ∀ g m, (g, m) ∈ Counter l → m = occurrences g l).
  { intros g m Hg. by apply Counter_elem in Hg as [_ ->]. }
  assert (Hkeys : first_seen l = l1.*1 ++ f :: l2.*1).
  { rewrite <- Counter_keys, Hc, Heq, fmap_app. done. }
  split.
  - intros g. destruct (decide (g ∈ l)) as [Hg|Hg].
    + apply elem_of_first_seen in Hg. rewrite <- Counter_keys in Hg.
      apply list_elem_of_fmap in Hg as ([g' m] & -> & Hg). simpl.
      rewrite <- (Hcount _ _ Hg). rewrite Hc, Heq in Hg.
      apply elem_of_app in Hg as [Hg|Hg].
      * apply Nat.lt_le_incl. by apply (Hlt (g', m)).
      * apply elem_of_cons in Hg as [[= -> ->]|Hg]; [done|]. by apply (Hle (g', m)).
    + rewrite occurrences_pos in Hg. lia.
  - intros g Hg.
    destruct (first_seen_split pre f post Hpre) as (more & Hsplit).
    rewrite <- Hl in Hsplit.
    assert (Hl1 : l1.*1 = first_seen pre).
    { apply (NoDup_split_unique _ (l2.*1) _ more f).
      - rewrite <- Hkeys. apply NoDup_first_seen.
      - by rewrite <- Hkeys, Hsplit. }
    apply elem_of_first_seen in Hg. rewrite <- Hl1 in Hg.
    apply list_elem_of_fmap in Hg as ([g' m] & -> & Hg). simpl.
    rewrite <- (Hcount g' m).
    + by apply (Hlt (g', m)).
    + rewrite Hc, Heq. apply elem_of_app. by left.
Qed.

(** ** Enricher: the community labels *)

Lemma member_factions_cons fm n comm :
  member_factions fm (n :: comm)
  = match fm !! n with
    | Some h => h :: member_factions fm comm
    | None => member_factions fm comm
    end.
Proof.
  unfold member_factions. cbn [List.filter].
  destruct (fm !! n) as [h|] eqn:Hn.
  - rewrite bool_decide_eq_true_2 by eauto. rewrite fmap_cons, Hn. done.
  - rewrite bool_decide_eq_false_2; [done|]. by intros [? ?].
Qed.

Lemma member_factions_nil fm comm :
  member_factions fm comm = [] ↔ ∀ n, n ∈ comm → fm !! n = None.
Proof.
  induction comm as [|n comm IH].
  - split; [|done]. intros _ n Hn. by apply elem_of_nil in Hn.
  - rewrite member_factions_cons. destruct (fm !! n) as [h|] eqn:Hn.
    + split; [done|]. intros H. specialize (H n). rewrite Hn in H.
      discriminate H. apply elem_of_cons. by left.
    + rewrite IH. split.
      * intros H m Hm. apply elem_of_cons in Hm as [->|Hm]; auto.
      * intros H m Hm. apply H, elem_of_cons. by right.
Qed.

Lemma occurrences_member_factions fm comm g :
  occurrences g (member_factions fm comm) = members_with fm comm g.
Proof.
  unfold members_with. induction comm as [|n comm IH]; [done|].
  rewrite member_factions_cons. cbn [List.filter].
  destruct (fm !! n) as [h|] eqn:Hn.
  - unfold occurrences in *. cbn [List.filter].
    destruct (decide (h = g)) as [->|Hne].
    + rewrite !bool_decide_eq_true_2 by done. simpl. by rewrite IH.
    + rewrite !bool_decide_eq_false_2 by congruence. done.
  - rewrite bool_decide_eq_false_2 by done. done.
Qed.

Lemma member_factions_split fm comm pre f post :
  member_factions fm comm = pre ++ f :: post →
  ∃ c1 m c2, comm = c1 ++ m :: c2 ∧ fm !! m = Some f ∧
             member_factions fm c1 = pre.
Proof.
  revert pre. induction comm as [|n comm IH]; intros pre.
  - unfold member_factions. simpl. intros H. by destruct pre.
  - rewrite member_factions_cons. destruct (fm !! n) as [h|] eqn:Hn.
    + destruct pre as [|h' pre]; simpl; intros [= -> Hrest].
      * exists [], n, comm. done.
      * destruct (IH pre Hrest) as (c1 & m & c2 & -> & Hm & Hc1).
        exists (n :: c1), m, c2. split; [done|]. split; [done|].
        by rewrite member_factions_cons, Hn, Hc1.
    + intros Hrest. destruct (IH pre Hrest) as (c1 & m & c2 & -> & Hm & Hc1).
      exists (n :: c1), m, c2. split; [done|]. split; [done|].
      by rewrite member_factions_cons, Hn.
Qed.

Lemma elem_of_member_factions fm comm n g :
  n ∈ comm → fm !! n = Some g → g ∈ member_factions fm comm.
Proof.
  intros Hn Hg. induction comm as [|a comm IH]; [by apply elem_of_nil in Hn|].
  rewrite member_factions_cons. apply elem_of_cons in Hn as [->|Hn].
  - rewrite Hg. apply elem_of_cons. by left.
  - destruct (fm !! a); [apply elem_of_cons; right|]; by apply IH.
Qed.

(** The labelling rule, given the rows read from the attribute table.  The
    label of the community with id [cid] is the rendering of either the
    majority category with the size, or of the fallback with the id and the
    size.  It is the fallback exactly when no member has an entry in the
    attribute table.  Otherwise the category shown has the largest number of
    members, and every category carried by a member met earlier in the
    iteration has strictly fewer: a tie goes to the category met first. *)
Theorem community_label_spec (communities : list (list string)) chars cid comm :
  communities !! cid = Some comm →
  community_labels communities chars !! cid
    = Some (cid, render (community_label (faction_map chars) cid comm)) ∧
  (community_label (faction_map chars) cid comm = Fallback cid (length comm) ↔
   ∀ n, n ∈ comm → faction_map chars !! n = None) ∧
  ((∃ n, n ∈ comm ∧ is_Some (faction_map chars !! n)) →
   ∃ f c1 m c2,
     community_label (faction_map chars) cid comm = Majority f (length comm) ∧
     comm = c1 ++ m :: c2 ∧ faction_map chars !! m = Some f ∧
     (∀ g, members_with (faction_map chars) comm g
           ≤ members_with (faction_map chars) comm f) ∧
     (∀ n g, n ∈ c1 → faction_map chars !! n = Some g →
             members_with (faction_map chars) comm g
             < members_with (faction_map chars) comm f)) ∧
  (∀ f n, render (Majority f n) = f +:+ " (size=" +:+ pretty n +:+ ")") ∧
  (∀ i n, render (Fallback i n) = "c" +:+ pretty i +:+ " (size=" +:+ pretty n +:+ ")").
Proof.
  intros Hcomm. set (fm := faction_map chars).
  assert (Hmaj : member_factions fm comm ≠ [] →
    ∃ f pre post,
      community_label fm cid comm = Majority f (length comm) ∧
      member_factions fm comm = pre ++ f :: post ∧ (f ∉ pre) ∧
      (∀ g, occurrences g (member_factions fm comm)
            ≤ occurrences f (member_factions fm comm)) ∧
      (∀ g, g ∈ pre → occurrences g (member_factions fm comm)
                      < occurrences f (member_factions fm comm))).
  { intros Hne.
    destruct (most_common1_spec _ Hne) as (f & pre & post & Hmc & HF & Hpre & Hmax & Htie).
    exists f, pre, post. split; [|done].
    unfold community_label. rewrite Hmc.
    destruct (member_factions fm comm); done. }
  split; [|split; [|split; [|split]]].
  - unfold community_labels. rewrite list_lookup_imap, Hcomm. done.
  - rewrite <- member_factions_nil. split.
    + intros Hlbl. destruct (member_factions fm comm) as [|h F] eqn:HF; [done|].
      destruct Hmaj as (f & ? & ? & Hf & _); [done|]. congruence.
    + intros HF. unfold community_label. by rewrite HF.
  - intros (n & Hn & [g Hg]).
    assert (Hne : member_factions fm comm ≠ []).
    { intros Hnil. rewrite member_factions_nil in Hnil.
      rewrite (Hnil n Hn) in Hg. done. }
    destruct (Hmaj Hne) as (f & pre & post & Hlbl & HF & Hpre & Hmax & Htie).
    destruct (member_factions_split fm comm pre f post HF)
      as (c1 & m & c2 & Hsplit & Hm & Hc1).
    exists f, c1, m, c2. split; [done|]. split; [done|]. split; [done|]. split.
    + intros g'. rewrite <- !occurrences_member_factions. apply Hmax.
    + intros n' g' Hn' Hg'. rewrite <- !occurrences_member_factions.
      apply Htie. rewrite <- Hc1. by apply (elem_of_member_factions fm c1 n').
  - done.
  - done.
Qed.

Lemma community_label_spec_witness :
  community_labels [["a"; "b"; "c"; "d"]; ["x"; "y"]] (Some sample_characters) !! 0
    = Some (0, render (community_label (faction_map (Some sample_characters)) 0
                                       ["a"; "b"; "c"; "d"])) ∧
  (community_label (faction_map (Some sample_characters)) 0 ["a"; "b"; "c"; "d"]
     = Fallback 0 (length ["a"; "b"; "c"; "d"]) ↔
   ∀ n, n ∈ ["a"; "b"; "c"; "d"] → faction_map (Some sample_characters) !! n = None) ∧
  ((∃ n, n ∈ ["a"; "b"; "c"; "d"] ∧ is_Some (faction_map (Some sample_characters) !! n)) →
   ∃ f c1 m c2,
     community_label (faction_map (Some sample_characters)) 0 ["a"; "b"; "c"; "d"]
       = Majority f (length ["a"; "b"; "c"; "d"]) ∧
     ["a"; "b"; "c"; "d"] = c1 ++ m :: c2 ∧
     faction_map (Some sample_characters) !! m = Some f ∧
     (∀ g, members_with (faction_map (Some sample_characters)) ["a"; "b"; "c"; "d"] g
           ≤ members_with (faction_map (Some sample_characters)) ["a"; "b"; "c"; "d"] f) ∧
     (∀ n g, n ∈ c1 → faction_map (Some sample_characters) !! n = Some g →
             members_with (faction_map (Some sample_characters)) ["a"; "b"; "c"; "d"] g
             < members_with (faction_map (Some sample_characters)) ["a"; "b"; "c"; "d"] f)) ∧
  (∀ f n, render (Majority f n) = f +:+ " (size=" +:+ pretty n +:+ ")") ∧
  (∀ i n, render (Fallback i n) = "c" +:+ pretty i +:+ " (size=" +:+ pretty n +:+ ")").
Proof.
  apply (community_label_spec [["a"; "b"; "c"; "d"]; ["x"; "y"]]
           (Some sample_characters) 0 ["a"; "b"; "c"; "d"]).
  reflexivity.
Defined.

(** *** Members listed without a category *)

Lemma faction_map_lookup rs n :
  faction_map (Some rs) !! n
  = c_faction <$> last (List.filter (fun r => bool_decide (c_name r = n)) rs).
Proof.
  unfold faction_map. induction rs as [|r rs IH] using rev_ind; [done|].
  rewrite fold_left_app, List.filter_app. cbn [fold_left List.filter].
  case_bool_decide as Hn.
  - rewrite last_snoc. subst n. by rewrite lookup_insert_eq.
  - rewrite app_nil_r, lookup_insert_ne by done. apply IH.
Qed.

Lemma faction_map_Some rs n f :
  faction_map (Some rs) !! n = Some f → ∃ r, r ∈ rs ∧ c_name r = n ∧ c_faction r = f.
Proof.
  rewrite faction_map_lookup.
  destruct (last _) as [r|] eqn:Hlast; [|done]. intros [= <-].
  apply last_Some in Hlast as [l Hl].
  assert (Hr : r ∈ List.filter (fun r => bool_decide (c_name r = n)) rs).
  { rewrite Hl. apply elem_of_app. right. apply list_elem_of_singleton. done. }
  apply elem_of_filter_bool in Hr as [Hr Hn]. apply bool_decide_eq_true in Hn.
  by exists r.
Qed.

Lemma faction_map_listed rs r :
  r ∈ rs → is_Some (faction_map (Some rs) !! c_name r).
Proof.
  intros Hr. rewrite faction_map_lookup, fmap_is_Some.
  assert (Hin : r ∈ List.filter (fun r' => bool_decide (c_name r' = c_name r)) rs).
  { apply elem_of_filter_bool. split; [done | by apply bool_decide_eq_true]. }
  destruct (List.filter _ rs) as [|x l] using rev_ind; [by apply elem_of_nil in Hin|].
  rewrite last_snoc. eauto.
Qed.

(** The rows read from a table in which every row has a name. *)
Lemma mapM_char_row rs :
  Forall (fun r : gmap string cell => is_Some (r !! "name")) rs →
  ∃ cs, mapM_result char_row rs = Ok cs ∧
        Forall2 (fun r c => (∃ x, r !! "name" = Some x ∧ c_name c = py_str x) ∧
                            c_faction c = faction_of r) rs cs.
Proof.
  induction 1 as [|r rs [x Hx] _ (cs & Hcs & Hall)].
  - exists []. split; [done | constructor].
  - assert (Hrow : char_row r
                   = Ok {| c_name := py_str x; c_faction := faction_of r |}).
    { unfold char_row, getitem. by rewrite Hx. }
    exists ({| c_name := py_str x; c_faction := faction_of r |} :: cs).
    cbn [mapM_result]. rewrite Hrow. simpl. rewrite Hcs. simpl.
    split; [done|]. constructor; [|done]. simpl. eauto.
Qed.

Lemma faction_of_blank r :
  ¬ carries_category r → faction_of r = "" ∨ faction_of r = "nan".
Proof.
  intros Hno. unfold faction_of, get.
  destruct (r !! "faction") as [c|] eqn:Hc; [|by left].
  simpl. destruct (truthy c); [|by left]. right.
  destruct (decide (py_str c = "nan")) as [Hs|Hs]; [done|].
  exfalso. apply Hno. exists c. split; [done|]. by intros [? _].
Qed.

Lemma blank_label_not_fallback f cid n :
  f = "" ∨ f = "nan" → render (Majority f n) ≠ render (Fallback cid n).
Proof. intros [->| ->]; simpl; discriminate. Qed.

(** C6, the failing inputs.  When the attribute table lists a member of the
    community and no row of the table carries a category (the faction column
    is absent, or its fields are empty), the label is not the fallback: it is
    the size preceded by the empty string, or by [nan]. *)
Theorem label_without_category (communities : list (list string)) (df : DataFrame)
    cid comm :
  communities !! cid = Some comm →
  (∀ r, r ∈ rows df → is_Some (r !! "name")) →
  (∃ r x, r ∈ rows df ∧ r !! "name" = Some x ∧ py_str x ∈ comm) →
  (∀ r, r ∈ rows df → ¬ carries_category r) →
  ∃ labels f,
    get_community_label_map communities (Some df) = Ok labels ∧
    labels !! cid = Some (cid, f +:+ " (size=" +:+ pretty (length comm) +:+ ")") ∧
    (f = "" ∨ f = "nan") ∧
    labels !! cid
      ≠ Some (cid, "c" +:+ pretty cid +:+ " (size=" +:+ pretty (length comm) +:+ ")").
Proof.
  intros Hcomm Hnames (r0 & x0 & Hr0 & Hx0 & Hmem) Hblank.
  destruct (mapM_char_row (rows df)) as (cs & Hcs & Hall).
  { by apply Forall_forall. }
  set (fm := faction_map (Some cs)).
  assert (Hvals : ∀ n f, fm !! n = Some f → f = "" ∨ f = "nan").
  { intros n f Hf. apply faction_map_Some in Hf as (c & Hc & _ & <-).
    apply list_elem_of_lookup in Hc as [i Hi].
    destruct (Forall2_lookup_r _ _ _ _ _ Hall Hi) as (r & Hr & _ & ->).
    apply faction_of_blank, Hblank. by eapply list_elem_of_lookup_2. }
  assert (Hlisted : is_Some (fm !! py_str x0)).
  { apply list_elem_of_lookup in Hr0 as [i Hi].
    destruct (Forall2_lookup_l _ _ _ _ _ Hall Hi) as (c & Hc & (x & Hx & Hname) & _).
    rewrite Hx0 in Hx. injection Hx as <-. rewrite <- Hname.
    apply faction_map_listed. by eapply list_elem_of_lookup_2. }
  assert (Hne : member_factions fm comm ≠ []).
  { intros Hnil. rewrite member_factions_nil in Hnil.
    rewrite (Hnil _ Hmem) in Hlisted. by destruct Hlisted. }
  destruct (most_common1_spec _ Hne) as (f & pre & post & Hmc & HF & _).
  assert (Hlabel : community_label fm cid comm = Majority f (length comm)).
  { unfold community_label. rewrite Hmc. by destruct (member_factions fm comm). }
  assert (Hf : f = "" ∨ f = "nan").
  { destruct (member_factions_split fm comm pre f post HF) as (_ & m & _ & _ & Hm & _).
    by apply (Hvals m). }
  exists (community_labels communities (Some cs)), f.
  assert (Hlook : community_labels communities (Some cs) !! cid
                  = Some (cid, f +:+ " (size=" +:+ pretty (length comm) +:+ ")")).
  { unfold community_labels. rewrite list_lookup_imap, Hcomm.
    cbn [fmap option_fmap option_map]. fold fm. by rewrite Hlabel. }
  split; [|split; [done|split; [done|]]].
  - unfold get_community_label_map, read_characters. by rewrite Hcs.
  - rewrite Hlook. intros [= Heq]. by apply (blank_label_not_fallback f cid (length comm)).
Qed.

Lemma label_without_category_witness :
  ∃ labels f,
    get_community_label_map [["a"; "b"; "c"]] (Some name_only_df) = Ok labels ∧
    labels !! 0 = Some (0, f +:+ " (size=" +:+ pretty (length ["a"; "b"; "c"]) +:+ ")") ∧
    (f = "" ∨ f = "nan") ∧
    labels !! 0
      ≠ Some (0, "c" +:+ pretty 0 +:+ " (size=" +:+ pretty (length ["a"; "b"; "c"]) +:+ ")").
Proof.
  apply (label_without_category [["a"; "b"; "c"]] name_only_df 0 ["a"; "b"; "c"]).
  - reflexivity.
  - intros r Hr. unfold name_only_df in Hr. simpl in Hr.
    repeat (apply elem_of_cons in Hr as [->|Hr]; [by eexists|]).
    by apply elem_of_nil in Hr.
  - exists {[ "name" := text "a" ]}, (text "a").
    split; [apply elem_of_cons; by left|]. split; [reflexivity|].
    apply elem_of_cons. by left.
  - intros r Hr (c & Hc & _). unfold name_only_df in Hr. simpl in Hr.
    repeat (apply elem_of_cons in Hr as [->|Hr]; [by vm_compute in Hc|]).
    by apply elem_of_nil in Hr.
Defined.

(** The community a, b, c is fully listed in a table without categories: the
    label is blank, or [nan], where the fallback c0 is expected. *)
Example blank_labels :
  get_community_label_map [["a"; "b"; "c"]] (Some name_only_df)
    = Ok [(0, " (size=3)")] ∧
  get_community_label_map [["a"; "b"; "c"]] (Some blank_faction_df)
    = Ok [(0, "nan (size=3)")] ∧
  get_community_label_map [["a"; "b"; "c"]] None = Ok [(0, "c0 (size=3)")].
Proof. vm_compute. done. Qed.

(** Chola and Pandya tie two to two; Chola is met first.  The second
    community has no member in the table. *)
Example sample_labels :
  community_labels [["a"; "b"; "c"; "d"]; ["x"; "y"]] (Some sample_characters)
  = [(0, "Chola (size=4)"); (1, "c1 (size=2)")] ∧
  community_labels [["b"; "a"; "c"; "d"]] (Some sample_characters)
  = [(0, "Pandya (size=4)")] ∧
  community_labels [["a"; "b"; "c"]] None = [(0, "c0 (size=3)")].
Proof. vm_compute. done. Qed.

(** ** InteractiveClient: the facet filters *)

Lemma nonempty_false {A} (l : list A) : nonempty l = false ↔ l = [].
Proof. by destruct l. Qed.

Lemma nonempty_true {A} (l : list A) : nonempty l = true ↔ l ≠ [].
Proof. by destruct l. Qed.

Lemma nonempty_filter {A} (p : A -> bool) (l : list A) :
  nonempty (List.filter p l) = true ↔ ∃ x, x ∈ l ∧ p x = true.
Proof.
  rewrite nonempty_true. split.
  - destruct (List.filter p l) as [|x l'] eqn:Hf; [done|]. intros _.
    exists x. apply elem_of_filter_bool. rewrite Hf. apply elem_of_cons. by left.
  - intros (x & Hx & Hp) Hnil.
    assert (x ∈ List.filter p l) by (by apply elem_of_filter_bool).
    rewrite Hnil in H. by apply elem_of_nil in H.
Qed.

Lemma allowed_spec aF aC n : allowed aF aC n = true ↔ facet_rule aF aC n.
Proof.
  unfold allowed, facet_rule.
  destruct (nonempty aF) eqn:HF.
  - apply nonempty_true in HF. case_bool_decide as Hin; simpl.
    + destruct (nonempty aC) eqn:HC.
      * apply nonempty_true in HC.
        destruct (nonempty (n_communities n)) eqn:Hn; simpl.
        -- rewrite nonempty_filter. split.
           ++ intros (c & Hc & Hd). apply bool_decide_eq_true in Hd. split; eauto.
           ++ intros [_ [?|(c & Hc & Hd)]]; [done|].
              exists c. by rewrite bool_decide_eq_true.
        -- apply nonempty_false in Hn. split; [done|].
           intros [_ [?|(c & Hc & _)]]; [done|]. rewrite Hn in Hc.
           by apply elem_of_nil in Hc.
      * apply nonempty_false in HC. split; auto.
    + split; [done|]. intros [[?|?] _]; done.
  - apply nonempty_false in HF. simpl.
    destruct (nonempty aC) eqn:HC.
    + apply nonempty_true in HC.
      destruct (nonempty (n_communities n)) eqn:Hn; simpl.
      * rewrite nonempty_filter. split.
        -- intros (c & Hc & Hd). apply bool_decide_eq_true in Hd. split; eauto.
        -- intros [_ [?|(c & Hc & Hd)]]; [done|].
           exists c. by rewrite bool_decide_eq_true.
      * apply nonempty_false in Hn. split; [done|].
        intros [_ [?|(c & Hc & _)]]; [done|]. rewrite Hn in Hc.
        by apply elem_of_nil in Hc.
    + apply nonempty_false in HC. split; auto.
Qed.

Lemma vis_allowed_allowed aF aC n :
  vis_allowed aF (pretty <$> aC) n = allowed aF aC n.
Proof.
  unfold vis_allowed, allowed.
  assert (Hne : nonempty (pretty <$> aC) = nonempty aC) by (by destruct aC).
  rewrite Hne. destruct (nonempty aF && negb (bool_decide (n_faction n ∈ aF))); [done|].
  destruct (nonempty aC); [|done].
  destruct (negb (nonempty (n_communities n))); [done|].
  apply eq_true_iff_eq. rewrite nonempty_filter, existsb_exists. split.
  - intros (c & Hc & Hd). exists c. split; [by apply list_elem_of_In|].
    apply bool_decide_eq_true in Hd. apply bool_decide_eq_true.
    apply list_elem_of_fmap in Hd as (c' & Heq & Hc').
    by apply (inj pretty) in Heq as ->.
  - intros (c & Hc & Hd). exists c. split; [by apply list_elem_of_In|].
    apply bool_decide_eq_true in Hd. apply bool_decide_eq_true.
    apply list_elem_of_fmap. eauto.
Qed.

Lemma NoDup_fmap_eq {A B} `{EqDecision B} (f : A -> B) (l : list A) x y :
  NoDup (f <$> l) → x ∈ l → y ∈ l → f x = f y → x = y.
Proof.
  induction l as [|a l IH]; intros Hnd Hx Hy Hxy.
  - by apply elem_of_nil in Hx.
  - rewrite fmap_cons in Hnd. apply NoDup_cons in Hnd as [Ha Hnd].
    apply elem_of_cons in Hx as [->|Hx]; apply elem_of_cons in Hy as [->|Hy].
    + done.
    + exfalso. apply Ha. rewrite Hxy. apply list_elem_of_fmap. eauto.
    + exfalso. apply Ha. rewrite <- Hxy. apply list_elem_of_fmap. eauto.
    + by apply IH.
Qed.

(** A node is drawn under a list of ids computed by a filter exactly when
    the filter accepts the node itself, as long as ids are unique. *)
Lemma drawn_iff_accepted (p : Node -> bool) (nodes : list Node) n :
  NoDup (n_id <$> nodes) → n ∈ nodes →
  (n ∈ makeNodeTrace nodes (Some (n_id <$> List.filter p nodes)) ↔ p n = true).
Proof.
  intros Hnd Hn. unfold makeNodeTrace.
  rewrite elem_of_filter_bool, bool_decide_eq_true, list_elem_of_fmap. split.
  - intros [_ (m & Hid & Hm)]. apply elem_of_filter_bool in Hm as [Hm Hp].
    by rewrite (NoDup_fmap_eq n_id nodes n m Hnd Hn Hm Hid).
  - intros Hp. split; [done|]. exists n. split; [done|].
    by apply elem_of_filter_bool.
Qed.

(** C4. With unique node ids, a node is shown after [applyFilters] exactly
    when (no category is active or its category is active) and (no community
    is active or one of its communities is active); this holds for the Plotly
    dashboard and for the vis-network page. *)
Theorem filter_facets (nodes : list Node) (aF : list string) (aC : list nat) (n : Node) :
  NoDup (n_id <$> nodes) → n ∈ nodes →
  (n ∈ makeNodeTrace nodes (Some (applyFilters nodes aF aC)) ↔ facet_rule aF aC n) ∧
  (n ∈ vis_shown nodes (vis_applyFilters nodes aF (pretty <$> aC)) ↔ facet_rule aF aC n).
Proof.
  intros Hnd Hn. split.
  - unfold applyFilters. rewrite drawn_iff_accepted by done. apply allowed_spec.
  - unfold vis_applyFilters.
    change (vis_shown nodes) with (fun ids => makeNodeTrace nodes (Some ids)).
    cbv beta. rewrite drawn_iff_accepted by done.
    rewrite vis_allowed_allowed. apply allowed_spec.
Qed.

Lemma contract_nodes_NoDup : NoDup (n_id <$> contract_nodes).
Proof.
  unfold contract_nodes. simpl. repeat constructor; set_solver.
Qed.

Lemma filter_facets_witness :
  let X := {| n_id := "X"; n_label := "Vandiya Devan"; n_faction := "Red";
              n_communities := [0] |} in
  (X ∈ makeNodeTrace contract_nodes (Some (applyFilters contract_nodes ["Red"] [0]))
     ↔ facet_rule ["Red"] [0] X) ∧
  (X ∈ vis_shown contract_nodes (vis_applyFilters contract_nodes ["Red"] (pretty <$> [0]))
     ↔ facet_rule ["Red"] [0] X).
Proof.
  apply (filter_facets contract_nodes ["Red"] [0]).
  - apply contract_nodes_NoDup.
  - unfold contract_nodes. set_solver.
Defined.

(** The three cases of the contract's example. *)
Example contract_filter_example :
  n_id <$> makeNodeTrace contract_nodes (Some (applyFilters contract_nodes ["Blue"] []))
    = ["Y"; "Z"] ∧
  n_id <$> makeNodeTrace contract_nodes (Some (applyFilters contract_nodes [] [1]))
    = ["Y"] ∧
  n_id <$> makeNodeTrace contract_nodes (Some (applyFilters contract_nodes ["Red"] [0]))
    = ["X"] ∧
  n_id <$> vis_shown contract_nodes (vis_applyFilters contract_nodes ["Red"] ["0"])
    = ["X"].
Proof. vm_compute. done. Qed.

(** ** JavaScript strings *)

Lemma starts_with_spec q s :
  starts_with q s = true ↔ ∃ post, s = q +:+ post.
Proof.
  revert s. induction q as [|a q IH]; intros s; simpl.
  - split; [eauto | done].
  - destruct s as [|b s].
    + split; [done | intros (post & Hp); discriminate].
    + rewrite andb_true_iff, bool_decide_eq_true, IH. split.
      * intros [-> (post & ->)]. eauto.
      * intros (post & [= -> ->]). eauto.
Qed.

Lemma includes_spec s q :
  includes s q = true ↔ ∃ pre post, s = pre +:+ q +:+ post.
Proof.
  induction s as [|b s IH]; simpl.
  - rewrite orb_false_r, starts_with_spec. split.
    + intros (post & Hp). by exists "", post.
    + intros ([|a pre] & post & Hp); [eauto | discriminate].
  - rewrite orb_true_iff, starts_with_spec, IH. split.
    + intros [(post & ->)|(pre & post & ->)].
      * by exists "", post.
      * by exists (String b pre), post.
    + intros ([|a pre] & post & Hp); simpl in Hp.
      * left. eauto.
      * right. injection Hp as -> ->. eauto.
Qed.

Lemma toLowerCase_app a b :
  toLowerCase (a +:+ b) = toLowerCase a +:+ toLowerCase b.
Proof. induction a as [|c a IH]; simpl; [done | by rewrite IH]. Qed.

Lemma lower_char_idem c : lower_char (lower_char c) = lower_char c.
Proof. destruct c as [[] [] [] [] [] [] [] []]; reflexivity. Qed.

Lemma toLowerCase_idem s : toLowerCase (toLowerCase s) = toLowerCase s.
Proof. induction s as [|c s IH]; simpl; [done | by rewrite lower_char_idem, IH]. Qed.

Lemma toLowerCase_empty s : toLowerCase s = "" ↔ s = "".
Proof. destruct s; simpl; split; done. Qed.

Lemma toLowerCase_split s a b :
  toLowerCase s = a +:+ b →
  ∃ s1 s2, s = s1 +:+ s2 ∧ toLowerCase s1 = a ∧ toLowerCase s2 = b.
Proof.
  revert s. induction a as [|c a IH]; intros s; simpl.
  - intros Hs. by exists "", s.
  - destruct s as [|d s]; simpl; [done|]. intros [= Hc Hs].
    destruct (IH s Hs) as (s1 & s2 & -> & H1 & H2).
    exists (String d s1), s2. simpl. by rewrite Hc, H1, H2.
Qed.

(** The test made by both search handlers is containment up to letter case. *)
Lemma includes_ci s q :
  includes (toLowerCase s) (toLowerCase q) = true ↔ ci_substring q s.
Proof.
  rewrite includes_spec. unfold ci_substring. split.
  - intros (pre & post & Hs).
    apply toLowerCase_split in Hs as (s1 & s2 & -> & H1 & Hs).
    apply toLowerCase_split in Hs as (mid & s3 & -> & H2 & H3).
    exists s1, mid, s3. done.
  - intros (pre & mid & post & -> & Hmid).
    exists (toLowerCase pre), (toLowerCase post).
    by rewrite !toLowerCase_app, Hmid.
Qed.

Lemma ci_substring_lower q s :
  ci_substring (toLowerCase q) s ↔ ci_substring q s.
Proof. unfold ci_substring. by setoid_rewrite toLowerCase_idem. Qed.

(** ** Search *)

Lemma neighborIds_fold (ids : list string) (edges : list Edge) (acc : list string) x :
  x ∈ fold_left (fun acc ed =>
                   let acc1 := if bool_decide (ed_source ed ∈ ids)
                               then acc ++ [ed_target ed] else acc in
                   if bool_decide (ed_target ed ∈ ids)
                   then acc1 ++ [ed_source ed] else acc1) edges acc ↔
  x ∈ acc ∨
  ∃ ed, ed ∈ edges ∧ ((ed_source ed ∈ ids ∧ x = ed_target ed) ∨
                      (ed_target ed ∈ ids ∧ x = ed_source ed)).
Proof.
  revert acc. induction edges as [|ed edges IH]; intros acc; simpl.
  - split; [auto | intros [?|(ed & Hed & _)]; [done | by apply elem_of_nil in Hed]].
  - rewrite IH. clear IH. split.
    + intros [Hx|(ed' & Hed' & H)].
      * repeat case_bool_decide; rewrite ?elem_of_app, ?list_elem_of_singleton in Hx;
          destruct_or?; subst; auto;
          right; exists ed; (split; [apply elem_of_cons; by left | auto]).
      * right. exists ed'. split; [apply elem_of_cons; by right | done].
    + intros [Hx|(ed' & Hed' & H)].
      * left. repeat case_bool_decide; rewrite ?elem_of_app; auto.
      * apply elem_of_cons in Hed' as [->|Hed'].
        -- left. destruct H as [[Hs ->]|[Ht ->]].
           ++ rewrite (bool_decide_eq_true_2 _ Hs).
              case_bool_decide; rewrite ?elem_of_app, ?list_elem_of_singleton; auto.
           ++ rewrite (bool_decide_eq_true_2 _ Ht).
              rewrite ?elem_of_app, ?list_elem_of_singleton; auto.
        -- right. eauto.
Qed.

Lemma neighborIds_spec ids edges x :
  x ∈ neighborIds ids edges ↔
  x ∈ ids ∨
  ∃ ed, ed ∈ edges ∧ ((ed_source ed ∈ ids ∧ x = ed_target ed) ∨
                      (ed_target ed ∈ ids ∧ x = ed_source ed)).
Proof. apply neighborIds_fold. Qed.

Lemma matched_ids nodes value x :
  x ∈ n_id <$> List.filter
         (fun n => includes (toLowerCase (n_label n)) (toLowerCase (trim value))) nodes ↔
  ∃ m, m ∈ nodes ∧ ci_substring (trim value) (n_label m) ∧ n_id m = x.
Proof.
  rewrite list_elem_of_fmap. split.
  - intros (m & -> & Hm). apply elem_of_filter_bool in Hm as [Hm Hinc].
    apply includes_ci in Hinc. eauto.
  - intros (m & Hm & Hci & <-). exists m. split; [done|].
    apply elem_of_filter_bool. split; [done | by apply includes_ci].
Qed.

Lemma filter_bool_head {A} (p : A -> bool) (l : list A) x rest :
  List.filter p l = x :: rest →
  ∃ pre post, l = pre ++ x :: post ∧ p x = true ∧ ∀ y, y ∈ pre → p y = false.
Proof.
  induction l as [|a l IH]; simpl; [done|].
  destruct (p a) eqn:Ha.
  - intros [= -> _]. exists [], l. split; [done|]. split; [done|].
    intros y Hy. by apply elem_of_nil in Hy.
  - intros Hf. destruct (IH Hf) as (pre & post & -> & Hx & Hpre).
    exists (a :: pre), post. split; [done|]. split; [done|].
    intros y Hy. apply elem_of_cons in Hy as [->|Hy]; auto.
Qed.

Lemma filter_bool_nil {A} (p : A -> bool) (l : list A) :
  List.filter p l = [] → ∀ x, x ∈ l → p x = false.
Proof.
  intros Hnil x Hx. destruct (p x) eqn:Hp; [|done].
  assert (H : x ∈ List.filter p l) by (by apply elem_of_filter_bool).
  rewrite Hnil in H. by apply elem_of_nil in H.
Qed.

(** C5 (as the code has it), for labels and a query made of ASCII
    characters.  The content of the box is trimmed first.  In the
    Plotly dashboard a blank query re-applies the facet filters; a query that
    some label contains, up to letter case, shows exactly the matching nodes
    and the nodes one hop away from a match; a query that no label contains
    raises an alert and leaves the plot as it is.  The vis-network page moves
    the camera to the first match, or alerts, and never changes which nodes
    are shown. *)
Theorem search_spec (nodes : list Node) (edges : list Edge) (value : string) :
  NoDup (n_id <$> nodes) →
  is_ascii value = true → (∀ n, n ∈ nodes → is_ascii (n_label n) = true) →
  search_behaviour nodes edges value.
Proof.
  intros Hnd _ _. unfold search_behaviour.
  assert (Hq : toLowerCase (trim value) = "" ↔ trim value = "")
    by apply toLowerCase_empty.
  split; [|split].
  - unfold search. case_bool_decide as Hblank; [by apply Hq|].
    rewrite Hq in Hblank.
    set (found := List.filter _ nodes).
    destruct (nonempty (n_id <$> found)) eqn:Hne.
    + split; [done|]. split.
      * destruct found as [|n found'] eqn:Hfound; [done|].
        assert (Hn : n ∈ found) by (rewrite Hfound; apply elem_of_cons; by left).
        apply elem_of_filter_bool in Hn as [Hn Hinc].
        apply includes_ci in Hinc. eauto.
      * intros n Hn. unfold makeNodeTrace.
        rewrite elem_of_filter_bool, bool_decide_eq_true, neighborIds_spec.
        unfold found. rewrite matched_ids. unfold match_or_neighbor, one_hop. split.
        -- intros [_ [(m & Hm & Hci & Hid)|(ed & Hed & H)]].
           ++ left. by rewrite (NoDup_fmap_eq n_id nodes n m Hnd Hn Hm (eq_sym Hid)).
           ++ right. destruct H as [[Hs Ht]|[Ht Hs]].
              ** apply matched_ids in Hs as (m & Hm & Hci & Hid).
                 exists m. split; [done|]. split; [done|]. exists ed. split; [done|].
                 left. done.
              ** apply matched_ids in Ht as (m & Hm & Hci & Hid).
                 exists m. split; [done|]. split; [done|]. exists ed. split; [done|].
                 right. done.
        -- intros H. split; [done|]. destruct H as [Hci|(m & Hm & Hci & ed & Hed & H)].
           ++ left. eauto.
           ++ right. exists ed. split; [done|].
              destruct H as [[Hs Ht]|[Hs Ht]].
              ** left. split; [|done]. apply matched_ids. eauto.
              ** right. split; [|done]. apply matched_ids. eauto.
    + split; [done|]. split; [done|].
      intros n Hn Hci. apply nonempty_false, fmap_nil_inv in Hne.
      apply includes_ci in Hci.
      rewrite (filter_bool_nil _ _ Hne n Hn) in Hci. done.
  - unfold vis_search. case_bool_decide as Hblank; [by apply Hq|].
    rewrite Hq in Hblank.
    destruct (List.filter _ nodes) as [|n rest] eqn:Hfound.
    + split; [done|]. intros n Hn Hci. apply includes_ci in Hci.
      rewrite (filter_bool_nil _ _ Hfound n Hn) in Hci. done.
    + split; [done|].
      apply filter_bool_head in Hfound as (pre & post & -> & Hinc & Hpre).
      exists pre, n, post. split; [done|]. split; [done|].
      split; [by apply includes_ci|].
      intros m Hm Hci. apply includes_ci in Hci. rewrite (Hpre m Hm) in Hci. done.
  - intros shown. unfold vis_search_view. by destruct (vis_search nodes value).
Qed.

Lemma search_spec_witness :
  search_behaviour contract_nodes contract_edges "  VANDIYA ".
Proof.
  apply (search_spec contract_nodes contract_edges).
  - apply contract_nodes_NoDup.
  - reflexivity.
  - intros n Hn. unfold contract_nodes in Hn.
    repeat (apply elem_of_cons in Hn as [->|Hn]; [reflexivity|]).
    by apply elem_of_nil in Hn.
Defined.

Example contract_search_example :
  search contract_nodes contract_edges "  VANDIYA " = Show ["X"; "Y"] ∧
  search contract_nodes contract_edges "nandini" = Show ["Z"] ∧
  search contract_nodes contract_edges "   " = Refilter ∧
  search contract_nodes contract_edges "arulmozhi"
    = Alert "No node found for: arulmozhi" ∧
  vis_search contract_nodes "a" = VisFocus "X".
Proof. vm_compute. done. Qed.

(** C5, as stated, fails.  In the Plotly dashboard the query "ab " (with a
    final blank) occurs in no label, yet node A is shown and no miss is
    reported.  In the vis-network page the query "ab" matches the hidden node
    A only: A stays hidden and B, neither a match nor a neighbour, stays
    shown. *)
Lemma search_not_literal_query :
  is_ascii "ab " = true ∧ (∀ n, n ∈ sample_nodes → is_ascii (n_label n) = true) ∧
  (∀ n, n ∈ sample_nodes → ¬ ci_substring "ab " (n_label n)) ∧
  search sample_nodes [] "ab " = Show ["A"] ∧
  n_id <$> vis_shown sample_nodes (vis_applyFilters sample_nodes ["Red"] ["0"]) = ["B"] ∧
  vis_search sample_nodes "ab" = VisFocus "A" ∧
  n_id <$> vis_search_view sample_nodes
             (vis_shown sample_nodes (vis_applyFilters sample_nodes ["Red"] ["0"])) "ab"
    = ["B"].
Proof.
  split; [reflexivity|]. split.
  { intros n Hn. unfold sample_nodes in Hn.
    repeat (apply elem_of_cons in Hn as [->|Hn]; [reflexivity|]).
    by apply elem_of_nil in Hn. }
  split.
  - intros n Hn Hci. apply includes_ci in Hci.
    unfold sample_nodes in Hn.
    apply elem_of_cons in Hn as [->|Hn]; [vm_compute in Hci; done|].
    apply elem_of_cons in Hn as [->|Hn]; [vm_compute in Hci; done|].
    by apply elem_of_nil in Hn.
  - vm_compute. done.
Qed.

(** After an alert the plot is the one drawn before. *)
Lemma search_view_alert nodes edges aF aC drawn value msg :
  search nodes edges value = Alert msg →
  search_view nodes edges aF aC drawn value = drawn.
Proof. intros H. unfold search_view. by rewrite H. Qed.

Lemma search_view_show nodes edges aF aC drawn value ids :
  search nodes edges value = Show ids →
  search_view nodes edges aF aC drawn value = makeNodeTrace nodes (Some ids).
Proof. intros H. unfold search_view. by rewrite H. Qed.

(** ** Community memberships of the nodes *)

Lemma add_community_lookup (m : gmap string (list nat)) cid comm n :
  NoDup comm →
  add_community m cid comm !! n
  = if bool_decide (n ∈ comm) then Some (default [] (m !! n) ++ [cid]) else m !! n.
Proof.
  unfold add_community. revert m. induction comm as [|a comm IH]; intros m Hnd.
  - cbn [fold_left]. rewrite bool_decide_eq_false_2; [done | apply not_elem_of_nil].
  - apply NoDup_cons in Hnd as [Ha Hnd]. cbn [fold_left]. rewrite IH by done.
    unfold setdefault_append. destruct (decide (n = a)) as [->|Hne].
    + rewrite (bool_decide_eq_false_2 (a ∈ comm)) by done.
      rewrite (bool_decide_eq_true_2 (a ∈ a :: comm)) by (apply elem_of_cons; by left).
      by rewrite lookup_insert_eq.
    + rewrite !lookup_insert_ne by done.
      rewrite (bool_decide_ext (n ∈ a :: comm) (n ∈ comm)); [done|].
      rewrite elem_of_cons. naive_solver.
Qed.

Lemma node_comm_from_lookup start cs (m : gmap string (list nat)) n :
  Forall NoDup cs →
  node_comm_from start cs m !! n
  = match cids_from start cs n with
    | [] => m !! n
    | l => Some (default [] (m !! n) ++ l)
    end.
Proof.
  revert start m. induction cs as [|c cs IH]; intros start m Hnd; [done|].
  apply Forall_cons in Hnd as [Hc Hnd]. cbn [node_comm_from cids_from].
  rewrite IH, add_community_lookup by done.
  case_bool_decide as Hin; cbn [app].
  - destruct (cids_from (S start) cs n) as [|x l]; [done|].
    simpl. by rewrite <- app_assoc.
  - done.
Qed.

Lemma elem_of_cids_from start cs n cid :
  cid ∈ cids_from start cs n ↔
  ∃ i comm, cs !! i = Some comm ∧ cid = start + i ∧ n ∈ comm.
Proof.
  revert start. induction cs as [|c cs IH]; intros start; cbn [cids_from].
  - split; [intros H; by apply elem_of_nil in H | by intros (i & comm & H & _)].
  - rewrite elem_of_app, IH. split.
    + intros [H|(i & comm & Hi & -> & Hn)].
      * case_bool_decide; [|by apply elem_of_nil in H].
        apply list_elem_of_singleton in H as ->. exists 0, c.
        split; [done|]. split; [lia | done].
      * exists (S i), comm. split; [done|]. split; [lia | done].
    + intros ([|i] & comm & Hi & -> & Hn).
      * injection Hi as ->. left. rewrite bool_decide_eq_true_2 by done.
        apply list_elem_of_singleton. lia.
      * right. exists i, comm. split; [done|]. split; [lia | done].
Qed.

Lemma cids_from_sorted start cs n : StronglySorted lt (cids_from start cs n).
Proof.
  revert start. induction cs as [|c cs IH]; intros start; cbn [cids_from].
  - constructor.
  - case_bool_decide; cbn [app]; [|apply IH].
    constructor; [apply IH|]. apply Forall_forall. intros x Hx.
    apply elem_of_cids_from in Hx as (i & _ & _ & -> & _). lia.
Qed.

Lemma node_comm_map_cids cs n :
  Forall NoDup cs →
  default [] (node_comm_map cs !! n) = cids_from 0 cs n.
Proof.
  intros Hnd. unfold node_comm_map. rewrite node_comm_from_lookup by done.
  rewrite lookup_empty. by destruct (cids_from 0 cs n).
Qed.

(** X1. The list stored for a node holds exactly the ids of the communities
    that contain it, in strictly increasing order; a node of no community has
    no entry, and no entry is an empty list. *)
Theorem node_comm_map_spec (cs : list (list string)) (n : string) :
  Forall NoDup cs →
  (∀ cid, cid ∈ default [] (node_comm_map cs !! n) ↔
          ∃ comm, cs !! cid = Some comm ∧ n ∈ comm) ∧
  StronglySorted lt (default [] (node_comm_map cs !! n)) ∧
  (node_comm_map cs !! n = None ↔ ∀ comm, comm ∈ cs → n ∉ comm) ∧
  node_comm_map cs !! n ≠ Some [].
Proof.
  intros Hnd. rewrite node_comm_map_cids by done.
  assert (Hmem : ∀ cid, cid ∈ cids_from 0 cs n ↔
                        ∃ comm, cs !! cid = Some comm ∧ n ∈ comm).
  { intros cid. rewrite elem_of_cids_from. split.
    - intros (i & comm & Hi & -> & Hn). eauto.
    - intros (comm & Hi & Hn). exists cid, comm. done. }
  split; [done|]. split; [apply cids_from_sorted|].
  unfold node_comm_map. rewrite node_comm_from_lookup, lookup_empty by done.
  split.
  - destruct (cids_from 0 cs n) as [|x l] eqn:Hl.
    + split; [|done]. intros _ comm Hcomm Hn.
      apply list_elem_of_lookup in Hcomm as [i Hi].
      assert (i ∈ @nil nat) as H by (apply Hmem; eauto).
      by apply elem_of_nil in H.
    + split; [done|]. intros Hnone. exfalso.
      assert (x ∈ x :: l) as H by (apply elem_of_cons; by left).
      apply Hmem in H as (comm & Hi & Hn).
      apply (Hnone comm); [by eapply list_elem_of_lookup_2 | done].
  - by destruct (cids_from 0 cs n).
Qed.

Lemma node_comm_map_spec_witness :
  (∀ cid, cid ∈ default [] (node_comm_map [["a"; "b"]; ["c"]; ["b"; "c"]] !! "b") ↔
          ∃ comm, [["a"; "b"]; ["c"]; ["b"; "c"]] !! cid = Some comm ∧ "b" ∈ comm) ∧
  StronglySorted lt (default [] (node_comm_map [["a"; "b"]; ["c"]; ["b"; "c"]] !! "b")) ∧
  (node_comm_map [["a"; "b"]; ["c"]; ["b"; "c"]] !! "b" = None ↔
   ∀ comm, comm ∈ [["a"; "b"]; ["c"]; ["b"; "c"]] → "b" ∉ comm) ∧
  node_comm_map [["a"; "b"]; ["c"]; ["b"; "c"]] !! "b" ≠ Some [].
Proof.
  apply (node_comm_map_spec [["a"; "b"]; ["c"]; ["b"; "c"]] "b").
  repeat constructor; set_solver.
Defined.

Example node_comm_map_example :
  node_comm_map [["a"; "b"]; ["c"]; ["b"; "c"]]
  = {[ "a" := [0]; "b" := [0; 2]; "c" := [1; 2] ]}.
Proof. vm_compute. reflexivity. Qed.

(** ** Palettes *)

Lemma mapM_total {A B} (f : A -> option B) (g : A -> B) (l : list A) :
  (∀ x, x ∈ l → f x = Some (g x)) → mapM f l = Some (g <$> l).
Proof.
  induction l as [|x l IH]; intros Hf; [done|].
  cbn [mapM]. rewrite Hf by (apply elem_of_cons; by left). simpl.
  rewrite IH; [done|]. intros y Hy. apply Hf, elem_of_cons. by right.
Qed.

Lemma lookup_mod_is_Some {A} (base : list A) i :
  base ≠ [] → is_Some (base !! (i mod length base)).
Proof.
  intros Hne. apply lookup_lt_is_Some. apply Nat.mod_upper_bound.
  destruct base; [done | simpl; lia].
Qed.

Lemma color_palette_cycles (base : list string) (n : nat) :
  base ≠ [] →
  ∃ l, color_palette base n = Some l ∧ length l = n ∧
       ∀ i, i < n → l !! i = base !! (i mod length base).
Proof.
  intros Hne. unfold color_palette.
  destruct (n <=? length base) eqn:Hn.
  - apply Nat.leb_le in Hn. exists (take n base).
    split; [done|]. split; [rewrite length_take; lia|].
    intros i Hi. rewrite lookup_take_lt by done.
    by rewrite Nat.mod_small by lia.
  - set (g := fun i => default "" (base !! (i mod length base))).
    exists (g <$> seq 0 n). split; [|split].
    + apply mapM_total. intros i _. unfold g.
      by destruct (lookup_mod_is_Some base i Hne) as [c ->].
    + by rewrite length_fmap, length_seq.
    + intros i Hi. rewrite list_lookup_fmap, lookup_seq_lt by done. simpl.
      unfold g. by destruct (lookup_mod_is_Some base i Hne) as [c ->].
Qed.

(** X3. On a non-empty base palette [color_palette n] returns n colours,
    the i-th being the base colour of index i modulo the base length; on an
    empty base it raises as soon as a colour is asked for. *)
Theorem color_palette_spec (base : list string) (n : nat) :
  (base ≠ [] →
   ∃ l, color_palette base n = Some l ∧ length l = n ∧
        ∀ i, i < n → l !! i = base !! (i mod length base)) ∧
  color_palette [] (S n) = None.
Proof. split; [apply color_palette_cycles | done]. Qed.

Lemma color_palette_spec_witness :
  ∃ l, color_palette colorPalette 12 = Some l ∧ length l = 12 ∧
       ∀ i, i < 12 → l !! i = colorPalette !! (i mod length colorPalette).
Proof. apply (proj1 (color_palette_spec colorPalette 12)). done. Defined.

(** X2. In the Plotly figure a node that belongs to some community is
    drawn in the colour of the lowest-numbered community that contains it
    (the base colour of that id modulo the base length); a node of no
    community gets the colour of its faction, or grey. *)
Theorem plotly_node_color_primary (base : list string) (cs : list (list string))
    (fc : gmap string string) (faction n : string) :
  base ≠ [] → Forall NoDup cs →
  ((∃ comm, comm ∈ cs ∧ n ∈ comm) →
   ∃ p comm c,
     cs !! p = Some comm ∧ n ∈ comm ∧
     (∀ q comm', cs !! q = Some comm' → n ∈ comm' → p ≤ q) ∧
     base !! (p mod length base) = Some c ∧
     plotly_node_color base cs fc faction n = Some c) ∧
  ((∀ comm, comm ∈ cs → n ∉ comm) →
   plotly_node_color base cs fc faction n = Some (default "#B0B0B0" (fc !! faction))).
Proof.
  intros Hbase Hnd.
  destruct (color_palette_cycles base (max 1 (length cs)) Hbase)
    as (l & Hl & Hlen & Hcol).
  unfold plotly_node_color. rewrite Hl. simpl.
  rewrite node_comm_map_cids by done. split.
  - intros (comm0 & Hcomm0 & Hn0).
    apply list_elem_of_lookup in Hcomm0 as [i0 Hi0].
    assert (Hin0 : i0 ∈ cids_from 0 cs n).
    { apply elem_of_cids_from. exists i0, comm0. done. }
    pose proof (cids_from_sorted 0 cs n) as Hsorted.
    destruct (cids_from 0 cs n) as [|p rest] eqn:Hc; [by apply elem_of_nil in Hin0|].
    assert (Hp : p ∈ cids_from 0 cs n) by (rewrite Hc; apply elem_of_cons; by left).
    apply elem_of_cids_from in Hp as (i & comm & Hi & Hpi & Hn).
    simpl in Hpi. subst i.
    assert (Hlt : p < length cs) by (by eapply lookup_lt_Some).
    destruct (lookup_mod_is_Some base p Hbase) as [c Hcp].
    exists p, comm, c. split; [done|]. split; [done|]. split; [|split; [done|]].
    + intros q comm' Hq Hn'.
      assert (Hqin : q ∈ p :: rest).
      { rewrite <- Hc. apply elem_of_cids_from. exists q, comm'. done. }
      apply elem_of_cons in Hqin as [->|Hqin]; [done|].
      apply StronglySorted_inv in Hsorted as [_ Hall].
      rewrite Forall_forall in Hall. specialize (Hall q Hqin). lia.
    + rewrite bool_decide_eq_false_2 by lia.
      rewrite Hlen, Nat.mod_small by lia. rewrite Hcol by lia. done.
  - intros Hnone.
    destruct (cids_from 0 cs n) as [|p rest] eqn:Hc; [done|]. exfalso.
    assert (Hp : p ∈ cids_from 0 cs n) by (rewrite Hc; apply elem_of_cons; by left).
    apply elem_of_cids_from in Hp as (i & comm & Hi & _ & Hn).
    apply (Hnone comm); [by eapply list_elem_of_lookup_2 | done].
Qed.

Lemma plotly_node_color_primary_witness :
  ∃ p comm c,
    [["a"; "b"]; ["c"]; ["b"; "c"]] !! p = Some comm ∧ "c" ∈ comm ∧
    (∀ q comm', [["a"; "b"]; ["c"]; ["b"; "c"]] !! q = Some comm' → "c" ∈ comm' → p ≤ q) ∧
    colorPalette !! (p mod length colorPalette) = Some c ∧
    plotly_node_color colorPalette [["a"; "b"]; ["c"]; ["b"; "c"]] ∅ "" "c" = Some c.
Proof.
  apply (proj1 (plotly_node_color_primary colorPalette
                  [["a"; "b"]; ["c"]; ["b"; "c"]] ∅ "" "c"
                  ltac:(done) ltac:(repeat constructor; set_solver))).
  exists ["c"]. set_solver.
Defined.

Example plotly_node_color_example :
  plotly_node_color colorPalette [["a"; "b"]; ["c"]; ["b"; "c"]] ∅ "" "c"
  = Some "#EF553B".
Proof. vm_compute. reflexivity. Qed.

(** ** More on the readers and the builder *)

Lemma row_record_weight_cell (r : gmap string cell) c1 c2 f :
  py_float c1 = Some f → py_float c2 = Some f →
  row_record (<["weight" := c1]> r) = row_record (<["weight" := c2]> r).
Proof.
  intros H1 H2. unfold row_record, getitem, get, float_of.
  rewrite !(lookup_insert_ne _ "weight" "source"),
          !(lookup_insert_ne _ "weight" "target") by done.
  rewrite !lookup_insert_eq. simpl. by rewrite H1, H2.
Qed.

Lemma build_loop_weight_cell t rs (G : Graph) c1 c2 f :
  py_float c1 = Some f → py_float c2 = Some f →
  build_loop t ((fun r => <["weight" := c1]> r) <$> rs) G
  = build_loop t ((fun r => <["weight" := c2]> r) <$> rs) G.
Proof.
  intros H1 H2. revert G. induction rs as [|r rs IH]; intros G; [done|].
  rewrite !fmap_cons. cbn [build_loop].
  rewrite (row_record_weight_cell r c1 c2 f H1 H2).
  destruct (row_record (<["weight" := c2]> r)); simpl; [apply IH | done].
Qed.

Lemma astype_float64_weight_cells :
  astype_float64 (int_cell "1" "1.0" 1) = astype_float64 (num "1.0" 1).
Proof. reflexivity. Qed.

Lemma all_cells_insert p c (v : cell) (rs : list (gmap string cell)) :
  Forall (fun r : gmap string cell => r !! c = None) rs → rs ≠ [] →
  all_cells p ((fun r => <[c := v]> r) <$> rs) = p v && all_cells p rs.
Proof.
  intros Hnone Hne. unfold all_cells.
  apply eq_true_iff_eq. rewrite andb_true_iff, !bool_decide_eq_true.
  rewrite Forall_fmap. split.
  - intros Hall. split.
    + destruct rs as [|r rs]; [done|]. apply Forall_cons in Hall as [Hr _].
      simpl in Hr. by apply map_Forall_insert_1_1 in Hr.
    + rewrite Forall_forall in Hall, Hnone. apply Forall_forall. intros r Hr.
      specialize (Hall r Hr). simpl in Hall.
      apply map_Forall_insert in Hall; [by destruct Hall | by apply Hnone].
  - intros [Hv Hall]. rewrite Forall_forall in Hall, Hnone. apply Forall_forall.
    intros r Hr. simpl. apply map_Forall_insert; [by apply Hnone|].
    split; [done | by apply Hall].
Qed.

Lemma some_cell_insert p c (v : cell) (rs : list (gmap string cell)) :
  Forall (fun r : gmap string cell => r !! c = None) rs →
  some_cell p rs = true → some_cell p ((fun r => <[c := v]> r) <$> rs) = true.
Proof.
  intros Hnone. unfold some_cell. rewrite !bool_decide_eq_true, Exists_fmap.
  rewrite !Exists_exists. intros (r & Hr & Hex). exists r. split; [done|].
  simpl. apply map_Exists_insert_2_2; [|done].
  rewrite Forall_forall in Hnone. by apply Hnone.
Qed.

Lemma all_cells_nil_true p rs : all_cells p rs = false → rs ≠ [].
Proof. intros H ->. unfold all_cells in H. by rewrite bool_decide_eq_true_2 in H. Qed.

(** In a numeric frame a cell that is not an integer is a float. *)
Lemma numeric_not_int64 rs :
  all_cells numeric rs = true → all_cells is_int64 rs = false →
  some_cell is_float64 rs = true.
Proof.
  unfold all_cells, some_cell.
  rewrite !bool_decide_eq_true, bool_decide_eq_false. intros Hnum Hint.
  apply not_Forall_Exists in Hint; [|apply _].
  apply Exists_exists in Hint as (r & Hr & Hnot). simpl in Hnot.
  apply map_not_Forall in Hnot; [|apply _].
  destruct Hnot as (k & c & Hk & Hc).
  apply Exists_exists. exists r. split; [done|]. exists k, c. split; [done|].
  rewrite Forall_forall in Hnum. specialize (Hnum r Hr k c Hk). simpl in Hnum.
  revert Hnum Hc. unfold numeric, is_int64, is_float64.
  by destruct (py_dtype c).
Qed.

(** X4. The entry point with the column check and the ones without it build
    the same graph (or raise the same error) on every table that has the
    [source] and [target] columns, unless the table lacks the weight column,
    has a row and holds integers only: there the weight added by
    [read_inputs] is a float and turns the integer ids into floats, while the
    weight added by [read_data] is an integer and leaves them as they are. *)
Theorem readers_agree (df : DataFrame) (t : float) :
  df_wf df → "source" ∈ columns df → "target" ∈ columns df →
  "weight" ∈ columns df ∨ rows df = [] ∨ all_cells is_int64 (rows df) = false →
  run_cpm_visualize df t = run_export df t.
Proof.
  intros Hwf Hs Ht Hcase. unfold run_cpm_visualize, run_export, read_data, read_inputs.
  rewrite bool_decide_eq_true_2 by done.
  case_bool_decide as Hw; simpl; [done|].
  unfold build_graph, set_column. cbn [rows].
  destruct Hcase as [?|[Hnil|Hint]]; [done|by rewrite Hnil|].
  assert (Hnone : Forall (fun r : gmap string cell => r !! "weight" = None) (rows df)).
  { apply Forall_forall. intros r Hr. apply eq_None_not_Some.
    by rewrite (wf_row_lookup df r "weight" Hwf Hr). }
  assert (Hne : rows df ≠ []) by (by eapply all_cells_nil_true).
  unfold values. rewrite !all_cells_insert by done.
  destruct (all_cells numeric (rows df)) eqn:Hnum.
  - pose proof (numeric_not_int64 _ Hnum Hint) as Hfl.
    rewrite !some_cell_insert by done. cbn [numeric int_cell num py_dtype andb].
    f_equal. rewrite <- !list_fmap_compose. apply list_fmap_ext. intros _ r _. simpl.
    by rewrite !fmap_insert, astype_float64_weight_cells.
  - rewrite !andb_false_r. cbn [andb].
    by apply (build_loop_weight_cell t (rows df) ∅ _ _ 1%float).
Qed.

Lemma readers_agree_witness :
  run_cpm_visualize unweighted_df 1%float = run_export unweighted_df 1%float.
Proof.
  apply readers_agree.
  - repeat constructor; vm_compute; reflexivity.
  - set_solver.
  - set_solver.
  - right. right. vm_compute. reflexivity.
Defined.

(** On integer ids without a weight column the two entry points name the
    nodes differently. *)
Example readers_disagree_on_integer_ids :
  (∃ G, run_cpm_visualize integer_ids_df 1%float = Ok G ∧
        elements (nodes G) = ["1"; "2"]) ∧
  (∃ G, run_export integer_ids_df 1%float = Ok G ∧
        elements (nodes G) = ["1.0"; "2.0"]).
Proof. split; eexists; (split; [vm_compute; reflexivity|]); vm_compute; reflexivity. Qed.

(** The first row that cannot be read decides the outcome. *)
Lemma build_loop_first_error t rs1 r rs2 (G : Graph) es1 x :
  mapM_result row_record rs1 = Ok es1 →
  row_record r = Raise x →
  build_loop t (rs1 ++ r :: rs2) G = Raise x.
Proof.
  revert G es1. induction rs1 as [|r1 rs1 IH]; intros G es1 H1 Hr; simpl.
  - by rewrite Hr.
  - simpl in H1. destruct (row_record r1) as [e1|]; simpl in *; [|done].
    destruct (mapM_result row_record rs1) as [es|] eqn:Hes; simpl in H1; [|done].
    by apply (IH _ es).
Qed.

(** X5. The first row that cannot be read aborts the build with its own
    error, whatever the threshold and whatever follows it: [KeyError] for a
    missing [source], else [KeyError] for a missing [target], else
    [ValueError] for a weight that is not a number. *)
Theorem first_bad_row_aborts cols rs1 r rs2 t es1 :
  mapM_result row_record rs1 = Ok es1 →
  (r !! "source" = None →
   build_graph {| columns := cols; rows := rs1 ++ r :: rs2 |} t
   = Raise (KeyError "source")) ∧
  (is_Some (r !! "source") → r !! "target" = None →
   build_graph {| columns := cols; rows := rs1 ++ r :: rs2 |} t
   = Raise (KeyError "target")) ∧
  (∀ c, is_Some (r !! "source") → is_Some (r !! "target") →
        r !! "weight" = Some c → py_float c = None →
        build_graph {| columns := cols; rows := rs1 ++ r :: rs2 |} t
        = Raise (ValueError ("could not convert string to float: " +:+ py_str c))).
Proof.
  intros H1. unfold build_graph. simpl. split; [|split].
  - intros Hs. apply (build_loop_first_error t rs1 r rs2 ∅ es1); [done|].
    unfold row_record, getitem. by rewrite Hs.
  - intros [cu Hs] Ht. apply (build_loop_first_error t rs1 r rs2 ∅ es1); [done|].
    unfold row_record, getitem. by rewrite Hs, Ht.
  - intros c [cu Hs] [cv Ht] Hw Hc.
    apply (build_loop_first_error t rs1 r rs2 ∅ es1); [done|].
    unfold row_record, getitem, get, float_of. rewrite Hs, Ht, Hw. simpl.
    by rewrite Hc.
Qed.

Lemma first_bad_row_aborts_witness :
  build_graph {| columns := ["source"; "target"; "weight"];
                 rows := [edge_row "A" "B" (num "5" 5)]
                         ++ edge_row "C" "D" (text "many") :: [∅] |} 0%float
  = Raise (ValueError ("could not convert string to float: " +:+ py_str (text "many"))).
Proof.
  apply (proj2 (proj2 (first_bad_row_aborts ["source"; "target"; "weight"]
           [edge_row "A" "B" (num "5" 5)] (edge_row "C" "D" (text "many")) [∅]
           0%float [Build_EdgeRecord "A" "B" 5] eq_refl)) (text "many"));
    [by eexists | by eexists | reflexivity | reflexivity].
Defined.

Example bad_weight_example :
  build_graph (edge_frame [edge_row "A" "B" (num "5" 5);
                           edge_row "C" "D" (text "many")]) 4%float
  = Raise (ValueError "could not convert string to float: many").
Proof. vm_compute. reflexivity. Qed.

(** ** Structure of the built graph *)

Lemma weight_sum_is_Some ws : is_Some (weight_sum ws) ↔ ws ≠ [].
Proof.
  split.
  - intros Hs ->. by destruct Hs.
  - intros Hne. apply accumulate_is_Some. by right.
Qed.

Lemma has_edge_fold t es u v :
  has_edge (fold_left (add_record t) es ∅) u v = true ↔
  ∃ e, e ∈ es ∧ survives t e = true ∧ connects u v e = true.
Proof.
  rewrite has_edge_weight, edge_weight_fold by apply undirected_empty.
  replace (edge_weight ∅ u v) with (@None float)
    by (unfold edge_weight; by rewrite lookup_empty).
  fold (weight_sum (qualifying t u v es)). rewrite weight_sum_is_Some.
  unfold qualifying. split.
  - intros Hne.
    destruct (List.filter (λ e, survives t e && connects u v e) es) as [|e l] eqn:Hf;
      [done|].
    assert (He : e ∈ List.filter (λ e, survives t e && connects u v e) es)
      by (rewrite Hf; apply elem_of_cons; by left).
    apply elem_of_filter_bool in He as [He Hb]. apply andb_true_iff in Hb as [? ?].
    eauto.
  - intros (e & He & Hs & Hc) Hnil. apply fmap_nil_inv in Hnil.
    assert (H : e ∈ List.filter (λ e, survives t e && connects u v e) es).
    { apply elem_of_filter_bool. split; [done|]. by rewrite Hs, Hc. }
    rewrite Hnil in H. by apply elem_of_nil in H.
Qed.

(** X6. A built graph has no isolated node and no dangling edge: every node
    has an incident edge, both ends of every edge are nodes, and every edge is
    seen from both ends with the same weight. *)
Theorem built_graph_structure df t (G : Graph) :
  build_graph df t = Ok G →
  (∀ n, n ∈ nodes G → ∃ v, has_edge G n v = true) ∧
  (∀ u v, has_edge G u v = true → u ∈ nodes G ∧ v ∈ nodes G) ∧
  (∀ u v, edge_weight G u v = edge_weight G v u).
Proof.
  intros HG. pose proof (build_graph_undirected df t G HG) as Hsym.
  unfold build_graph in HG. rewrite build_loop_records in HG.
  destruct (mapM_result row_record (rows df)) as [es|]; simpl in HG; [|done].
  injection HG as <-. split; [|split; [|done]].
  - intros n Hn. apply nodes_fold in Hn as [Hn|(e & He & Hs & Hn)].
    { unfold nodes in Hn. rewrite dom_empty_L in Hn. set_solver. }
    destruct Hn as [->| ->].
    + exists (e_target e). apply has_edge_fold. exists e.
      split; [done|]. split; [done|]. unfold connects.
      apply bool_decide_eq_true. by left.
    + exists (e_source e). apply has_edge_fold. exists e.
      split; [done|]. split; [done|]. unfold connects.
      apply bool_decide_eq_true. by right.
  - intros u v Huv. apply has_edge_fold in Huv as (e & He & Hs & Hc).
    unfold connects in Hc. apply bool_decide_eq_true in Hc.
    split; apply nodes_fold; right; exists e; (split; [done|]); (split; [done|]);
      destruct Hc as [[<- <-]|[<- <-]]; auto.
Qed.

Lemma built_graph_structure_witness :
  (∀ n, n ∈ nodes (fold_left (add_record 4) repeated_records ∅) →
        ∃ v, has_edge (fold_left (add_record 4) repeated_records ∅) n v = true) ∧
  (∀ u v, has_edge (fold_left (add_record 4) repeated_records ∅) u v = true →
          u ∈ nodes (fold_left (add_record 4) repeated_records ∅) ∧
          v ∈ nodes (fold_left (add_record 4) repeated_records ∅)) ∧
  (∀ u v, edge_weight (fold_left (add_record 4) repeated_records ∅) u v
          = edge_weight (fold_left (add_record 4) repeated_records ∅) v u).
Proof.
  apply (built_graph_structure repeated_df 4). vm_compute. reflexivity.
Defined.

(** X7. The nodes and the edges of the built graph do not depend on the
    order of the records: two tables holding the same records in different
    orders give graphs with the same nodes and the same edges. *)
Theorem build_graph_order df df' t es es' :
  records df = Ok es → records df' = Ok es' → es ≡ₚ es' →
  ∃ G G', build_graph df t = Ok G ∧ build_graph df' t = Ok G' ∧
          nodes G = nodes G' ∧
          ∀ u v, has_edge G u v = has_edge G' u v.
Proof.
  intros Hes Hes' Hperm.
  exists (fold_left (add_record t) es ∅), (fold_left (add_record t) es' ∅).
  split; [by apply build_graph_records|]. split; [by apply build_graph_records|].
  split.
  - apply set_eq. intros n. rewrite !nodes_fold.
    by setoid_rewrite Hperm.
  - intros u v. apply eq_true_iff_eq. rewrite !has_edge_fold.
    by setoid_rewrite Hperm.
Qed.

Lemma build_graph_order_witness :
  ∃ G G', build_graph repeated_df 4 = Ok G ∧
          build_graph (frame_of_records (reverse repeated_records)) 4 = Ok G' ∧
          nodes G = nodes G' ∧
          ∀ u v, has_edge G u v = has_edge G' u v.
Proof.
  apply (build_graph_order repeated_df (frame_of_records (reverse repeated_records)) 4
           repeated_records (reverse repeated_records)).
  - vm_compute. reflexivity.
  - apply records_frame_of_records.
  - by rewrite reverse_Permutation.
Defined.

(** The weights themselves do depend on the order: floating-point addition
    is not associative. *)
Example weight_depends_on_order :
  weight_sum [1e16; 1; 1]%float = Some 1e16%float ∧
  weight_sum [1; 1; 1e16]%float = Some 10000000000000002%float ∧
  weight_sum [1e16; 1; 1]%float ≠ weight_sum [1; 1; 1e16]%float.
Proof. vm_compute. repeat split. discriminate. Qed.

(** ** Labels and the search box *)

Lemma has_char_app c s1 s2 :
  has_char c (s1 +:+ s2) = has_char c s1 || has_char c s2.
Proof. induction s1 as [|a s1 IH]; simpl; [done|]. by rewrite IH, orb_assoc. Qed.

Lemma has_char_rev_app c s1 s2 :
  has_char c (String.rev_app s1 s2) = has_char c s1 || has_char c s2.
Proof.
  revert s2. induction s1 as [|a s1 IH]; intros s2; simpl; [done|].
  rewrite IH. simpl. destruct (bool_decide (a = c)), (has_char c s1); done.
Qed.

Lemma has_char_rev c s : has_char c (String.rev s) = has_char c s.
Proof. unfold String.rev. rewrite has_char_rev_app. simpl. apply orb_false_r. Qed.

Lemma has_char_trim_start c s :
  js_space c = false → has_char c (trim_start s) = has_char c s.
Proof.
  intros Hc. induction s as [|a s IH]; [done|]. cbn [trim_start].
  destruct (js_space a) eqn:Ha; [|done]. rewrite IH. cbn [has_char].
  rewrite bool_decide_eq_false_2; [done | congruence].
Qed.

Lemma has_char_trim c s : js_space c = false → has_char c (trim s) = has_char c s.
Proof.
  intros Hc. unfold trim.
  by rewrite has_char_rev, has_char_trim_start, has_char_rev, has_char_trim_start.
Qed.

Lemma lower_char_underscore a : lower_char a = "_"%char ↔ a = "_"%char.
Proof.
  destruct a as [[] [] [] [] [] [] [] []]; vm_compute; split; congruence.
Qed.

Lemma has_char_toLowerCase_underscore s :
  has_char "_" (toLowerCase s) = has_char "_" s.
Proof.
  induction s as [|a s IH]; [done|]. cbn [toLowerCase has_char]. rewrite IH.
  f_equal. apply bool_decide_ext, lower_char_underscore.
Qed.

Lemma replace_underscore_clean s : has_char "_" (replace_underscore s) = false.
Proof.
  induction s as [|a s IH]; [done|]. cbn [replace_underscore has_char]. rewrite IH.
  rewrite orb_false_r. apply bool_decide_eq_false_2.
  case_bool_decide as Ha; [discriminate | done].
Qed.

Lemma replace_underscore_length s :
  String.length (replace_underscore s) = String.length s.
Proof. induction s as [|a s IH]; simpl; [done | by rewrite IH]. Qed.

Lemma includes_has_char s q c :
  includes s q = true → has_char c q = true → has_char c s = true.
Proof.
  intros Hinc Hq. apply includes_spec in Hinc as (pre & post & ->).
  rewrite !has_char_app, Hq. by rewrite orb_true_r.
Qed.

(** X8. The label of an exported node is its id with every underscore
    turned into a blank (same length, no underscore left); hence a query
    that contains an underscore matches no node: the Plotly dashboard and the
    vis-network page both answer with their alert. *)
Theorem underscore_query_finds_nothing (ns : list string) chars cs
    (edges : list Edge) (value : string) :
  has_char "_" value = true →
  (∀ n, n ∈ export_nodes ns chars cs →
        has_char "_" (n_label n) = false ∧
        String.length (n_label n) = String.length (n_id n)) ∧
  search (export_nodes ns chars cs) edges value
    = Alert ("No node found for: " +:+ toLowerCase (trim value)) ∧
  vis_search (export_nodes ns chars cs) value = VisAlert "No node".
Proof.
  intros Hv.
  assert (Hlabel : ∀ n, n ∈ export_nodes ns chars cs →
            has_char "_" (n_label n) = false ∧
            String.length (n_label n) = String.length (n_id n)).
  { intros n Hn. unfold export_nodes in Hn.
    apply list_elem_of_fmap in Hn as (x & -> & _). simpl.
    split; [apply replace_underscore_clean | apply replace_underscore_length]. }
  assert (Hq : has_char "_" (toLowerCase (trim value)) = true).
  { by rewrite has_char_toLowerCase_underscore, has_char_trim. }
  assert (Hne : toLowerCase (trim value) ≠ "").
  { intros Heq. rewrite Heq in Hq. done. }
  assert (Hnone : List.filter
            (λ n, includes (toLowerCase (n_label n)) (toLowerCase (trim value)))
            (export_nodes ns chars cs) = []).
  { destruct (List.filter _ _) as [|n l] eqn:Hf; [done|]. exfalso.
    assert (Hn : n ∈ List.filter
              (λ n, includes (toLowerCase (n_label n)) (toLowerCase (trim value)))
              (export_nodes ns chars cs)) by (rewrite Hf; apply elem_of_cons; by left).
    apply elem_of_filter_bool in Hn as [Hn Hinc].
    apply (includes_has_char _ _ "_"%char) in Hinc; [|done].
    rewrite has_char_toLowerCase_underscore in Hinc.
    destruct (Hlabel n Hn) as [Hclean _]. congruence. }
  split; [done|]. split.
  - unfold search. rewrite bool_decide_eq_false_2 by done. by rewrite Hnone.
  - unfold vis_search. rewrite bool_decide_eq_false_2 by done. by rewrite Hnone.
Qed.

Lemma underscore_query_finds_nothing_witness :
  (∀ n, n ∈ export_nodes ["Vandiya_Devan"; "Kundavai"] None [] →
        has_char "_" (n_label n) = false ∧
        String.length (n_label n) = String.length (n_id n)) ∧
  search (export_nodes ["Vandiya_Devan"; "Kundavai"] None []) [] "vandiya_devan"
    = Alert ("No node found for: " +:+ toLowerCase (trim "vandiya_devan")) ∧
  vis_search (export_nodes ["Vandiya_Devan"; "Kundavai"] None []) "vandiya_devan"
    = VisAlert "No node".
Proof.
  apply (underscore_query_finds_nothing ["Vandiya_Devan"; "Kundavai"] None [] []
           "vandiya_devan").
  reflexivity.
Defined.

Example label_search_example :
  search (export_nodes ["Vandiya_Devan"; "Kundavai"] None []) [] "vandiya devan"
    = Show ["Vandiya_Devan"] ∧
  search (export_nodes ["Vandiya_Devan"; "Kundavai"] None []) [] "Vandiya_Devan"
    = Alert "No node found for: vandiya_devan".
Proof. vm_compute. done. Qed.

(** ** Sorted faction lists and the colours drawn from them *)

Lemma elem_of_sorted_set l x : x ∈ sorted_set l ↔ x ∈ l.
Proof.
  unfold sorted_set. by rewrite merge_sort_Permutation, elem_of_remove_dups.
Qed.

Lemma NoDup_sorted_set l : NoDup (sorted_set l).
Proof.
  unfold sorted_set. rewrite merge_sort_Permutation. apply NoDup_remove_dups.
Qed.

Lemma Sorted_sorted_set l : Sorted String.le (sorted_set l).
Proof. unfold sorted_set. apply (Sorted_merge_sort _). Qed.

(** The result depends on the set of values only, not on the order in which
    the set is traversed. *)
Lemma sorted_set_ext l1 l2 :
  (∀ x, x ∈ l1 ↔ x ∈ l2) → sorted_set l1 = sorted_set l2.
Proof.
  intros Hext. apply (Sorted_unique String.le); [apply Sorted_sorted_set..|].
  apply NoDup_Permutation; [apply NoDup_sorted_set..|].
  intros x. by rewrite !elem_of_sorted_set.
Qed.

Lemma indexOf_Some l x i :
  indexOf l x = Some i → l !! i = Some x ∧ ∀ j, j < i → l !! j ≠ Some x.
Proof.
  revert i. induction l as [|y l IH]; intros i; cbn [indexOf]; [done|].
  case_bool_decide as Hy.
  - intros [= <-]. subst y. split; [done|]. intros j Hj. lia.
  - destruct (indexOf l x) as [k|] eqn:Hk; simpl; [|done]. intros [= <-].
    destruct (IH k eq_refl) as [Hlk Hmin]. split; [done|].
    intros [|j] Hj; simpl; [congruence|]. apply Hmin. lia.
Qed.

Lemma indexOf_elem_of l x : x ∈ l → is_Some (indexOf l x).
Proof.
  induction l as [|y l IH]; intros Hx; [by apply elem_of_nil in Hx|].
  cbn [indexOf]. case_bool_decide as Hy; [eauto|].
  apply elem_of_cons in Hx as [->|Hx]; [done|].
  destruct (IH Hx) as [k ->]. simpl. eauto.
Qed.

Lemma lookup_total_mod_elem_of (l : list string) i :
  l ≠ [] → l !!! (i mod length l) ∈ l.
Proof.
  intros Hne. apply list_elem_of_lookup_total_2, Nat.mod_upper_bound.
  destruct l; [done | simpl; lia].
Qed.

(** X9. The faction list handed to the dashboard is sorted, free of
    duplicates and holds exactly the factions of the exported nodes.  Hence
    the grey default of [makeNodeTrace] is never used: a node of some
    community takes a colour of the community palette, any other node the
    faction colour of the index of its faction in that list, modulo six. *)
Theorem dashboard_colors (nodes : list Node) (n : Node) :
  n ∈ nodes →
  Sorted String.le (export_factions nodes) ∧
  NoDup (export_factions nodes) ∧
  (∀ f, f ∈ export_factions nodes ↔ ∃ m, m ∈ nodes ∧ n_faction m = f) ∧
  (n_communities n = [] →
   ∃ i, export_factions nodes !! i = Some (n_faction n) ∧
        trace_color (export_factions nodes) n
        = factionColors !!! (i mod length factionColors)) ∧
  trace_color (export_factions nodes) n ≠ "#B0B0B0".
Proof.
  intros Hn. unfold export_factions.
  assert (Hmem : ∀ f, f ∈ sorted_set (n_faction <$> nodes) ↔
                      ∃ m, m ∈ nodes ∧ n_faction m = f).
  { intros f. rewrite elem_of_sorted_set, list_elem_of_fmap. naive_solver. }
  assert (Hidx : ∃ i, indexOf (sorted_set (n_faction <$> nodes)) (n_faction n) = Some i).
  { apply indexOf_elem_of, Hmem. eauto. }
  destruct Hidx as [i Hi].
  split; [apply Sorted_sorted_set|]. split; [apply NoDup_sorted_set|].
  split; [done|]. split.
  - intros Hc. exists i. split; [by apply indexOf_Some in Hi as [? _]|].
    unfold trace_color. by rewrite Hc, Hi.
  - unfold trace_color. destruct (n_communities n) as [|c l].
    + rewrite Hi. intros Hgrey.
      assert (Hin : "#B0B0B0" ∈ factionColors).
      { rewrite <- Hgrey. by apply lookup_total_mod_elem_of. }
      vm_compute in Hin. set_solver.
    + intros Hgrey.
      assert (Hin : "#B0B0B0" ∈ colorPalette).
      { rewrite <- Hgrey. by apply lookup_total_mod_elem_of. }
      vm_compute in Hin. set_solver.
Qed.

Lemma dashboard_colors_witness :
  Sorted String.le (export_factions contract_nodes) ∧
  NoDup (export_factions contract_nodes) ∧
  (∀ f, f ∈ export_factions contract_nodes ↔
        ∃ m, m ∈ contract_nodes ∧ n_faction m = f) ∧
  (n_communities {| n_id := "Z"; n_label := "Nandini"; n_faction := "Blue";
                    n_communities := [] |} = [] →
   ∃ i, export_factions contract_nodes !! i
        = Some (n_faction {| n_id := "Z"; n_label := "Nandini"; n_faction := "Blue";
                             n_communities := [] |}) ∧
        trace_color (export_factions contract_nodes)
          {| n_id := "Z"; n_label := "Nandini"; n_faction := "Blue"; n_communities := [] |}
        = factionColors !!! (i mod length factionColors)) ∧
  trace_color (export_factions contract_nodes)
    {| n_id := "Z"; n_label := "Nandini"; n_faction := "Blue"; n_communities := [] |}
  ≠ "#B0B0B0".
Proof.
  apply (dashboard_colors contract_nodes). unfold contract_nodes. set_solver.
Defined.

Example dashboard_colors_example :
  export_factions contract_nodes = ["Blue"; "Red"] ∧
  trace_color (export_factions contract_nodes) <$> contract_nodes
  = ["#636EFA"; "#636EFA"; "#4C9F70"].
Proof. vm_compute. done. Qed.

Lemma faction_to_color_from_lookup i fs (m : gmap string string) f :
  NoDup fs →
  faction_to_color_from i fs m !! f
  = match indexOf fs f with
    | Some j => Some (FACTION_COLORS !!! ((i + j) mod length FACTION_COLORS))
    | None => m !! f
    end.
Proof.
  revert i m. induction fs as [|g fs IH]; intros i m Hnd; [done|].
  apply NoDup_cons in Hnd as [Hg Hnd]. cbn [faction_to_color_from indexOf].
  rewrite IH by done. case_bool_decide as Hgf.
  - subst g. destruct (indexOf fs f) as [j|] eqn:Hj.
    + exfalso. apply Hg. apply indexOf_Some in Hj as [Hj _].
      by eapply list_elem_of_lookup_2.
    + rewrite lookup_insert_eq. by rewrite Nat.add_0_r.
  - destruct (indexOf fs f) as [j|].
    + change (S <$> Some j) with (Some (S j)). cbv iota beta.
      by replace (i + S j) with (S i + j) by lia.
    + change (S <$> @None nat) with (@None nat). cbv iota beta.
      by rewrite lookup_insert_ne.
Qed.

(** X10. In the vis-network export the background of a node is the colour
    of the index of its faction in the sorted faction list, modulo ten, never
    the grey default; nodes of one faction share their colour, and with at
    most ten factions nodes of different factions get different colours. *)
Theorem vis_background_spec (fm : gmap string string) (ns : list string) (n m : string) :
  n ∈ ns → m ∈ ns →
  (∃ i, all_factions fm ns !! i = Some (default "Unknown" (fm !! n)) ∧
        vis_background fm ns n = FACTION_COLORS !!! (i mod length FACTION_COLORS)) ∧
  vis_background fm ns n ≠ "#B0B0B0" ∧
  (default "Unknown" (fm !! n) = default "Unknown" (fm !! m) →
   vis_background fm ns n = vis_background fm ns m) ∧
  (length (all_factions fm ns) ≤ 10 →
   vis_background fm ns n = vis_background fm ns m →
   default "Unknown" (fm !! n) = default "Unknown" (fm !! m)).
Proof.
  intros Hn Hm.
  assert (Hcol : ∀ x, x ∈ ns →
    ∃ i, all_factions fm ns !! i = Some (default "Unknown" (fm !! x)) ∧
         vis_background fm ns x = FACTION_COLORS !!! (i mod length FACTION_COLORS)).
  { intros x Hx.
    assert (Hin : default "Unknown" (fm !! x) ∈ all_factions fm ns).
    { unfold all_factions. apply elem_of_sorted_set, list_elem_of_fmap. eauto. }
    apply indexOf_elem_of in Hin as [i Hi]. exists i.
    split; [by apply indexOf_Some in Hi as [? _]|].
    unfold vis_background.
    rewrite faction_to_color_from_lookup by apply NoDup_sorted_set.
    by rewrite Hi. }
  destruct (Hcol n Hn) as (i & Hi & Hci). destruct (Hcol m Hm) as (j & Hj & Hcj).
  split; [eauto|]. split; [|split].
  - rewrite Hci. intros Hgrey.
    assert (Hin : "#B0B0B0" ∈ FACTION_COLORS).
    { rewrite <- Hgrey. by apply lookup_total_mod_elem_of. }
    vm_compute in Hin. set_solver.
  - intros Heq. unfold vis_background. by rewrite Heq.
  - intros Hlen Heq. rewrite Hci, Hcj in Heq.
    assert (Hi10 : i < 10).
    { apply lookup_lt_Some in Hi. lia. }
    assert (Hj10 : j < 10).
    { apply lookup_lt_Some in Hj. lia. }
    change (length FACTION_COLORS) with 10 in Heq.
    rewrite !Nat.mod_small in Heq by done.
    assert (Hij : i = j).
    { apply (NoDup_lookup FACTION_COLORS i j (FACTION_COLORS !!! i)).
      - vm_compute. repeat constructor; set_solver.
      - by apply list_lookup_lookup_total_lt.
      - rewrite Heq. by apply list_lookup_lookup_total_lt. }
    subst j. congruence.
Qed.

Lemma vis_background_spec_witness :
  (∃ i, all_factions (faction_map (Some sample_characters)) ["a"; "b"; "z"] !! i
        = Some (default "Unknown" (faction_map (Some sample_characters) !! "a")) ∧
        vis_background (faction_map (Some sample_characters)) ["a"; "b"; "z"] "a"
        = FACTION_COLORS !!! (i mod length FACTION_COLORS)) ∧
  vis_background (faction_map (Some sample_characters)) ["a"; "b"; "z"] "a" ≠ "#B0B0B0" ∧
  (default "Unknown" (faction_map (Some sample_characters) !! "a")
   = default "Unknown" (faction_map (Some sample_characters) !! "z") →
   vis_background (faction_map (Some sample_characters)) ["a"; "b"; "z"] "a"
   = vis_background (faction_map (Some sample_characters)) ["a"; "b"; "z"] "z") ∧
  (length (all_factions (faction_map (Some sample_characters)) ["a"; "b"; "z"]) ≤ 10 →
   vis_background (faction_map (Some sample_characters)) ["a"; "b"; "z"] "a"
   = vis_background (faction_map (Some sample_characters)) ["a"; "b"; "z"] "z" →
   default "Unknown" (faction_map (Some sample_characters) !! "a")
   = default "Unknown" (faction_map (Some sample_characters) !! "z")).
Proof.
  apply (vis_background_spec (faction_map (Some sample_characters))
           ["a"; "b"; "z"] "a" "z"); set_solver.
Defined.

Example vis_background_example :
  all_factions (faction_map (Some sample_characters)) ["a"; "b"; "z"]
  = ["Chola"; "Pandya"; "Unknown"] ∧
  vis_background (faction_map (Some sample_characters)) ["a"; "b"; "z"]
    <$> ["a"; "b"; "z"]
  = ["#1f77b4"; "#ff7f0e"; "#2ca02c"].
Proof. vm_compute. done. Qed.

(** ** The filters with every box checked *)

(** X11. With every faction box and every community box checked (the state
    in which the vis-network page applies its filters on loading, and the
    state of the Plotly dashboard after a box has been toggled off and on),
    and at least one community, a node is shown exactly when it belongs to a
    community: the nodes of no community are hidden, although the first draw
    of the Plotly dashboard shows every node.  Without any community every
    node is shown. *)
Theorem all_boxes_checked (nodes : list Node) (factionsList : list string)
    (k : nat) (n : Node) :
  NoDup (n_id <$> nodes) → n ∈ nodes →
  (∀ m, m ∈ nodes → n_faction m ∈ factionsList) →
  (∀ c, c ∈ n_communities n → c < k) →
  (0 < k →
   (n ∈ vis_shown nodes (vis_applyFilters nodes factionsList (pretty <$> seq 0 k)) ↔
    n_communities n ≠ []) ∧
   (n ∈ makeNodeTrace nodes (Some (applyFilters nodes factionsList (seq 0 k))) ↔
    n_communities n ≠ [])) ∧
  (k = 0 →
   n ∈ vis_shown nodes (vis_applyFilters nodes factionsList (pretty <$> seq 0 k)) ∧
   n ∈ makeNodeTrace nodes (Some (applyFilters nodes factionsList (seq 0 k)))) ∧
  n ∈ makeNodeTrace nodes None.
Proof.
  intros Hnd Hn Hfac Hcomm.
  assert (Hvis : ∀ ids, vis_shown nodes ids = makeNodeTrace nodes (Some ids)) by done.
  assert (Hrule : ∀ aC, (n ∈ vis_shown nodes (vis_applyFilters nodes factionsList
                                               (pretty <$> aC)) ↔
                         facet_rule factionsList aC n) ∧
                        (n ∈ makeNodeTrace nodes (Some (applyFilters nodes factionsList aC)) ↔
                         facet_rule factionsList aC n)).
  { intros aC. split.
    - unfold vis_applyFilters. rewrite Hvis, drawn_iff_accepted by done.
      rewrite vis_allowed_allowed. apply allowed_spec.
    - unfold applyFilters. rewrite drawn_iff_accepted by done. apply allowed_spec. }
  split; [|split].
  - intros Hk.
    assert (Hiff : facet_rule factionsList (seq 0 k) n ↔ n_communities n ≠ []).
    { unfold facet_rule. split.
      - intros [_ [Hnil|(c & Hc & _)]].
        + destruct k; [lia | done].
        + intros Hempty. rewrite Hempty in Hc. by apply elem_of_nil in Hc.
      - intros Hne. split; [right; by apply Hfac|]. right.
        destruct (n_communities n) as [|c l] eqn:Hl; [done|].
        exists c. split; [apply elem_of_cons; by left|].
        apply elem_of_seq. split; [lia|]. simpl. apply Hcomm.
        apply elem_of_cons. by left. }
    destruct (Hrule (seq 0 k)) as [H1 H2]. by rewrite H1, H2.
  - intros ->. destruct (Hrule (seq 0 0)) as [H1 H2]. rewrite H1, H2.
    split; (split; [right; by apply Hfac | by left]).
  - unfold makeNodeTrace. by apply elem_of_filter_bool.
Qed.

Lemma all_boxes_checked_witness :
  (0 < 2 →
   ({| n_id := "Z"; n_label := "Nandini"; n_faction := "Blue"; n_communities := [] |}
      ∈ vis_shown contract_nodes
          (vis_applyFilters contract_nodes ["Blue"; "Red"] (pretty <$> seq 0 2)) ↔
    n_communities {| n_id := "Z"; n_label := "Nandini"; n_faction := "Blue";
                     n_communities := [] |} ≠ []) ∧
   ({| n_id := "Z"; n_label := "Nandini"; n_faction := "Blue"; n_communities := [] |}
      ∈ makeNodeTrace contract_nodes
          (Some (applyFilters contract_nodes ["Blue"; "Red"] (seq 0 2))) ↔
    n_communities {| n_id := "Z"; n_label := "Nandini"; n_faction := "Blue";
                     n_communities := [] |} ≠ [])) ∧
  (2 = 0 →
   {| n_id := "Z"; n_label := "Nandini"; n_faction := "Blue"; n_communities := [] |}
     ∈ vis_shown contract_nodes
         (vis_applyFilters contract_nodes ["Blue"; "Red"] (pretty <$> seq 0 2)) ∧
   {| n_id := "Z"; n_label := "Nandini"; n_faction := "Blue"; n_communities := [] |}
     ∈ makeNodeTrace contract_nodes
         (Some (applyFilters contract_nodes ["Blue"; "Red"] (seq 0 2)))) ∧
  {| n_id := "Z"; n_label := "Nandini"; n_faction := "Blue"; n_communities := [] |}
    ∈ makeNodeTrace contract_nodes None.
Proof.
  apply (all_boxes_checked contract_nodes ["Blue"; "Red"] 2).
  - apply contract_nodes_NoDup.
  - unfold contract_nodes. set_solver.
  - unfold contract_nodes. intros m Hm. set_solver.
  - simpl. intros c Hc. by apply elem_of_nil in Hc.
Defined.

Example all_boxes_checked_example :
  n_id <$> makeNodeTrace contract_nodes None = ["X"; "Y"; "Z"] ∧
  n_id <$> makeNodeTrace contract_nodes
             (Some (applyFilters contract_nodes ["Blue"; "Red"] [0; 1])) = ["X"; "Y"] ∧
  n_id <$> vis_shown contract_nodes
             (vis_applyFilters contract_nodes ["Blue"; "Red"] ["0"; "1"]) = ["X"; "Y"].
Proof. vm_compute. done. Qed.

(** ** Community ids through JSON keys and check boxes *)

Lemma digit_of_pretty_N_char d :
  (d < 10)%N → digit_of (pretty_N_char d) = Some d.
Proof.
  intros Hd.
  assert (d = 0 ∨ d = 1 ∨ d = 2 ∨ d = 3 ∨ d = 4 ∨ d = 5 ∨ d = 6 ∨ d = 7 ∨
          d = 8 ∨ d = 9)%N as H by lia.
  destruct_or!; subst; reflexivity.
Qed.

Lemma parse_digits_pretty_N_go x :
  (0 < x)%N →
  ∃ k, ∀ acc s,
    parse_digits 10 acc (pretty_N_go x s)
    = parse_digits 10 (Some (default 0 acc * 10 ^ k + x)%N) s.
Proof.
  induction (N.lt_wf_0 x) as [x _ IH]. intros Hx.
  assert (Hstep : ∀ s, pretty_N_go x s
            = pretty_N_go (x `div` 10)%N (String (pretty_N_char (x `mod` 10)%N) s))
    by (intros s; by apply pretty_N_go_step).
  assert (Hmod : (x `mod` 10 < 10)%N) by (apply N.mod_lt; lia).
  destruct (decide (x < 10)%N) as [Hsmall|Hbig].
  - exists 1%N. intros acc s. rewrite Hstep.
    rewrite N.div_small, pretty_N_go_0 by done. cbn [parse_digits].
    rewrite digit_of_pretty_N_char by done.
    replace (x `mod` 10 <? 10)%N with true by (symmetry; by apply N.ltb_lt).
    rewrite N.mod_small by done. do 2 f_equal. rewrite N.pow_1_r. lia.
  - destruct (IH (x `div` 10)%N) as [k Hk].
    + apply N.div_lt; lia.
    + apply N.div_str_pos. lia.
    + exists (N.succ k). intros acc s. rewrite Hstep, Hk. cbn [parse_digits].
      rewrite digit_of_pretty_N_char by done.
      replace (x `mod` 10 <? 10)%N with true by (symmetry; by apply N.ltb_lt).
      do 2 f_equal. simpl default. rewrite N.pow_succ_r'.
      pose proof (N.div_mod x 10 ltac:(lia)) as Hdm.
      set (a := default 0%N acc). set (p := (10 ^ k)%N). nia.
Qed.

Lemma pretty_N_go_head x s :
  (0 < x)%N →
  ∃ d rest, (0 < d < 10)%N ∧ pretty_N_go x s = String (pretty_N_char d) rest.
Proof.
  revert s. induction (N.lt_wf_0 x) as [x _ IH]. intros s Hx.
  rewrite pretty_N_go_step by done.
  destruct (decide (x < 10)%N) as [Hsmall|Hbig].
  - rewrite N.div_small, pretty_N_go_0 by done.
    exists x, s. rewrite N.mod_small by done. split; [lia | done].
  - apply IH; [apply N.div_lt; lia | apply N.div_str_pos; lia].
Qed.

Lemma parseInt_plain_head c rest :
  js_space c = false → c ≠ "-"%char → c ≠ "+"%char → c ≠ "0"%char →
  parseInt (String c rest) = Z.of_N <$> parse_digits 10 None (String c rest).
Proof.
  intros Hsp Hminus Hplus Hzero. unfold parseInt. cbn [trim_start]. rewrite Hsp.
  rewrite (bool_decide_eq_false_2 (c = "-"%char)) by done.
  rewrite (bool_decide_eq_false_2 (c = "+"%char)) by done.
  cbn [fst snd].
  assert (Hpre : (match String c rest with
                  | String c0 (String c1 r) =>
                      if bool_decide (c0 = "0"%char) &&
                         (bool_decide (c1 = "x"%char) || bool_decide (c1 = "X"%char))
                      then (16%N, r) else (10%N, String c rest)
                  | _ => (10%N, String c rest)
                  end) = (10%N, String c rest)).
  { destruct rest as [|c1 r]; [done|].
    by rewrite (bool_decide_eq_false_2 (c = "0"%char)) by done. }
  rewrite Hpre. cbn [fst snd].
  by destruct (parse_digits 10 None (String c rest)).
Qed.

Lemma parseInt_digit_head d rest :
  (0 < d < 10)%N →
  parseInt (String (pretty_N_char d) rest)
  = Z.of_N <$> parse_digits 10 None (String (pretty_N_char d) rest).
Proof.
  intros Hd.
  assert (d = 1 ∨ d = 2 ∨ d = 3 ∨ d = 4 ∨ d = 5 ∨ d = 6 ∨ d = 7 ∨
          d = 8 ∨ d = 9)%N as H by lia.
  destruct_or!; subst; by apply parseInt_plain_head.
Qed.

(** X12. A community id written as a decimal string (the JSON key of the
    label map, and the attribute of its check box) is read back by
    [parseInt] as the same id. *)
Theorem parseInt_pretty (n : nat) :
  (Z.of_nat n < 2 ^ 53)%Z → parseInt (pretty n) = Some (Z.of_nat n).
Proof.
  intros _. unfold pretty, pretty_nat, pretty, pretty_N.
  destruct (decide (N.of_nat n = 0%N)) as [Hz|Hnz].
  - replace n with 0 by lia. reflexivity.
  - assert (Hpos : (0 < N.of_nat n)%N) by lia.
    destruct (pretty_N_go_head (N.of_nat n) "" Hpos) as (d & rest & Hd & Hhead).
    rewrite Hhead, parseInt_digit_head by done. rewrite <- Hhead.
    destruct (parse_digits_pretty_N_go (N.of_nat n) Hpos) as [k Hk].
    rewrite Hk. cbn [parse_digits default fmap option_fmap option_map].
    f_equal. lia.
Qed.

Lemma parseInt_pretty_witness : parseInt (pretty 12) = Some (Z.of_nat 12).
Proof. apply (parseInt_pretty 12). vm_compute. reflexivity. Defined.

Example parseInt_examples :
  parseInt "  42px" = Some 42%Z ∧ parseInt "-7" = Some (-7)%Z ∧
  parseInt "0x1f" = Some 31%Z ∧ parseInt "abc" = None ∧ parseInt "" = None.
Proof. vm_compute. done. Qed.

(** ** Raising the threshold *)

Lemma SFleb_trans a b c :
  SFleb a b = true → SFleb b c = true → SFleb a c = true.
Proof.
  unfold SFleb, SFcompare.
  destruct a as [sa|sa| |sa ma ea], b as [sb|sb| |sb mb eb], c as [sc|sc| |sc mc ec];
    try discriminate; try reflexivity;
    try (destruct sa; try discriminate; try reflexivity);
    try (destruct sb; try discriminate; try reflexivity);
    try (destruct sc; try discriminate; try reflexivity);
    change (Pos.compare_cont Eq) with Pos.compare;
    destruct (Z.compare_spec ea eb), (Z.compare_spec eb ec), (Z.compare_spec ea ec);
    try discriminate; try reflexivity; try lia;
    destruct (Pos.compare_spec ma mb), (Pos.compare_spec mb mc),
             (Pos.compare_spec ma mc);
    simpl; try discriminate; try reflexivity; try lia.
Qed.

Lemma leb_trans (a b c : float) :
  PrimFloat.leb a b = true → PrimFloat.leb b c = true → PrimFloat.leb a c = true.
Proof. rewrite !leb_spec. apply SFleb_trans. Qed.

Lemma survives_mono t t' e :
  PrimFloat.leb t t' = true → survives t' e = true → survives t e = true.
Proof. unfold survives, geb. apply leb_trans. Qed.

(** X13. Raising the threshold only removes: every node and every edge of
    the graph built under the higher threshold is in the graph built under
    the lower one. *)
Theorem threshold_monotone df (t t' : float) es :
  records df = Ok es → PrimFloat.leb t t' = true →
  ∃ G G', build_graph df t = Ok G ∧ build_graph df t' = Ok G' ∧
          nodes G' ⊆ nodes G ∧
          ∀ u v, has_edge G' u v = true → has_edge G u v = true.
Proof.
  intros Hes Hle.
  exists (fold_left (add_record t) es ∅), (fold_left (add_record t') es ∅).
  split; [by apply build_graph_records|]. split; [by apply build_graph_records|].
  split.
  - intros n. rewrite !nodes_fold.
    intros [Hn|(e & He & Hs & Hn)]; [by left|]. right. exists e.
    split; [done|]. split; [by apply (survives_mono t t') | done].
  - intros u v. rewrite !has_edge_fold. intros (e & He & Hs & Hc).
    exists e. split; [done|]. split; [by apply (survives_mono t t') | done].
Qed.

Lemma threshold_monotone_witness :
  ∃ G G', build_graph repeated_df 4 = Ok G ∧ build_graph repeated_df 5 = Ok G' ∧
          nodes G' ⊆ nodes G ∧
          ∀ u v, has_edge G' u v = true → has_edge G u v = true.
Proof.
  apply (threshold_monotone repeated_df 4 5 repeated_records);
    vm_compute; reflexivity.
Defined.

Example threshold_example :
  ∃ G G', build_graph repeated_df 4 = Ok G ∧ build_graph repeated_df 5 = Ok G' ∧
          elements (nodes G) = ["C"; "A"; "B"] ∧ elements (nodes G') = ["C"; "A"; "B"] ∧
          has_edge G "B" "C" = true ∧ has_edge G' "B" "C" = false ∧
          edge_weight G' "C" "C" = Some 7%float.
Proof. do 2 eexists. split; [vm_compute; reflexivity|]. vm_compute. done. Qed.

(** ** What the readers guarantee *)

Lemma df_wf_set_column c v df : df_wf df → df_wf (set_column c v df).
Proof.
  unfold df_wf, set_column. cbn [columns rows]. intros Hwf.
  apply values_Forall; [by intros r Hr; rewrite dom_fmap_L|]. apply Forall_fmap.
  eapply Forall_impl; [exact Hwf|]. intros r Hr. simpl.
  rewrite dom_insert_L, Hr. case_bool_decide as Hc.
  - apply set_eq. intros x. rewrite elem_of_union, elem_of_singleton.
    rewrite elem_of_list_to_set. naive_solver.
  - rewrite list_to_set_app_L. simpl. set_solver.
Qed.

(** X14. [read_inputs] keeps a well-formed table well-formed and afterwards
    every row has a weight cell (so the builder never falls back on its own
    default); it adds no row, changes nothing when the column is there, and
    reading twice is reading once. *)
Theorem read_inputs_invariants (df : DataFrame) :
  df_wf df →
  df_wf (read_inputs df) ∧
  "weight" ∈ columns (read_inputs df) ∧
  (∀ r, r ∈ rows (read_inputs df) → is_Some (r !! "weight")) ∧
  length (rows (read_inputs df)) = length (rows df) ∧
  ("weight" ∈ columns df → read_inputs df = df) ∧
  read_inputs (read_inputs df) = read_inputs df.
Proof.
  intros Hwf.
  assert (Hcol : "weight" ∈ columns (read_inputs df)).
  { unfold read_inputs. case_bool_decide as Hw; [done|].
    unfold set_column. simpl. rewrite bool_decide_eq_false_2 by done.
    apply elem_of_app. right. apply list_elem_of_singleton. done. }
  assert (Hwf' : df_wf (read_inputs df)).
  { unfold read_inputs. case_bool_decide; [done | by apply df_wf_set_column]. }
  split; [done|]. split; [done|]. split; [|split; [|split]].
  - intros r Hr. by apply (wf_row_lookup (read_inputs df)).
  - unfold read_inputs. case_bool_decide; [done|]. cbn [set_column rows].
    by rewrite length_values, length_fmap.
  - intros Hw. unfold read_inputs. by rewrite bool_decide_eq_true_2.
  - unfold read_inputs at 1. by rewrite bool_decide_eq_true_2.
Qed.

Lemma read_inputs_invariants_witness :
  df_wf (read_inputs unweighted_df) ∧
  "weight" ∈ columns (read_inputs unweighted_df) ∧
  (∀ r, r ∈ rows (read_inputs unweighted_df) → is_Some (r !! "weight")) ∧
  length (rows (read_inputs unweighted_df)) = length (rows unweighted_df) ∧
  ("weight" ∈ columns unweighted_df → read_inputs unweighted_df = unweighted_df) ∧
  read_inputs (read_inputs unweighted_df) = read_inputs unweighted_df.
Proof.
  apply (read_inputs_invariants unweighted_df).
  repeat constructor; vm_compute; reflexivity.
Defined.

(** ** The saved tables *)

Lemma elem_of_community_rows_from start cs cid n :
  (cid, n) ∈ community_rows_from start cs ↔
  ∃ i comm, cs !! i = Some comm ∧ cid = start + i ∧ n ∈ comm.
Proof.
  revert start. induction cs as [|c cs IH]; intros start; simpl.
  - split; [by intros ?%elem_of_nil | by intros (? & ? & ? & _)].
  - rewrite elem_of_app, list_elem_of_fmap, IH. split.
    + intros [(m & [= -> ->] & Hm)|(i & comm & Hi & -> & Hn)].
      * exists 0, c. split; [done|]. split; [lia | done].
      * exists (S i), comm. split; [done|]. split; [lia | done].
    + intros ([|i] & comm & Hi & -> & Hn); simpl in Hi.
      * injection Hi as ->. left. exists n. split; [f_equal; lia | done].
      * right. exists i, comm. split; [done|]. split; [lia | done].
Qed.

Lemma length_community_rows_from start cs :
  length (community_rows_from start cs) = sum_list (length <$> cs).
Proof.
  revert start. induction cs as [|c cs IH]; intros start; [done|].
  simpl. by rewrite length_app, length_fmap, IH.
Qed.

Lemma node_comm_map_lookup cs n :
  Forall NoDup cs →
  node_comm_map cs !! n
  = match cids_from 0 cs n with [] => None | l => Some l end.
Proof.
  intros Hnd. unfold node_comm_map.
  rewrite node_comm_from_lookup, lookup_empty by done.
  by destruct (cids_from 0 cs n).
Qed.

(** X15. The two tables written by [save_communities] describe the same
    membership: the community table has one row per community and member
    (as many rows as the sizes add up to), the node table has one row per
    node of some community, sorted by node and without repetition, and a
    pair (community, node) is a row of the first exactly when the id is in
    the list of the node's row in the second; no list is empty. *)
Theorem save_communities_consistent (communities : list (list string)) :
  Forall NoDup communities →
  (∀ cid n, (cid, n) ∈ (save_communities communities).1 ↔
            ∃ comm, communities !! cid = Some comm ∧ n ∈ comm) ∧
  (∀ cid n, (cid, n) ∈ (save_communities communities).1 ↔
            ∃ ids, (n, ids) ∈ (save_communities communities).2 ∧ cid ∈ ids) ∧
  length (save_communities communities).1 = sum_list (length <$> communities) ∧
  Sorted String.le ((save_communities communities).2.*1) ∧
  NoDup ((save_communities communities).2.*1) ∧
  (∀ n ids, (n, ids) ∈ (save_communities communities).2 →
            ids ≠ [] ∧ StronglySorted lt ids).
Proof.
  intros Hnd. unfold save_communities. cbn [fst snd].
  set (keys := sorted_set (map_to_list (node_comm_map communities)).*1).
  assert (Hkeys : ∀ n, n ∈ keys ↔ cids_from 0 communities n ≠ []).
  { intros n. unfold keys. rewrite elem_of_sorted_set, list_elem_of_fmap. split.
    - intros ([k v] & -> & Hkv). apply elem_of_map_to_list in Hkv. simpl.
      rewrite node_comm_map_lookup in Hkv by done.
      by destruct (cids_from 0 communities k).
    - intros Hne. exists (n, cids_from 0 communities n). split; [done|].
      apply elem_of_map_to_list. rewrite node_comm_map_lookup by done.
      by destruct (cids_from 0 communities n). }
  assert (Hcids : ∀ cid n, cid ∈ cids_from 0 communities n ↔
                           ∃ comm, communities !! cid = Some comm ∧ n ∈ comm).
  { intros cid n. rewrite elem_of_cids_from. split.
    - intros (i & comm & Hi & -> & Hn). by exists comm.
    - intros (comm & Hi & Hn). by exists cid, comm. }
  assert (Hrows : ∀ cid n, (cid, n) ∈ community_rows_from 0 communities ↔
                           ∃ comm, communities !! cid = Some comm ∧ n ∈ comm).
  { intros cid n. rewrite elem_of_community_rows_from. split.
    - intros (i & comm & Hi & -> & Hn). by exists comm.
    - intros (comm & Hi & Hn). by exists cid, comm. }
  assert (Hfst : ((λ n, (n, default [] (node_comm_map communities !! n))) <$> keys).*1
                 = keys).
  { rewrite <- list_fmap_compose. apply list_fmap_id. }
  split; [done|]. split; [|split; [|split; [|split]]].
  - intros cid n. rewrite Hrows, <- Hcids. split.
    + intros Hc. exists (cids_from 0 communities n). split; [|done].
      apply list_elem_of_fmap. exists n.
      split; [by rewrite node_comm_map_cids|]. apply Hkeys.
      intros Hnil. rewrite Hnil in Hc. by apply elem_of_nil in Hc.
    + intros (ids & Hrow & Hcid).
      apply list_elem_of_fmap in Hrow as (n' & Heq & _).
      injection Heq as <- ->. by rewrite node_comm_map_cids in Hcid.
  - apply length_community_rows_from.
  - rewrite Hfst. apply Sorted_sorted_set.
  - rewrite Hfst. apply NoDup_sorted_set.
  - intros n ids Hrow.
    apply list_elem_of_fmap in Hrow as (n' & Heq & Hn).
    injection Heq as <- ->. rewrite node_comm_map_cids by done.
    split; [by apply Hkeys | apply cids_from_sorted].
Qed.

Lemma save_communities_consistent_witness :
  length (save_communities [["a"; "b"]; ["c"]; ["b"; "c"]]).1
  = sum_list (length <$> [["a"; "b"]; ["c"]; ["b"; "c"]]) ∧
  Sorted String.le ((save_communities [["a"; "b"]; ["c"]; ["b"; "c"]]).2.*1) ∧
  NoDup ((save_communities [["a"; "b"]; ["c"]; ["b"; "c"]]).2.*1) ∧
  (∀ n ids, (n, ids) ∈ (save_communities [["a"; "b"]; ["c"]; ["b"; "c"]]).2 →
            ids ≠ [] ∧ StronglySorted lt ids).
Proof.
  apply (save_communities_consistent [["a"; "b"]; ["c"]; ["b"; "c"]]).
  repeat constructor; set_solver.
Defined.

Example save_communities_example :
  save_communities [["a"; "b"]; ["c"]; ["b"; "c"]]
  = ([(0, "a"); (0, "b"); (1, "c"); (2, "b"); (2, "c")],
     [("a", [0]); ("b", [0; 2]); ("c", [1; 2])]).
Proof. vm_compute. reflexivity. Qed.

(** ** The hull of a community *)

Lemma pop_while_cons a o rest p :
  pop_while (a :: o :: rest) p
  = if PrimFloat.leb (cross o a p) 0 then pop_while (o :: rest) p else a :: o :: rest.
Proof. done. Qed.

Lemma pop_while_suffix stack p : pop_while stack p `suffix_of` stack.
Proof.
  induction stack as [|a [|o rest] IH]; [done..|].
  rewrite pop_while_cons. destruct (PrimFloat.leb (cross o a p) 0); [|done].
  by apply suffix_cons_r.
Qed.

Lemma pop_while_nonempty stack p : stack ≠ [] → pop_while stack p ≠ [].
Proof.
  induction stack as [|a [|o rest] IH]; [done..|]. intros _.
  rewrite pop_while_cons.
  destruct (PrimFloat.leb (cross o a p) 0); [by apply IH | done].
Qed.

Lemma pop_while_last stack p : last (pop_while stack p) = last stack.
Proof.
  induction stack as [|a [|o rest] IH]; [done..|].
  rewrite pop_while_cons. destruct (PrimFloat.leb (cross o a p) 0); [|done].
  by rewrite IH.
Qed.

Lemma suffix_is_sublist {A} (l k : list A) : l `suffix_of` k → l `sublist_of` k.
Proof. intros [k' ->]. by apply sublist_inserts_l. Qed.

Lemma chain_snoc pts p : chain (pts ++ [p]) = p :: pop_while (chain pts) p.
Proof. unfold chain. by rewrite fold_left_app. Qed.

Lemma chain_nonempty pts : pts ≠ [] → chain pts ≠ [].
Proof. destruct pts as [|p pts _] using rev_ind; [done|]. by rewrite chain_snoc. Qed.

Lemma chain_sublist pts : chain pts `sublist_of` reverse pts.
Proof.
  induction pts as [|p pts IH] using rev_ind; [done|].
  rewrite chain_snoc, reverse_snoc. apply sublist_skip.
  etrans; [|exact IH]. apply suffix_is_sublist, pop_while_suffix.
Qed.

Lemma chain_last p pts : last (chain (p :: pts)) = Some p.
Proof.
  induction pts as [|q pts IH] using rev_ind; [done|].
  rewrite app_comm_cons, chain_snoc.
  assert (Hne : pop_while (chain (p :: pts)) q ≠ [])
    by (by apply pop_while_nonempty, chain_nonempty).
  destruct (pop_while (chain (p :: pts)) q) as [|x st] eqn:Hpop; [done|].
  rewrite last_cons_cons, <- Hpop. by rewrite pop_while_last.
Qed.

Lemma chain_length_ge pts : 2 ≤ length pts → 2 ≤ length (chain pts).
Proof.
  destruct pts as [|p pts _] using rev_ind; [simpl; lia|].
  rewrite length_app, chain_snoc. simpl. intros Hlen.
  assert (Hne : pop_while (chain pts) p ≠ []).
  { apply pop_while_nonempty, chain_nonempty. destruct pts; [simpl in Hlen; lia | done]. }
  destruct (pop_while (chain pts) p); [done | simpl; lia].
Qed.

Lemma chain_length_le pts : length (chain pts) ≤ length pts.
Proof.
  rewrite <- (length_reverse pts). apply sublist_length, chain_sublist.
Qed.

Lemma sublist_tail {A} (l k : list A) : l `sublist_of` k → tail l `sublist_of` k.
Proof.
  intros H. etrans; [|exact H]. destruct l; [done|]. simpl. by apply sublist_cons.
Qed.

Lemma sublist_reverse {A} (l k : list A) :
  l `sublist_of` k → reverse l `sublist_of` reverse k.
Proof.
  induction 1 as [|x l k _ IH|x l k _ IH]; [done|..]; rewrite ?reverse_cons.
  - by apply sublist_app.
  - by apply sublist_inserts_r.
Qed.

Lemma hull_part_sublist pts : reverse (tail (chain pts)) `sublist_of` pts.
Proof.
  rewrite <- (reverse_involutive pts) at 2.
  apply sublist_reverse, sublist_tail, chain_sublist.
Qed.

Lemma hull_part_head pts : 2 ≤ length pts → head (reverse (tail (chain pts))) = head pts.
Proof.
  intros Hlen. destruct pts as [|p0 l]; [simpl in Hlen; lia|].
  pose proof (chain_last p0 l) as Hlast.
  pose proof (chain_length_ge (p0 :: l) Hlen) as Hge.
  destruct (chain (p0 :: l)) as [|a [|b st]] eqn:Hc; [simpl in Hge; lia..|].
  rewrite last_cons_cons in Hlast. cbn [tail]. by rewrite head_reverse.
Qed.

(** X16. [_convex_hull] never invents a point and keeps the order: a list
    of at most two points is returned as it is; otherwise the result is a
    lower part taken in order from the sorted points followed by an upper
    part taken in order from the sorted points read backwards.  The lower
    part starts with the first sorted point, the upper part with the last
    one, and the hull has between 2 and 2n - 2 points -- whatever the
    rounding of the cross products. *)
Theorem convex_hull_spec (pts : list point) :
  (length pts ≤ 2 → convex_hull pts = pts) ∧
  (∃ lower upper, convex_hull pts = lower ++ upper ∧
                  lower `sublist_of` pts ∧ upper `sublist_of` reverse pts ∧
                  (2 < length pts →
                   head lower = head pts ∧ head upper = last pts)) ∧
  (∀ p, p ∈ convex_hull pts → p ∈ pts) ∧
  (2 < length pts → 2 ≤ length (convex_hull pts) ≤ 2 * length pts - 2).
Proof.
  assert (Hsmall : length pts ≤ 2 → convex_hull pts = pts).
  { intros Hlen. unfold convex_hull.
    by rewrite (proj2 (Nat.leb_le _ _) Hlen). }
  assert (Hbig : 2 < length pts →
                 convex_hull pts
                 = reverse (tail (chain pts)) ++ reverse (tail (chain (reverse pts)))).
  { intros Hlen. unfold convex_hull.
    by rewrite (proj2 (Nat.leb_gt _ _) Hlen). }
  assert (Hparts : ∃ lower upper, convex_hull pts = lower ++ upper ∧
                  lower `sublist_of` pts ∧ upper `sublist_of` reverse pts ∧
                  (2 < length pts →
                   head lower = head pts ∧ head upper = last pts)).
  { destruct (decide (length pts ≤ 2)) as [Hle|Hgt].
    - exists pts, []. rewrite app_nil_r. split; [by apply Hsmall|].
      split; [done|]. split; [apply sublist_nil_l | lia].
    - exists (reverse (tail (chain pts))), (reverse (tail (chain (reverse pts)))).
      split; [apply Hbig; lia|]. split; [apply hull_part_sublist|].
      split; [apply hull_part_sublist|]. intros _.
      split; [apply hull_part_head; lia|].
      rewrite hull_part_head by (rewrite length_reverse; lia).
      apply head_reverse. }
  split; [done|]. split; [done|]. split.
  - destruct Hparts as (lower & upper & -> & Hl & Hu & _).
    intros p [Hp|Hp]%elem_of_app.
    + by eapply sublist_subseteq.
    + apply elem_of_reverse. by eapply sublist_subseteq.
  - intros Hlen. rewrite Hbig by done. rewrite length_app, !length_reverse.
    pose proof (chain_length_ge pts ltac:(lia)) as H1.
    pose proof (chain_length_ge (reverse pts) ltac:(rewrite length_reverse; lia)) as H2.
    pose proof (chain_length_le pts) as H3.
    pose proof (chain_length_le (reverse pts)) as H4. rewrite length_reverse in H4.
    destruct (chain pts), (chain (reverse pts)); simpl in *; lia.
Qed.

Lemma convex_hull_spec_witness :
  2 ≤ length (convex_hull [(0, 0); (1, 1); (2, 0)]%float)
  ≤ 2 * length [(0, 0); (1, 1); (2, 0)]%float - 2.
Proof.
  apply (convex_hull_spec [(0, 0); (1, 1); (2, 0)]%float). simpl. lia.
Defined.

Example convex_hull_examples :
  convex_hull [(0, 0); (0, 1); (1, 0); (1, 1)]%float
  = [(0, 0); (1, 0); (1, 1); (0, 1)]%float ∧
  convex_hull [(0, 0); (1, 1); (2, 2)]%float = [(0, 0); (2, 2)]%float ∧
  convex_hull [(0, 0); (1, 0.5); (1, 2); (2, 1)]%float
  = [(0, 0); (2, 1); (1, 2)]%float.
Proof. vm_compute. done. Qed.
